(** * A named-event dispatch core: [EventEmitter], [Event], [Execution]

    Shallow embedding of the JavaScript event emitter (classes
    [EventEmitter], [Event] and [Execution]) and proofs about its
    subscription life cycle.

    JavaScript objects are shared by reference: an [Execution] is reachable
    from the array of its [Event], from the closure of its expiration timer
    and from every suspended activation of [execute]; an [Event] is reachable
    from the emitter and from the back-reference of each of its executions;
    an array of executions is reachable from its [Event] and from a [forEach]
    that is iterating over it.  The model therefore keeps three stores
    (events, executions, arrays) indexed by references, and every method is a
    function on the whole machine state. *)

From stdpp Require Import base list strings sorting.
From Stdlib Require Import ZArith Lia.

Local Open Scope Z_scope.

(** ** Data model *)

(** A reference is the index of an object in its store. *)
Abbreviation ref := nat (only parsing).

(** Arguments handed to [emitEvent] and passed on to the callbacks. *)
Inductive value :=
  | VUndefined
  | VBool (b : bool)
  | VNum (n : Z)
  | VStr (s : string).

(** A user function (subscribed callback or expiration callback) is known
    by its identity only; what it does when called is supplied by the
    environment, see [user] below. *)
Definition callback := nat.

(** [@typedef EventExpiration] *)
Module EventExpiration.
Record t := mk { expireAfterMs : Z; callback : callback }.
End EventExpiration.

(** [@typedef ExecutionParameters]; every field may be [undefined]. *)
Module ExecutionParameters.
Record t := mk {
  removeAfterExecute : option bool;
  expireAfterMs : option EventExpiration.t;
  onlyOneInstance : option bool
}.
End ExecutionParameters.

(** [Execution.parameters.expirationCallback] *)
Record ExpirationCallback := {
  enabled : bool;
  timeMs : Z;
  exp_callback : option callback   (* [None] is the default [() => { }] *)
}.

(** [Execution.parameters] *)
Record Parameters := {
  expirationCallback : ExpirationCallback;
  removeAfterExecute : bool;
  onlyOneExecutionAtATime : bool
}.

(** [Execution.state] *)
Record ExecState := {
  isExecuting : bool;
  hasExecuted : bool;
  expirationTimeout : Z
}.

(** An object of class [Execution].  Ids and counters are JavaScript
    numbers used as integers; they are unbounded integers here. *)
Record Execution := {
  eventInstance : ref;
  executionId : Z;
  parameters : Parameters;
  state : ExecState;
  callbackFunction : callback
}.

(** An object of class [Event]; [executions] refers to an array object. *)
Record Event := {
  eventName : string;
  eventId : Z;
  executions : ref;
  executionCounter : Z
}.

(** A timer created by [setTimeout]; its closure captures the execution. *)
Record Timer := {
  timer_owner : ref;
  timer_pending : bool
}.

(** What the user can observe: a call of a subscribed callback with its
    arguments, and a call of an expiration callback. *)
Inductive observation :=
  | Invoked (e : ref) (cb : callback) (args : list value)
  | Expired (e : ref) (cb : option callback).

(** The machine state: the fields of the one [EventEmitter], the three
    stores, the timers of the host, the activations of [execute] suspended
    at their [await], and the observations so far. *)
Record State := {
  events : list ref;
  eventIds : Z;
  event_heap : list Event;
  execution_heap : list Execution;
  array_heap : list (list ref);
  timers : list Timer;
  awaiting : list ref;
  trace : list observation
}.

(** [@typedef ListenerActions], the object returned by [addEvent];
    [la_remove] is its member [remove], a closure. *)
Record ListenerActions := {
  la_remove : State → State;
  la_executionId : Z;
  la_eventName : string
}.

#[export] Instance Event_inhabited : Inhabited Event :=
  populate {| eventName := ""; eventId := -1; executions := 0%nat;
              executionCounter := 0 |}.

#[export] Instance Execution_inhabited : Inhabited Execution :=
  populate {| eventInstance := 0%nat; executionId := -1;
     parameters := {| expirationCallback :=
                        {| enabled := false; timeMs := -1;
                           exp_callback := None |};
                      removeAfterExecute := false;
                      onlyOneExecutionAtATime := false |};
     state := {| isExecuting := false; hasExecuted := false;
                 expirationTimeout := -1 |};
     callbackFunction := 0%nat |}.

(** A fresh emitter: [events = []], [eventIds = 0]. *)
Definition initial : State :=
  {| events := []; eventIds := 0; event_heap := []; execution_heap := [];
     array_heap := []; timers := []; awaiting := []; trace := [] |}.

(** *** Field updates *)

Definition set_events (f : list ref → list ref) (s : State) : State :=
  {| events := f (events s); eventIds := eventIds s;
     event_heap := event_heap s; execution_heap := execution_heap s;
     array_heap := array_heap s; timers := timers s;
     awaiting := awaiting s; trace := trace s |}.

Definition set_eventIds (f : Z → Z) (s : State) : State :=
  {| events := events s; eventIds := f (eventIds s);
     event_heap := event_heap s; execution_heap := execution_heap s;
     array_heap := array_heap s; timers := timers s;
     awaiting := awaiting s; trace := trace s |}.

Definition set_event_heap (f : list Event → list Event) (s : State) : State :=
  {| events := events s; eventIds := eventIds s;
     event_heap := f (event_heap s); execution_heap := execution_heap s;
     array_heap := array_heap s; timers := timers s;
     awaiting := awaiting s; trace := trace s |}.

Definition set_execution_heap (f : list Execution → list Execution)
    (s : State) : State :=
  {| events := events s; eventIds := eventIds s;
     event_heap := event_heap s; execution_heap := f (execution_heap s);
     array_heap := array_heap s; timers := timers s;
     awaiting := awaiting s; trace := trace s |}.

Definition set_array_heap (f : list (list ref) → list (list ref))
    (s : State) : State :=
  {| events := events s; eventIds := eventIds s;
     event_heap := event_heap s; execution_heap := execution_heap s;
     array_heap := f (array_heap s); timers := timers s;
     awaiting := awaiting s; trace := trace s |}.

Definition set_timers (f : list Timer → list Timer) (s : State) : State :=
  {| events := events s; eventIds := eventIds s;
     event_heap := event_heap s; execution_heap := execution_heap s;
     array_heap := array_heap s; timers := f (timers s);
     awaiting := awaiting s; trace := trace s |}.

Definition set_awaiting (f : list ref → list ref) (s : State) : State :=
  {| events := events s; eventIds := eventIds s;
     event_heap := event_heap s; execution_heap := execution_heap s;
     array_heap := array_heap s; timers := timers s;
     awaiting := f (awaiting s); trace := trace s |}.

Definition log (o : observation) (s : State) : State :=
  {| events := events s; eventIds := eventIds s;
     event_heap := event_heap s; execution_heap := execution_heap s;
     array_heap := array_heap s; timers := timers s;
     awaiting := awaiting s; trace := trace s ++ [o] |}.

Definition set_executions (a : ref) (ev : Event) : Event :=
  {| eventName := eventName ev; eventId := eventId ev; executions := a;
     executionCounter := executionCounter ev |}.

Definition set_executionCounter (n : Z) (ev : Event) : Event :=
  {| eventName := eventName ev; eventId := eventId ev;
     executions := executions ev; executionCounter := n |}.

Definition set_parameters (p : Parameters) (x : Execution) : Execution :=
  {| eventInstance := eventInstance x; executionId := executionId x;
     parameters := p; state := state x;
     callbackFunction := callbackFunction x |}.

Definition set_state (st : ExecState) (x : Execution) : Execution :=
  {| eventInstance := eventInstance x; executionId := executionId x;
     parameters := parameters x; state := st;
     callbackFunction := callbackFunction x |}.

(** *** Reading the stores

    A reference held by a JavaScript object always leads to an object.
    Reading a store at a reference that is not allocated yields a default
    object here; in a well-formed state (see [wf]) this does not happen. *)

Definition event_at (s : State) (r : ref) : Event := event_heap s !!! r.
Definition execution_at (s : State) (e : ref) : Execution :=
  execution_heap s !!! e.
Definition array_at (s : State) (a : ref) : list ref := array_heap s !!! a.

(** The current contents of [event.executions]. *)
Definition executions_of (s : State) (r : ref) : list ref :=
  array_at s (executions (event_at s r)).

Definition update_event (r : ref) (f : Event → Event) (s : State) : State :=
  set_event_heap (alter f r) s.

Definition update_execution (e : ref) (f : Execution → Execution)
    (s : State) : State :=
  set_execution_heap (alter f e) s.

(** ** The host: timers

    Delays are not modelled: a pending timer may fire at any time between
    two jobs of the event loop, see [fire_timer]. *)

(** [setTimeout] hands out the ids 1, 2, 3, ...; the timer with id [n] is
    stored at index [n - 1]. *)
Definition timer_id (t : nat) : Z := Z.of_nat t + 1.
Definition timer_index (id : Z) : nat := Z.to_nat (id - 1).

(** [setTimeout(closure over e, ms)] *)
Definition setTimeout (e : ref) (s : State) : Z * State :=
  (timer_id (length (timers s)),
   set_timers (λ ts, ts ++ [{| timer_owner := e; timer_pending := true |}]) s).

(** A timer that was cancelled or has fired is no longer pending. *)
Definition disarm (t : Timer) : Timer :=
  {| timer_owner := timer_owner t; timer_pending := false |}.

(** [clearTimeout(id)]: cancels the timer if it is still pending; an id
    that names no timer is ignored. *)
Definition clearTimeout (id : Z) (s : State) : State :=
  if 0 <? id then set_timers (alter disarm (timer_index id)) s else s.

(** Is the timer with this id still waiting to fire? *)
Definition pending_in (ts : list Timer) (id : Z) : bool :=
  (0 <? id) &&
  match ts !! timer_index id with
  | Some t => timer_pending t
  | None => false
  end.

Definition pending (s : State) (id : Z) : bool := pending_in (timers s) id.

(** ** class [Execution] *)

Definition default_parameters : Parameters :=
  {| expirationCallback :=
       {| enabled := false; timeMs := -1; exp_callback := None |};
     removeAfterExecute := false;
     onlyOneExecutionAtATime := false |}.

Definition default_state : ExecState :=
  {| isExecuting := false; hasExecuted := false; expirationTimeout := -1 |}.

Definition set_removeAfterExecute (b : bool) (x : Execution) : Execution :=
  set_parameters
    {| expirationCallback := expirationCallback (parameters x);
       removeAfterExecute := b;
       onlyOneExecutionAtATime := onlyOneExecutionAtATime (parameters x) |} x.

Definition set_onlyOneExecutionAtATime (b : bool) (x : Execution) : Execution :=
  set_parameters
    {| expirationCallback := expirationCallback (parameters x);
       removeAfterExecute := removeAfterExecute (parameters x);
       onlyOneExecutionAtATime := b |} x.

Definition set_expirationCallback (c : ExpirationCallback) (x : Execution)
    : Execution :=
  set_parameters
    {| expirationCallback := c;
       removeAfterExecute := removeAfterExecute (parameters x);
       onlyOneExecutionAtATime := onlyOneExecutionAtATime (parameters x) |} x.

Definition set_isExecuting (b : bool) (x : Execution) : Execution :=
  set_state {| isExecuting := b; hasExecuted := hasExecuted (state x);
               expirationTimeout := expirationTimeout (state x) |} x.

Definition set_hasExecuted (b : bool) (x : Execution) : Execution :=
  set_state {| isExecuting := isExecuting (state x); hasExecuted := b;
               expirationTimeout := expirationTimeout (state x) |} x.

Definition set_expirationTimeout (id : Z) (x : Execution) : Execution :=
  set_state {| isExecuting := isExecuting (state x);
               hasExecuted := hasExecuted (state x);
               expirationTimeout := id |} x.

(** [getID()] *)
Definition Execution_getID (s : State) (e : ref) : Z :=
  executionId (execution_at s e).

(** [Execution.isExecuting()] *)
Definition Execution_isExecuting (s : State) (e : ref) : bool :=
  isExecuting (state (execution_at s e)).

(** [activateAutomaticCancellation()]: arms the timer and stores its id. *)
Definition activateAutomaticCancellation (e : ref) (s : State) : State :=
  let '(id, s) := setTimeout e s in
  update_execution e (set_expirationTimeout id) s.

(** [stopAutomaticCancellation()] *)
Definition stopAutomaticCancellation (e : ref) (s : State) : State :=
  if expirationTimeout (state (execution_at s e)) =? -1 then s
  else clearTimeout (expirationTimeout (state (execution_at s e))) s.

(** [new Execution(event, id, callback, parameters)]: the object is
    allocated with the defaults of the field initialisers, then the
    constructor body copies the parameters that are not [undefined]. *)
Definition Execution_new (event : ref) (id : Z) (cb : callback)
    (params : option ExecutionParameters.t) (s : State) : ref * State :=
  let e := length (execution_heap s) in
  let s := set_execution_heap
             (λ h, h ++ [{| eventInstance := event; executionId := id;
                            parameters := default_parameters;
                            state := default_state;
                            callbackFunction := cb |}]) s in
  match params with
  | None => (e, s)
  | Some p =>
      let s := match ExecutionParameters.removeAfterExecute p with
               | Some b => update_execution e (set_removeAfterExecute b) s
               | None => s
               end in
      let s := match ExecutionParameters.expireAfterMs p with
               | Some x =>
                   activateAutomaticCancellation e
                     (update_execution e
                        (set_expirationCallback
                           {| enabled := true;
                              timeMs := EventExpiration.expireAfterMs x;
                              exp_callback :=
                                Some (EventExpiration.callback x) |}) s)
               | None => s
               end in
      let s := match ExecutionParameters.onlyOneInstance p with
               | Some b => update_execution e (set_onlyOneExecutionAtATime b) s
               | None => s
               end in
      (e, s)
  end.

(** ** class [Event] *)

(** [new Event(emitter, eventName, eventId)]: [executions = []] is a fresh
    array, [executionCounter = 0]. *)
Definition Event_new (name : string) (id : Z) (s : State) : ref * State :=
  let a := length (array_heap s) in
  let s := set_array_heap (λ h, h ++ [[]]) s in
  (length (event_heap s),
   set_event_heap
     (λ h, h ++ [{| eventName := name; eventId := id; executions := a;
                    executionCounter := 0 |}]) s).

(** [getEventName()], [getTotalExecutions()] *)
Definition Event_getEventName (s : State) (r : ref) : string :=
  eventName (event_at s r).

Definition Event_getTotalExecutions (s : State) (r : ref) : nat :=
  length (executions_of s r).

(** [Event.getID()] *)
Definition Event_getID (s : State) (r : ref) : Z := eventId (event_at s r).

(** [addExecution(callbackFunction, parameters)]: [push] extends the array
    object in place. *)
Definition Event_addExecution (r : ref) (cb : callback)
    (params : option ExecutionParameters.t) (s : State) : Z * State :=
  let '(e, s) :=
    Execution_new r (executionCounter (event_at s r)) cb params s in
  let s := set_array_heap
             (alter (λ l, l ++ [e]) (executions (event_at s r))) s in
  let s := update_event r
             (λ ev, set_executionCounter (executionCounter ev + 1) ev) s in
  (Execution_getID s e, s).

(** [removeExecution(id)]: [filter] builds a new array and the field
    [executions] is pointed at it; the old array object is left as it is. *)
Definition Event_removeExecution (r : ref) (id : Z) (s : State) : State :=
  let kept := filter (λ x, Execution_getID s x ≠ id) (executions_of s r) in
  let a := length (array_heap s) in
  update_event r (set_executions a) (set_array_heap (λ h, h ++ [kept]) s).

(** [Execution.cancel()] *)
Definition Execution_cancel (e : ref) (s : State) : State :=
  let s := stopAutomaticCancellation e s in
  Event_removeExecution (eventInstance (execution_at s e))
    (executionId (execution_at s e)) s.

(** ** class [EventEmitter] *)

(** [this.events.find((e) => e.getEventName() == eventName)] *)
Definition find_event (s : State) (name : string) : option ref :=
  List.find (λ r, String.eqb (Event_getEventName s r) name) (events s).

(** [removeEvent(eventName)] *)
Definition removeEvent (name : string) (s : State) : State :=
  set_events
    (List.filter (λ r, negb (String.eqb (Event_getEventName s r) name))) s.

(** [removeExecution(eventName, executionId)] *)
Definition removeExecution (name : string) (id : Z) (s : State) : State :=
  match find_event s name with
  | None => s
  | Some event =>
      let s := Event_removeExecution event id s in
      if Nat.eqb (Event_getTotalExecutions s event) 0 then
        set_events
          (List.filter
             (λ r, negb (String.eqb (Event_getEventName s r) name))) s
      else s
  end.

(** [removeAllEvents()] *)
Definition removeAllEvents (s : State) : State := set_events (λ _, []) s.

(** [addEvent(eventName, callback, parameters)] *)
Definition addEvent (name : string) (cb : callback)
    (params : option ExecutionParameters.t) (s : State)
    : ListenerActions * State :=
  let '(event, s) :=
    match find_event s name with
    | Some r => (r, s)
    | None =>
        let id := eventIds s in
        (* [this.eventIds++] as argument of the constructor *)
        let s := set_eventIds (λ n, n + 1) s in
        let '(r, s) := Event_new name id s in
        (* [this.eventIds++;] *)
        let s := set_eventIds (λ n, n + 1) s in
        (r, set_events (λ l, l ++ [r]) s)
    end in
  let '(newExecutionId, s) := Event_addExecution event cb params s in
  ({| la_remove := removeExecution name newExecutionId;
      la_executionId := newExecutionId;
      la_eventName := Event_getEventName s event |}, s).

(** ** User code

    A user function is opaque to the emitter.  When called it may call back
    into the emitter before it returns, and it either returns (a value or a
    promise, which [await] waits for) or throws.  The calls it makes are
    subscriptions and removals; a callback that emits from inside a
    fan-out is outside this model. *)

Inductive call :=
  | CallAddEvent (name : string) (cb : callback)
      (params : option ExecutionParameters.t)
  | CallRemoveEvent (name : string)
  | CallRemoveExecution (name : string) (id : Z)
  | CallRemoveAllEvents.

Record Behaviour := {
  calls : list call;
  throws : bool
}.

(** How a statement completes. *)
Inductive completion := Normal | Throw.

Definition run_call (c : call) (s : State) : State :=
  match c with
  | CallAddEvent name cb params => snd (addEvent name cb params s)
  | CallRemoveEvent name => removeEvent name s
  | CallRemoveExecution name id => removeExecution name id s
  | CallRemoveAllEvents => removeAllEvents s
  end.

Definition run_calls (cs : list call) (s : State) : State :=
  fold_left (λ s c, run_call c s) cs s.

(** ** Running user code: [execute], the fan-out, the event loop *)

Section Dispatch.

(** What a user function does when it is called with given arguments in a
    given machine state.  The state carries the whole trace, so the
    behaviour may depend on everything that happened before. *)
Variable user : callback → list value → State → Behaviour.

(** A call of a user function: its calls into the emitter, then its
    completion. *)
Definition call_user (cb : callback) (args : list value) (s : State)
    : completion * State :=
  let b := user cb args s in
  (if throws b then Throw else Normal, run_calls (calls b) s).

(** The statements of [Execution.execute] after the [try]/[catch]. *)
Definition Execution_afterRun (e : ref) (s : State) : State :=
  let s := update_execution e (set_isExecuting false) s in
  let s := update_execution e (set_hasExecuted true) s in
  if removeAfterExecute (parameters (execution_at s e)) then
    Execution_cancel e s
  else s.

(** [Execution.execute(...args)], from its call up to the point where
    control goes back to the caller.  It is an [async] function: it never
    completes abruptly for its caller.  When the callback throws, the
    [catch] clause is entered at once and the rest of the body runs before
    the function returns; when the callback returns, [await] suspends the
    activation, which is resumed later by the event loop, see [resume]. *)
Definition Execution_execute (e : ref) (args : list value) (s : State)
    : completion * State :=
  let s := stopAutomaticCancellation e s in
  if isExecuting (state (execution_at s e))
     && onlyOneExecutionAtATime (parameters (execution_at s e))
  then (Normal, s)
  else
    let s := update_execution e (set_isExecuting true) s in
    let cb := callbackFunction (execution_at s e) in
    let s := log (Invoked e cb args) s in
    match call_user cb args s with
    | (Throw, s) => (Normal, Execution_afterRun e s)
    | (Normal, s) => (Normal, set_awaiting (λ l, l ++ [e]) s)
    end.

(** [Array.prototype.forEach] on the array object [a]: the length [len]
    is read once, before the first call; at each index [k < len] the
    element is read from the array as it is at that moment; an abrupt
    completion of [f] ends the loop.  [n] counts the indices left. *)
Fixpoint forEach (f : ref → State → completion * State) (a : ref)
    (k n : nat) (s : State) : completion * State :=
  match n with
  | O => (Normal, s)
  | S n =>
      match array_at s a !! k with
      | Some x =>
          match f x s with
          | (Normal, s) => forEach f a (S k) n s
          | (Throw, s) => (Throw, s)
          end
      | None => forEach f a (S k) n s
      end
  end.

(** [Event.execute(...args)] *)
Definition Event_execute (r : ref) (args : list value) (s : State)
    : completion * State :=
  let a := executions (event_at s r) in
  forEach (λ execution, Execution_execute execution args) a 0
    (length (array_at s a)) s.

(** [emitEvent(eventName, ...args)] *)
Definition emitEvent (name : string) (args : list value) (s : State)
    : completion * State :=
  match find_event s name with
  | None => (Normal, s)
  | Some event => Event_execute event args s
  end.

(** The closure given to [setTimeout] by [activateAutomaticCancellation]:
    [callback(); this.cancel();]. *)
Definition expiration_closure (e : ref) (s : State) : completion * State :=
  let cb := exp_callback (expirationCallback (parameters (execution_at s e))) in
  let s := log (Expired e cb) s in
  match cb with
  | None => (Normal, Execution_cancel e s)
  | Some f =>
      match call_user f [] s with
      | (Throw, s) => (Throw, s)
      | (Normal, s) => (Normal, Execution_cancel e s)
      end
  end.

(** The host fires timer [t]: nothing happens unless it is pending. *)
Definition fire_timer (t : nat) (s : State) : completion * State :=
  match timers s !! t with
  | Some tm =>
      if timer_pending tm then
        expiration_closure (timer_owner tm) (set_timers (alter disarm t) s)
      else (Normal, s)
  | None => (Normal, s)
  end.

(** The event loop resumes the [k]-th suspended activation of [execute]:
    the awaited promise has settled; fulfilled or rejected, the body goes
    on after the [try]/[catch]. *)
Definition resume (k : nat) (s : State) : State :=
  match awaiting s !! k with
  | Some e => Execution_afterRun e (set_awaiting (delete k) s)
  | None => s
  end.

(** One job of the event loop: a call of the emitter's interface by the
    program, a timer firing, or a resumed activation. *)
Inductive op :=
  | OpCall (c : call)
  | OpEmit (name : string) (args : list value)
  | OpTimer (t : nat)
  | OpResume (k : nat).

Definition step (o : op) (s : State) : completion * State :=
  match o with
  | OpCall c => (Normal, run_call c s)
  | OpEmit name args => emitEvent name args s
  | OpTimer t => fire_timer t s
  | OpResume k => (Normal, resume k s)
  end.

(** A sequence of jobs; an error that escapes a job (an uncaught error in
    a timer callback) is reported by the host and the loop goes on. *)
Definition run (os : list op) (s : State) : State :=
  fold_left (λ s o, snd (step o s)) os s.

(** The states an emitter can be in. *)
Inductive reachable : State → Prop :=
  | reachable_initial : reachable initial
  | reachable_step o s : reachable s → reachable (snd (step o s)).

End Dispatch.

Local Close Scope Z_scope.

(** ** Relations and invariants on machine states *)

(** *** The stores only grow

    [extends P s s'] collects what no method ever undoes: objects stay where
    they are, the immutable fields of events and executions keep their
    values, execution counters do not decrease, an array object only gains
    elements at its end and these are executions allocated after [s], a
    timer that is no longer pending stays so, and the trace is extended.
    [P] tells which executions may have had their [state] written; every
    other execution is exactly as it was. *)

Record extends (P : ref → Prop) (s s' : State) : Prop := {
  ext_execution_length :
    length (execution_heap s) ≤ length (execution_heap s');
  ext_event : ∀ r ev, event_heap s !! r = Some ev →
    ∃ ev', event_heap s' !! r = Some ev' ∧
      eventName ev' = eventName ev ∧ eventId ev' = eventId ev ∧
      (executionCounter ev ≤ executionCounter ev')%Z;
  ext_execution : ∀ e x, execution_heap s !! e = Some x →
    ∃ x', execution_heap s' !! e = Some x' ∧
      eventInstance x' = eventInstance x ∧ executionId x' = executionId x ∧
      parameters x' = parameters x ∧
      callbackFunction x' = callbackFunction x ∧
      expirationTimeout (state x') = expirationTimeout (state x);
  ext_frame : ∀ e x, ¬ P e → execution_heap s !! e = Some x →
    execution_heap s' !! e = Some x;
  ext_array : ∀ a l, array_heap s !! a = Some l →
    ∃ k, array_heap s' !! a = Some (l ++ k) ∧
      ∀ e, e ∈ k → length (execution_heap s) ≤ e;
  ext_timer : ∀ t tm, timers s !! t = Some tm →
    ∃ tm', timers s' !! t = Some tm' ∧ timer_owner tm' = timer_owner tm ∧
      (timer_pending tm = false → timer_pending tm' = false);
  ext_trace : trace s `prefix_of` trace s'
}.

(** The trigger of an execution is dropped by the guard of
    [Execution.execute]. *)
Definition dropped (s : State) (e : ref) : bool :=
  isExecuting (state (execution_at s e))
  && onlyOneExecutionAtATime (parameters (execution_at s e)).

(** The state in which [execute] calls the callback. *)
Definition calling (e : ref) (args : list value) (s : State) : State :=
  let s := update_execution e (set_isExecuting true)
             (stopAutomaticCancellation e s) in
  log (Invoked e (callbackFunction (execution_at s e)) args) s.

(** [e] is in the list of no event. *)
Definition absent (s : State) (e : ref) : Prop :=
  ∀ r ev, event_heap s !! r = Some ev → e ∉ array_at s (executions ev).

(** *** Well-formed states

    The invariant of the machine comes in three parts, each stated on the
    components of the state it is about.  The first part is about the object
    graph: references are allocated, two events never share an array, an
    array holds each execution at most once, and the executions in the array
    of an event point back to that event. *)

Record wf_store (evs : list ref) (eh : list Event) (ah : list (list ref))
    (xh : list Execution) : Prop := {
  wf_events : ∀ r, r ∈ evs → r < length eh;
  wf_event_array : ∀ r ev, eh !! r = Some ev → executions ev < length ah;
  wf_array_inj : ∀ r1 r2 ev1 ev2,
    eh !! r1 = Some ev1 → eh !! r2 = Some ev2 →
    executions ev1 = executions ev2 → r1 = r2;
  wf_array_elem : ∀ a l e, ah !! a = Some l → e ∈ l → e < length xh;
  wf_array_nodup : ∀ a l, ah !! a = Some l → NoDup l;
  wf_owner : ∀ r ev l e x,
    eh !! r = Some ev → ah !! executions ev = Some l →
    e ∈ l → xh !! e = Some x → eventInstance x = r;
  wf_execution_event : ∀ e x, xh !! e = Some x → eventInstance x < length eh
}.

(** The second part is about expiration timers: the id stored in an
    execution names an allocated timer or is [-1], a pending timer is the
    one its owner refers to, and the timer of an execution whose callback is
    running has been disarmed. *)

Record wf_timers (xh : list Execution) (ts : list Timer) : Prop := {
  wf_execution_timer : ∀ e x, xh !! e = Some x →
    (expirationTimeout (state x) ≤ Z.of_nat (length ts))%Z;
  wf_running : ∀ e x, xh !! e = Some x → isExecuting (state x) = true →
    pending_in ts (expirationTimeout (state x)) = false;
  wf_timer_owner : ∀ t tm, ts !! t = Some tm → timer_owner tm < length xh;
  wf_timer_pending : ∀ t tm x, ts !! t = Some tm → timer_pending tm = true →
    xh !! timer_owner tm = Some x → expirationTimeout (state x) = timer_id t
}.

(** The third part is about expirations: the expiration callback of an
    execution has been called at most once, and if it has been called no
    timer of that execution is pending. *)

Definition expired_of (e : ref) (o : observation) : bool :=
  match o with
  | Expired e' _ => Nat.eqb e e'
  | Invoked _ _ _ => false
  end.

Definition expirations_in (tr : list observation) (e : ref)
    : list observation :=
  List.filter (expired_of e) tr.

Definition disarmed_in (ts : list Timer) (e : ref) : Prop :=
  ∀ t tm, ts !! t = Some tm → timer_owner tm = e → timer_pending tm = false.

Record wf_trace (xh : list Execution) (ts : list Timer)
    (tr : list observation) : Prop := {
  wf_expired_allocated : ∀ e, length xh ≤ e → expirations_in tr e = [];
  wf_expired_once : ∀ e,
    expirations_in tr e = [] ∨
    (length (expirations_in tr e) = 1 ∧ disarmed_in ts e)
}.

(** The last two parts are relative to two sets of executions that are to
    stay as they are.  The executions in [D] are retired: allocated, and in
    the array of no event.  The executions in [T] are disarmed: allocated,
    and without a pending timer. *)

Record wf_retired (D : ref → Prop) (eh : list Event) (ah : list (list ref))
    (xh : list Execution) : Prop := {
  wf_retired_allocated : ∀ e, D e → e < length xh;
  wf_retired_detached : ∀ r ev l e,
    eh !! r = Some ev → ah !! executions ev = Some l → e ∈ l → ¬ D e
}.

Record wf_disarmed (T : ref → Prop) (xh : list Execution) (ts : list Timer)
    : Prop := {
  wf_disarmed_allocated : ∀ e, T e → e < length xh;
  wf_disarmed_timers : ∀ e, T e → disarmed_in ts e
}.

(** One more part is about the ids of executions.  [id_lt xh e1 e2] says
    that [e1] was registered before [e2] on the same event: its id is the
    smaller one.  Along the array of an event the ids increase strictly, and
    all of them are below the counter of the event. *)

Definition id_lt (xh : list Execution) (e1 e2 : ref) : Prop :=
  (executionId (xh !!! e1) < executionId (xh !!! e2))%Z.

Record wf_ids (eh : list Event) (ah : list (list ref))
    (xh : list Execution) : Prop := {
  wf_ids_sorted : ∀ r ev l, eh !! r = Some ev →
    ah !! executions ev = Some l → StronglySorted (id_lt xh) l;
  wf_ids_below : ∀ r ev l e, eh !! r = Some ev →
    ah !! executions ev = Some l → e ∈ l →
    (executionId (xh !!! e) < executionCounter ev)%Z
}.

(** A well-formed machine state, relative to [D] and [T]. *)
Record wf_at (D T : ref → Prop) (s : State) : Prop := {
  wf_wf_store :
    wf_store (events s) (event_heap s) (array_heap s) (execution_heap s);
  wf_wf_timers : wf_timers (execution_heap s) (timers s);
  wf_wf_trace : wf_trace (execution_heap s) (timers s) (trace s);
  wf_wf_retired :
    wf_retired D (event_heap s) (array_heap s) (execution_heap s);
  wf_wf_disarmed : wf_disarmed T (execution_heap s) (timers s);
  wf_wf_ids : wf_ids (event_heap s) (array_heap s) (execution_heap s)
}.

(** A well-formed machine state. *)
Definition wf (s : State) : Prop := wf_at (λ _, False) (λ _, False) s.

(** An observation that is not a call of the callback of an execution in
    [D] nor of the expiration callback of an execution in [T]. *)
Definition avoids (D T : ref → Prop) (o : observation) : Prop :=
  match o with
  | Invoked e _ _ => ¬ D e
  | Expired e _ => ¬ T e
  end.

(** *** What a client can observe of the registry

    Everything but the identity of the array objects: the emitter's
    fields, every event with its name, id, counter and list of executions,
    the executions, the timers, the suspended activations and the trace. *)

Definition view_event (s : State) (ev : Event)
    : string * Z * Z * list ref :=
  (eventName ev, eventId ev, executionCounter ev, array_at s (executions ev)).

Definition view (s : State) :=
  (events s, eventIds s, view_event s <$> event_heap s,
   execution_heap s, timers s, awaiting s, trace s).

(** *** The registry

    What the emitter's own bookkeeping consists of: its list of events,
    its counter of event ids, and the name and id of every [Event] object.
    The methods of [Event] and [Execution] never write any of these. *)

Definition registry (s : State) : list ref * Z * list (string * Z) :=
  (events s, eventIds s, (λ ev, (eventName ev, eventId ev)) <$> event_heap s).

(** From [s] to [s'] no object was created and the registry was not
    written: what happened is the work of methods of [Event] and
    [Execution] on the objects that exist. *)
Definition same_objects (s s' : State) : Prop :=
  registry s' = registry s ∧ extends (λ _, True) s s' ∧
  length (execution_heap s') = length (execution_heap s).

(** No two registered events have the same name. *)
Definition names_unique (s : State) : Prop :=
  NoDup (Event_getEventName s <$> events s).

(** The counter of event ids is twice the number of [Event] objects
    created, and the [r]-th object created has the id [2 * r]. *)
Definition ids_by_creation (s : State) : Prop :=
  eventIds s = (2 * Z.of_nat (length (event_heap s)))%Z ∧
  ∀ r, r < length (event_heap s) → Event_getID s r = (2 * Z.of_nat r)%Z.

(** The [Event] object [r] exists and is not registered. *)
Definition unregistered (r : ref) (s : State) : Prop :=
  r < length (event_heap s) ∧ r ∉ events s.

(** No two executions hold the id of the same timer. *)
Definition timer_ids_unique (s : State) : Prop :=
  ∀ e1 e2 x1 x2,
    execution_heap s !! e1 = Some x1 → execution_heap s !! e2 = Some x2 →
    expirationTimeout (state x1) = expirationTimeout (state x2) →
    expirationTimeout (state x1) ≠ (-1)%Z → e1 = e2.

(** *** The user functions a job calls

    The calls of user functions that the job [o] makes when it starts in
    the state [s], in order: an emit calls the callbacks of the executions
    that are in the list of the event and are not dropped by their guard; a
    pending timer calls the expiration callback of its owner. *)

Definition calls_of (o : op) (s : State) : list observation :=
  match o with
  | OpCall _ | OpResume _ => []
  | OpEmit name args =>
      match find_event s name with
      | Some r =>
          map (λ e, Invoked e (callbackFunction (execution_at s e)) args)
            (filter (λ e, dropped s e = false) (executions_of s r))
      | None => []
      end
  | OpTimer t =>
      match timers s !! t with
      | Some tm =>
          if timer_pending tm then
            [Expired (timer_owner tm)
               (exp_callback
                  (expirationCallback
                     (parameters (execution_at s (timer_owner tm)))))]
          else []
      | None => []
      end
  end.

(** The function called is the one given to [addEvent] for the execution:
    its callback, or the callback of its expiration. *)
Definition subscribed (s : State) (ob : observation) : Prop :=
  match ob with
  | Invoked e cb _ =>
      e < length (execution_heap s) ∧
      cb = callbackFunction (execution_at s e)
  | Expired e cb =>
      e < length (execution_heap s) ∧
      cb = exp_callback (expirationCallback (parameters (execution_at s e)))
  end.

(** *** Runs in flight

    An activation of [execute] is in flight from the call of the callback
    until the statements after the [try]/[catch] have run; between two
    jobs of the event loop the activations in flight are the suspended
    ones.  For an execution with [onlyOneExecutionAtATime] there is at most
    one of them, and [isExecuting] is set while there is one. *)

Record one_at_a_time (s : State) : Prop := {
  oat_allocated : ∀ e, e ∈ awaiting s → e < length (execution_heap s);
  oat_running : ∀ e i, awaiting s !! i = Some e →
    onlyOneExecutionAtATime (parameters (execution_at s e)) = true →
    Execution_isExecuting s e = true;
  oat_unique : ∀ e i j, awaiting s !! i = Some e → awaiting s !! j = Some e →
    onlyOneExecutionAtATime (parameters (execution_at s e)) = true → i = j
}.

(** An execution outside [X] whose [isExecuting] is set has a suspended
    activation.  While the callback of an execution is running inside
    [execute], that execution is the exception. *)
Definition running_in_flight (X : ref → Prop) (s : State) : Prop :=
  ∀ e x, ¬ X e → execution_heap s !! e = Some x →
    isExecuting (state x) = true → e ∈ awaiting s.

(** ** Scenarios

    Concrete users and states for the instances and counterexamples. *)

(** Every user function returns and calls nothing. *)
Definition user_quiet : callback → list value → State → Behaviour :=
  λ _ _ _, {| calls := []; throws := false |}.

(** The callback [1] throws; every other user function returns. *)
Definition user_first_throws : callback → list value → State → Behaviour :=
  λ cb _ _, {| calls := []; throws := Nat.eqb cb 1 |}.

(** The expiration callback [9] throws; every other user function
    returns. *)
Definition user_onExpire_throws : callback → list value → State → Behaviour :=
  λ cb _ _, {| calls := []; throws := Nat.eqb cb 9 |}.

Definition once : ExecutionParameters.t :=
  ExecutionParameters.mk (Some true) None None.

Definition oneshot : option ExecutionParameters.t := Some once.

Definition expiring : option ExecutionParameters.t :=
  Some (ExecutionParameters.mk None (Some (EventExpiration.mk 50 9)) None).

Definition only_one : option ExecutionParameters.t :=
  Some (ExecutionParameters.mk None None (Some true)).

(** Two subscriptions to ["data"]: a one-shot with callback [1], and
    callback [2]. *)
Definition two_listeners : State :=
  run user_first_throws
    [OpCall (CallAddEvent "data" 1 oneshot);
     OpCall (CallAddEvent "data" 2 None)]
    initial.

(** One subscription to ["tick"] that expires after 50 ms. *)
Definition ticking : State := snd (addEvent "tick" 1 expiring initial).


(** Two subscriptions to ["a"]. *)
Definition two_on_a : State :=
  run user_quiet
    [OpCall (CallAddEvent "a" 1 None); OpCall (CallAddEvent "a" 2 None)]
    initial.

(** Two subscriptions to ["a"] and one to ["b"]. *)
Definition three_listeners : State :=
  run user_quiet
    [OpCall (CallAddEvent "a" 1 None); OpCall (CallAddEvent "a" 2 None);
     OpCall (CallAddEvent "b" 3 None)]
    initial.

(** A subscription without [onlyOneInstance] that was triggered twice;
    neither run has completed. *)
Definition overlapping : State :=
  run user_quiet
    [OpCall (CallAddEvent "a" 1 None); OpEmit "a" []; OpEmit "a" []]
    initial.

(** Two subscriptions that expire, to ["tick"] and to ["tock"]. *)
Definition two_timers : State :=
  run user_quiet
    [OpCall (CallAddEvent "tick" 1 expiring);
     OpCall (CallAddEvent "tock" 2 expiring)]
    initial.

(** A subscription with [onlyOneInstance] that was triggered twice while
    its first run has not completed. *)
Definition busy_twice : State :=
  run user_quiet
    [OpCall (CallAddEvent "job" 1 only_one); OpEmit "job" [];
     OpEmit "job" []]
    initial.

(** * Proofs *)

(** ** The stores only grow *)

Lemma alter_snoc {A} (f : A → A) (h : list A) (x : A) :
  alter f (length h) (h ++ [x]) = h ++ [f x].
Proof.
  replace (length h) with (length h + 0) by lia.
  by rewrite alter_app_r.
Qed.

Lemma lookup_total_snoc `{!Inhabited A} (h : list A) (x : A) :
  (h ++ [x]) !!! length h = x.
Proof. apply list_lookup_total_correct, list_lookup_middle. done. Qed.

Lemma extends_refl P s : extends P s s.
Proof.
  split; try done.
  - intros r ev ?. exists ev. repeat split; [done|lia].
  - intros e x ?. by exists x.
  - intros a l ?. exists []. rewrite app_nil_r. split; [done|].
    intros ? []%elem_of_nil.
  - intros t tm ?. by exists tm.
Qed.

Lemma extends_trans P s1 s2 s3 :
  extends P s1 s2 → extends P s2 s3 → extends P s1 s3.
Proof.
  intros H12 H23. split.
  - pose proof (ext_execution_length _ _ _ H12).
    pose proof (ext_execution_length _ _ _ H23). lia.
  - intros r ev Hr.
    destruct (ext_event _ _ _ H12 _ _ Hr) as (ev2 & Hr2 & ? & ? & ?).
    destruct (ext_event _ _ _ H23 _ _ Hr2) as (ev3 & Hr3 & ? & ? & ?).
    exists ev3. repeat split; try congruence. lia.
  - intros e x He.
    destruct (ext_execution _ _ _ H12 _ _ He) as (x2 & He2 & ? & ? & ? & ? & ?).
    destruct (ext_execution _ _ _ H23 _ _ He2) as (x3 & He3 & ? & ? & ? & ? & ?).
    exists x3. repeat split; congruence.
  - intros e x HP He.
    eapply (ext_frame _ _ _ H23); [done|]. by eapply (ext_frame _ _ _ H12).
  - intros a l Ha.
    destruct (ext_array _ _ _ H12 _ _ Ha) as (k2 & Ha2 & Hk2).
    destruct (ext_array _ _ _ H23 _ _ Ha2) as (k3 & Ha3 & Hk3).
    exists (k2 ++ k3). rewrite app_assoc. split; [done|].
    intros e [?|Hin]%elem_of_app; [by apply Hk2|].
    pose proof (ext_execution_length _ _ _ H12). specialize (Hk3 e Hin). lia.
  - intros t tm Ht.
    destruct (ext_timer _ _ _ H12 _ _ Ht) as (tm2 & Ht2 & ? & ?).
    destruct (ext_timer _ _ _ H23 _ _ Ht2) as (tm3 & Ht3 & ? & ?).
    exists tm3. repeat split; [done|congruence|auto].
  - etrans; [apply (ext_trace _ _ _ H12)|apply (ext_trace _ _ _ H23)].
Qed.

#[export] Instance extends_preorder P : PreOrder (extends P).
Proof. split; [exact (extends_refl P)|exact (extends_trans P)]. Qed.

(** Allowing more executions to be written is weaker. *)
Lemma extends_weaken (P Q : ref → Prop) s s' :
  (∀ e, P e → Q e) → extends P s s' → extends Q s s'.
Proof. intros HPQ [? ? ? Hfr ? ? ?]. split; try done. intros e x HQ. auto. Qed.

(** A state that differs from [s] only in the emitter's own fields and in
    the list of suspended activations extends [s]. *)
Lemma extends_same_stores P s s' :
  event_heap s' = event_heap s → execution_heap s' = execution_heap s →
  array_heap s' = array_heap s → timers s' = timers s →
  trace s `prefix_of` trace s' → extends P s s'.
Proof.
  intros He Hx Ha Ht Htr.
  destruct (extends_refl P s) as [? ? ? ? ? ? _].
  split; rewrite ?He, ?Hx, ?Ha, ?Ht; done.
Qed.

Lemma extends_set_events P f s : extends P s (set_events f s).
Proof. by apply extends_same_stores. Qed.

Lemma extends_set_eventIds P f s : extends P s (set_eventIds f s).
Proof. by apply extends_same_stores. Qed.

Lemma extends_set_awaiting P f s : extends P s (set_awaiting f s).
Proof. by apply extends_same_stores. Qed.

Lemma extends_log P o s : extends P s (log o s).
Proof. apply extends_same_stores; try done. by apply prefix_app_r. Qed.

Lemma extends_update_event P r f s :
  (∀ ev, eventName (f ev) = eventName ev ∧ eventId (f ev) = eventId ev ∧
         (executionCounter ev ≤ executionCounter (f ev))%Z) →
  extends P s (update_event r f s).
Proof.
  intros Hf. destruct (extends_refl P s) as [? _ ? ? ? ? ?].
  split; try done. simpl. intros r' ev Hr'.
  destruct (decide (r = r')) as [->|Hne].
  - exists (f ev). rewrite list_lookup_alter_eq, Hr'. split; [done|apply Hf].
  - exists ev. rewrite list_lookup_alter_ne by done. repeat split; [done|lia].
Qed.

Lemma extends_update_execution (P : ref → Prop) e f s :
  P e →
  (∀ x, eventInstance (f x) = eventInstance x ∧
        executionId (f x) = executionId x ∧
        parameters (f x) = parameters x ∧
        callbackFunction (f x) = callbackFunction x ∧
        expirationTimeout (state (f x)) = expirationTimeout (state x)) →
  extends P s (update_execution e f s).
Proof.
  intros HP Hf. destruct (extends_refl P s) as [? ? _ _ ? ? ?].
  split; try done; simpl.
  - by rewrite length_alter.
  - intros e' x He'. destruct (decide (e = e')) as [->|Hne].
    + exists (f x). rewrite list_lookup_alter_eq, He'. split; [done|apply Hf].
    + exists x. by rewrite list_lookup_alter_ne.
  - intros e' x HnP He'. rewrite list_lookup_alter_ne; [done|].
    by intros ->.
Qed.

Lemma extends_alloc_array P l s :
  extends P s (set_array_heap (λ h, h ++ [l]) s).
Proof.
  destruct (extends_refl P s) as [? ? ? ? _ ? ?].
  split; try done; simpl. intros a l' Ha. exists [].
  rewrite app_nil_r. split; [by apply lookup_app_l_Some|].
  intros ? []%elem_of_nil.
Qed.

Lemma extends_alloc_event P ev s :
  extends P s (set_event_heap (λ h, h ++ [ev]) s).
Proof.
  destruct (extends_refl P s) as [? _ ? ? ? ? ?].
  split; try done; simpl. intros r ev' Hr. exists ev'.
  split; [by apply lookup_app_l_Some|]. repeat split; lia.
Qed.

Lemma extends_alloc_execution P x s :
  extends P s (set_execution_heap (λ h, h ++ [x]) s).
Proof.
  destruct (extends_refl P s) as [? ? _ _ ? ? ?].
  split; try done; simpl.
  - rewrite length_app. lia.
  - intros e x' He. exists x'. split; [by apply lookup_app_l_Some|done].
  - intros e x' _ He. by apply lookup_app_l_Some.
Qed.

Lemma extends_alloc_timers P ts s :
  extends P s (set_timers (λ h, h ++ ts) s).
Proof.
  destruct (extends_refl P s) as [? ? ? ? ? _ ?].
  split; try done; simpl. intros t tm Ht. exists tm.
  split; [by apply lookup_app_l_Some|done].
Qed.

Lemma extends_clearTimeout P id s : extends P s (clearTimeout id s).
Proof.
  unfold clearTimeout. destruct (0 <? id)%Z; [|reflexivity].
  destruct (extends_refl P s) as [? ? ? ? ? _ ?].
  split; try done; simpl. intros t tm Ht.
  destruct (decide (timer_index id = t)) as [->|Hne].
  - eexists. rewrite list_lookup_alter_eq, Ht. simpl. done.
  - exists tm. by rewrite list_lookup_alter_ne.
Qed.

(** [push] of an execution allocated after [s0]. *)
Lemma extends_push P s0 s a e :
  extends P s0 s → length (execution_heap s0) ≤ e →
  extends P s0 (set_array_heap (alter (λ l, l ++ [e]) a) s).
Proof.
  intros [? ? ? ? Harr ? ?] He. split; try done; simpl.
  intros a' l Ha'. destruct (Harr _ _ Ha') as (k & Hk & Hfresh).
  destruct (decide (a = a')) as [->|Hne].
  - exists (k ++ [e]). rewrite list_lookup_alter_eq, Hk. simpl.
    rewrite app_assoc. split; [done|].
    intros e' [?|Hx]%elem_of_app; [auto|].
    apply list_elem_of_singleton in Hx. by subst.
  - exists k. by rewrite list_lookup_alter_ne.
Qed.

(** ** What the constructors and methods do to the stores *)

(** The constructor of [Execution] adds one object and at most one timer. *)
Lemma Execution_new_spec event id cb params s :
  ∃ x ts,
    Execution_new event id cb params s
    = (length (execution_heap s),
       set_timers (λ h, h ++ ts) (set_execution_heap (λ h, h ++ [x]) s)) ∧
    eventInstance x = event ∧ executionId x = id ∧ callbackFunction x = cb ∧
    isExecuting (state x) = false ∧ hasExecuted (state x) = false ∧
    removeAfterExecute (parameters x)
      = default false (params ≫= ExecutionParameters.removeAfterExecute) ∧
    onlyOneExecutionAtATime (parameters x)
      = default false (params ≫= ExecutionParameters.onlyOneInstance) ∧
    match params ≫= ExecutionParameters.expireAfterMs with
    | Some ex =>
        ts = [{| timer_owner := length (execution_heap s);
                 timer_pending := true |}] ∧
        expirationTimeout (state x) = timer_id (length (timers s)) ∧
        exp_callback (expirationCallback (parameters x))
          = Some (EventExpiration.callback ex)
    | None => ts = [] ∧ expirationTimeout (state x) = (-1)%Z
    end.
Proof.
  destruct s as [evs ids eh xh ah tms aw tr].
  destruct params as [[ra ex oo]|]; simpl.
  2:{ eexists _, []. unfold Execution_new, set_timers, set_execution_heap.
      simpl. rewrite app_nil_r. split; [reflexivity|done]. }
  unfold Execution_new, activateAutomaticCancellation, setTimeout,
    update_execution, set_timers, set_execution_heap; simpl.
  destruct ra as [ra|], oo as [oo|], ex as [ex|]; simpl;
    rewrite ?alter_snoc; simpl;
    first [ by eexists _, [_]; split; [reflexivity|]
          | by eexists _, []; rewrite app_nil_r; split; [reflexivity|] ].
Qed.

Lemma extends_Execution_new P event id cb params s :
  extends P s (snd (Execution_new event id cb params s)).
Proof.
  destruct (Execution_new_spec event id cb params s) as (x & ts & -> & _).
  simpl. etrans; [apply extends_alloc_execution|apply extends_alloc_timers].
Qed.

Lemma Execution_new_fst event id cb params s :
  fst (Execution_new event id cb params s) = length (execution_heap s).
Proof.
  by destruct (Execution_new_spec event id cb params s) as (x & ts & -> & _).
Qed.

Lemma extends_Event_addExecution P r cb params s :
  extends P s (snd (Event_addExecution r cb params s)).
Proof.
  unfold Event_addExecution.
  pose proof (extends_Execution_new P r (executionCounter (event_at s r))
                cb params s) as Hnew.
  pose proof (Execution_new_fst r (executionCounter (event_at s r))
                cb params s) as Hfst.
  destruct (Execution_new _ _ _ _ _) as [e s1]. simpl in *. subst e.
  etrans; [by apply extends_push|].
  apply extends_update_event. intros ev; simpl. repeat split; lia.
Qed.

Lemma extends_Event_new P name id s :
  extends P s (snd (Event_new name id s)).
Proof.
  unfold Event_new; simpl.
  etrans; [apply extends_alloc_array|apply extends_alloc_event].
Qed.

Lemma extends_Event_removeExecution P r id s :
  extends P s (Event_removeExecution r id s).
Proof.
  unfold Event_removeExecution.
  etrans; [apply extends_alloc_array|].
  apply extends_update_event. intros ev; simpl. repeat split; lia.
Qed.

Lemma extends_stopAutomaticCancellation P e s :
  extends P s (stopAutomaticCancellation e s).
Proof.
  unfold stopAutomaticCancellation.
  destruct (_ =? _)%Z; [reflexivity|apply extends_clearTimeout].
Qed.

Lemma extends_Execution_cancel P e s : extends P s (Execution_cancel e s).
Proof.
  unfold Execution_cancel.
  etrans; [apply extends_stopAutomaticCancellation|].
  apply extends_Event_removeExecution.
Qed.

Lemma extends_addEvent P name cb params s :
  extends P s (snd (addEvent name cb params s)).
Proof.
  unfold addEvent. destruct (find_event s name) as [r|].
  - pose proof (extends_Event_addExecution P r cb params s) as H.
    by destruct (Event_addExecution _ _ _ _) as [i s1].
  - pose proof (extends_Event_new P name (eventIds s)
                  (set_eventIds (λ n, (n + 1)%Z) s)) as Hnew.
    destruct (Event_new _ _ _) as [r s1]. simpl in Hnew.
    pose proof (extends_Event_addExecution P r cb params
      (set_events (λ l, l ++ [r]) (set_eventIds (λ n, (n + 1)%Z) s1))) as H.
    destruct (Event_addExecution _ _ _ _) as [i s2]. simpl in *.
    etrans; [apply extends_set_eventIds|]. etrans; [exact Hnew|].
    etrans; [apply extends_set_eventIds|]. etrans; [apply extends_set_events|].
    exact H.
Qed.

Lemma extends_removeEvent P name s : extends P s (removeEvent name s).
Proof. apply extends_set_events. Qed.

Lemma extends_removeExecution P name id s :
  extends P s (removeExecution name id s).
Proof.
  unfold removeExecution. destruct (find_event s name) as [r|]; [|reflexivity].
  destruct (Nat.eqb _ 0).
  - etrans; [apply extends_Event_removeExecution|apply extends_set_events].
  - apply extends_Event_removeExecution.
Qed.

Lemma extends_removeAllEvents P s : extends P s (removeAllEvents s).
Proof. apply extends_set_events. Qed.

Lemma extends_run_call P c s : extends P s (run_call c s).
Proof.
  destruct c; simpl;
    auto using extends_addEvent, extends_removeEvent,
      extends_removeExecution, extends_removeAllEvents.
Qed.

Lemma extends_run_calls P cs s : extends P s (run_calls cs s).
Proof.
  revert s. induction cs as [|c cs IH]; intros s; simpl; [reflexivity|].
  etrans; [apply extends_run_call|apply IH].
Qed.

Section DispatchExtends.

Variable user : callback → list value → State → Behaviour.

Lemma extends_call_user P cb args s :
  extends P s (snd (call_user user cb args s)).
Proof. apply extends_run_calls. Qed.

Lemma extends_Execution_afterRun (P : ref → Prop) e s :
  P e → extends P s (Execution_afterRun e s).
Proof.
  intros HP. unfold Execution_afterRun.
  set (s1 := update_execution e (set_isExecuting false) s).
  set (s2 := update_execution e (set_hasExecuted true) s1).
  assert (extends P s s2) as H12.
  { etrans; by apply extends_update_execution. }
  destruct (removeAfterExecute _); [|done].
  etrans; [done|apply extends_Execution_cancel].
Qed.

Lemma extends_Execution_execute (P : ref → Prop) e args s :
  P e → extends P s (snd (Execution_execute user e args s)).
Proof.
  intros HP. unfold Execution_execute.
  set (s1 := stopAutomaticCancellation e s).
  assert (extends P s s1) as H1 by apply extends_stopAutomaticCancellation.
  destruct (_ && _); [done|].
  set (s2 := update_execution e (set_isExecuting true) s1).
  assert (extends P s1 s2) as H2 by by apply extends_update_execution.
  set (cb := callbackFunction (execution_at s2 e)).
  set (s3 := log (Invoked e cb args) s2).
  pose proof (extends_call_user P cb args s3) as H4.
  destruct (call_user user cb args s3) as [[] s4]; simpl in *.
  - etrans; [exact H1|]. etrans; [exact H2|]. etrans; [apply extends_log|].
    etrans; [exact H4|apply extends_set_awaiting].
  - etrans; [exact H1|]. etrans; [exact H2|]. etrans; [apply extends_log|].
    etrans; [exact H4|by apply extends_Execution_afterRun].
Qed.

Lemma extends_forEach P f a k n s :
  (∀ x s, extends P s (snd (f x s))) →
  extends P s (snd (forEach f a k n s)).
Proof.
  intros Hf. revert k s. induction n as [|n IH]; intros k s; simpl;
    [reflexivity|].
  destruct (array_at s a !! k) as [x|]; [|apply IH].
  pose proof (Hf x s) as Hx. destruct (f x s) as [[] s1]; simpl in *;
    [|done].
  etrans; [done|apply IH].
Qed.

Lemma extends_Event_execute r args s :
  extends (λ _, True) s (snd (Event_execute user r args s)).
Proof.
  apply extends_forEach. intros. by apply extends_Execution_execute.
Qed.

Lemma extends_emitEvent name args s :
  extends (λ _, True) s (snd (emitEvent user name args s)).
Proof.
  unfold emitEvent. destruct (find_event s name); [|reflexivity].
  apply extends_Event_execute.
Qed.

Lemma extends_expiration_closure (P : ref → Prop) e s :
  extends P s (snd (expiration_closure user e s)).
Proof.
  unfold expiration_closure.
  set (cb := exp_callback _). set (s1 := log (Expired e cb) s).
  assert (extends P s s1) as H1 by apply extends_log.
  destruct cb as [f|].
  - pose proof (extends_call_user P f [] s1) as H2.
    destruct (call_user user f [] s1) as [[] s2]; simpl in *.
    + etrans; [exact H1|]. etrans; [exact H2|].
      apply extends_Execution_cancel.
    + by etrans.
  - etrans; [done|apply extends_Execution_cancel].
Qed.

Lemma extends_fire_timer P t s :
  extends P s (snd (fire_timer user t s)).
Proof.
  unfold fire_timer. destruct (timers s !! t) as [tm|] eqn:Ht; [|reflexivity].
  destruct (timer_pending tm); [|reflexivity].
  etrans; [|apply extends_expiration_closure].
  destruct (extends_refl P s) as [? ? ? ? ? _ ?].
  split; try done; simpl. intros t' tm' Ht'.
  destruct (decide (t = t')) as [->|Hne].
  - eexists. rewrite list_lookup_alter_eq, Ht'. simpl. done.
  - exists tm'. by rewrite list_lookup_alter_ne.
Qed.

Lemma extends_resume k s : extends (λ _, True) s (resume k s).
Proof.
  unfold resume. destruct (awaiting s !! k); [|reflexivity].
  etrans; [apply extends_set_awaiting|by apply extends_Execution_afterRun].
Qed.

Lemma extends_step o s : extends (λ _, True) s (snd (step user o s)).
Proof.
  destruct o; simpl;
    auto using extends_run_call, extends_emitEvent, extends_fire_timer,
      extends_resume.
Qed.

Lemma extends_run os s : extends (λ _, True) s (run user os s).
Proof.
  revert s. induction os as [|o os IH]; intros s; simpl; [reflexivity|].
  etrans; [apply extends_step|apply IH].
Qed.

End DispatchExtends.

(** ** The trace is written by callbacks only *)

Lemma trace_Execution_new event id cb params s :
  trace (snd (Execution_new event id cb params s)) = trace s.
Proof.
  by destruct (Execution_new_spec event id cb params s) as (x & ts & -> & _).
Qed.

Lemma trace_Event_addExecution r cb params s :
  trace (snd (Event_addExecution r cb params s)) = trace s.
Proof.
  unfold Event_addExecution.
  pose proof (trace_Execution_new r (executionCounter (event_at s r))
                cb params s) as H.
  by destruct (Execution_new _ _ _ _ _) as [e s1].
Qed.

Lemma trace_stopAutomaticCancellation e s :
  trace (stopAutomaticCancellation e s) = trace s.
Proof.
  unfold stopAutomaticCancellation, clearTimeout.
  destruct (_ =? _)%Z; [done|]. by destruct (0 <? _)%Z.
Qed.

Lemma trace_Execution_cancel e s : trace (Execution_cancel e s) = trace s.
Proof. apply trace_stopAutomaticCancellation. Qed.

Lemma trace_addEvent name cb params s :
  trace (snd (addEvent name cb params s)) = trace s.
Proof.
  unfold addEvent. destruct (find_event s name) as [r|].
  - pose proof (trace_Event_addExecution r cb params s) as H.
    by destruct (Event_addExecution _ _ _ _) as [i s1].
  - simpl.
    pose proof (trace_Event_addExecution (length (event_heap s)) cb params
      (set_events (λ l, l ++ [length (event_heap s)])
        (set_eventIds (λ n, (n + 1)%Z)
          (snd (Event_new name (eventIds s)
                  (set_eventIds (λ n, (n + 1)%Z) s)))))) as H.
    simpl in H. by destruct (Event_addExecution _ _ _ _) as [i s2].
Qed.

Lemma trace_removeExecution name id s :
  trace (removeExecution name id s) = trace s.
Proof.
  unfold removeExecution. destruct (find_event s name); [|done].
  by destruct (Nat.eqb _ 0).
Qed.

Lemma trace_run_call c s : trace (run_call c s) = trace s.
Proof.
  destruct c; simpl; auto using trace_addEvent, trace_removeExecution.
Qed.

Lemma trace_run_calls cs s : trace (run_calls cs s) = trace s.
Proof.
  revert s. induction cs as [|c cs IH]; intros s; simpl; [done|].
  by rewrite IH, trace_run_call.
Qed.

Lemma trace_Execution_afterRun e s : trace (Execution_afterRun e s) = trace s.
Proof.
  unfold Execution_afterRun. destruct (removeAfterExecute _); [|done].
  by rewrite trace_Execution_cancel.
Qed.

Lemma execution_heap_stopAutomaticCancellation e s :
  execution_heap (stopAutomaticCancellation e s) = execution_heap s.
Proof.
  unfold stopAutomaticCancellation, clearTimeout.
  destruct (_ =? _)%Z; [done|]. by destruct (0 <? _)%Z.
Qed.

Lemma execution_at_stopAutomaticCancellation e e' s :
  execution_at (stopAutomaticCancellation e s) e' = execution_at s e'.
Proof.
  unfold execution_at. by rewrite execution_heap_stopAutomaticCancellation.
Qed.

(** When [f] keeps the field, so does [update_execution e f], whether or
    not [e] is allocated. *)
Lemma execution_at_update_execution {A} (g : Execution → A) e f s :
  (∀ x, g (f x) = g x) →
  g (execution_at (update_execution e f s) e) = g (execution_at s e).
Proof.
  intros Hf. unfold execution_at.
  change (execution_heap (update_execution e f s))
    with (alter f e (execution_heap s)).
  rewrite !list_lookup_total_alt, list_lookup_alter_eq.
  destruct (execution_heap s !! e) as [x|]; [exact (Hf x)|reflexivity].
Qed.

Section DispatchTrace.

Variable user : callback → list value → State → Behaviour.

(** [execute] never completes abruptly for its caller. *)
Lemma Execution_execute_Normal e args s :
  fst (Execution_execute user e args s) = Normal.
Proof.
  unfold Execution_execute. destruct (_ && _); [done|].
  by destruct (call_user _ _ _ _) as [[] ?].
Qed.

(** One trigger calls the callback at most once, with the arguments of
    the trigger, and exactly once unless the guard drops the trigger. *)
Lemma trace_Execution_execute e args s :
  trace (snd (Execution_execute user e args s))
  = trace s ++
    if dropped s e then []
    else [Invoked e (callbackFunction (execution_at s e)) args].
Proof.
  unfold Execution_execute, dropped.
  rewrite !execution_at_stopAutomaticCancellation.
  destruct (_ && _); simpl.
  { by rewrite trace_stopAutomaticCancellation, app_nil_r. }
  rewrite (execution_at_update_execution callbackFunction),
    execution_at_stopAutomaticCancellation by done.
  unfold call_user. destruct (throws _); simpl.
  - by rewrite trace_Execution_afterRun, trace_run_calls; simpl;
      rewrite trace_stopAutomaticCancellation.
  - by rewrite trace_run_calls; simpl; rewrite trace_stopAutomaticCancellation.
Qed.

End DispatchTrace.

(** ** The fan-out iterates over the array as it was at its start *)

Section Snapshot.

Variable user : callback → list value → State → Behaviour.

(** [forEach] on an array object that only grows while the loop runs
    calls [f] on the elements the array had at the start, each once and
    in the order of the array. *)
Lemma forEach_snapshot P f a :
  (∀ x s, fst (f x s) = Normal) →
  (∀ x s, extends P s (snd (f x s))) →
  ∀ n k s L, array_heap s !! a = Some L → k + n ≤ length L →
    forEach f a k n s
    = (Normal, fold_left (λ s x, snd (f x s)) (take n (drop k L)) s).
Proof.
  intros Hnormal Hext. induction n as [|n IH]; intros k s L Ha Hk; simpl.
  { done. }
  unfold array_at. rewrite (list_lookup_total_correct _ _ _ Ha).
  destruct (lookup_lt_is_Some_2 L k) as [x Hx]; [lia|]. rewrite Hx.
  rewrite (drop_S _ _ _ Hx). simpl.
  pose proof (Hnormal x s) as Hn. pose proof (Hext x s) as He.
  destruct (f x s) as [c s1]; simpl in *. subst c.
  destruct (ext_array _ _ _ He _ _ Ha) as (K & Ha1 & _).
  rewrite (IH (S k) s1 (L ++ K) Ha1) by (rewrite length_app; lia).
  by rewrite drop_app_le, take_app_le by (rewrite ?length_drop; lia).
Qed.

Lemma Event_execute_fold r args s :
  Event_execute user r args s
  = (Normal,
     fold_left (λ s e, snd (Execution_execute user e args s))
       (executions_of s r) s).
Proof.
  unfold Event_execute, executions_of, array_at.
  set (a := executions (event_at s r)).
  destruct (array_heap s !! a) as [L|] eqn:Ha.
  - rewrite (list_lookup_total_correct _ _ _ Ha).
    rewrite (forEach_snapshot (λ _, True) _ a) with (L := L); try done.
    + by rewrite drop_0, firstn_all.
    + intros. apply Execution_execute_Normal.
    + intros. by apply extends_Execution_execute.
  - rewrite list_lookup_total_alt, Ha. done.
Qed.

End Snapshot.

Lemma wf_store_initial : wf_store [] [] [] [].
Proof.
  split; simpl; try done.
  by intros r ?%elem_of_nil.
Qed.

(** The emitter's list of events lost events. *)
Lemma wf_store_events evs evs' eh ah xh :
  wf_store evs eh ah xh → evs' ⊆ evs → wf_store evs' eh ah xh.
Proof. intros [] Hev. split; auto. Qed.

(** Fields of an execution other than its event were written. *)
Lemma wf_store_update_execution evs eh ah xh e f :
  wf_store evs eh ah xh → (∀ x, eventInstance (f x) = eventInstance x) →
  wf_store evs eh ah (alter f e xh).
Proof.
  intros [H1 H2 H3 H4 H5 H6 H7] Hf. split; simpl; auto.
  - intros a l e' Ha He'. rewrite length_alter. eauto.
  - intros r ev l e' x Hr Ha He' Hx.
    rewrite list_lookup_alter in Hx. destruct (decide (e = e')) as [->|]; eauto.
    destruct (xh !! e') as [x0|] eqn:Hx0; simplify_eq/=.
    rewrite Hf. eauto.
  - intros e' x Hx.
    rewrite list_lookup_alter in Hx. destruct (decide (e = e')) as [->|]; eauto.
    destruct (xh !! e') as [x0|] eqn:Hx0; simplify_eq/=.
    rewrite Hf. eauto.
Qed.

(** Fields of an event other than its array were written. *)
Lemma wf_store_update_event evs eh ah xh r f :
  wf_store evs eh ah xh → (∀ ev, executions (f ev) = executions ev) →
  wf_store evs (alter f r eh) ah xh.
Proof.
  intros [H1 H2 H3 H4 H5 H6 H7] Hf.
  assert (∀ r' ev', alter f r eh !! r' = Some ev' →
    ∃ ev, eh !! r' = Some ev ∧ executions ev' = executions ev) as Hback.
  { intros r' ev'. rewrite list_lookup_alter.
    destruct (decide (r = r')) as [->|]; [|by eauto].
    destruct (eh !! r') as [ev|]; intros; simplify_eq/=; eauto. }
  split; rewrite ?length_alter; auto.
  - intros r' ev' (ev & Hr' & ->)%Hback. eauto.
  - intros r1 r2 ev1 ev2 (e1 & Hr1 & ->)%Hback (e2 & Hr2 & ->)%Hback. eauto.
  - intros r' ev' l e x' (ev & Hr' & ->)%Hback. eauto.
Qed.

(** A new execution of the allocated event [r] was created and pushed on
    the array of [r]. *)
Lemma wf_store_push evs eh ah xh r x :
  wf_store evs eh ah xh → r < length eh → eventInstance x = r →
  wf_store evs eh
    (alter (λ l, l ++ [length xh]) (executions (eh !!! r)) ah) (xh ++ [x]).
Proof.
  intros [H1 H2 H3 H4 H5 H6 H7] Hr Hxr.
  destruct (lookup_lt_is_Some_2 _ _ Hr) as [ev0 Hev0].
  rewrite (list_lookup_total_correct _ _ _ Hev0).
  split; auto.
  - intros r' ev' Hr'. rewrite length_alter. eauto.
  - intros a l e. rewrite list_lookup_alter, length_app. simpl.
    destruct (decide (executions ev0 = a)) as [<-|].
    + destruct (ah !! executions ev0) as [l0|] eqn:Hl0; [|done].
      intros [= <-] [Hin|Hin]%elem_of_app.
      * specialize (H4 _ _ _ Hl0 Hin). lia.
      * apply list_elem_of_singleton in Hin. lia.
    + intros Hl Hin. specialize (H4 _ _ _ Hl Hin). lia.
  - intros a l. rewrite list_lookup_alter.
    destruct (decide (executions ev0 = a)) as [<-|]; [|by eauto].
    destruct (ah !! executions ev0) as [l0|] eqn:Hl0; [|done].
    intros [= <-]. apply NoDup_app. split; [eauto|].
    split; [|apply NoDup_singleton].
    intros e Hin ->%list_elem_of_singleton.
    specialize (H4 _ _ _ Hl0 Hin). lia.
  - intros r' ev l e x' Hr'. rewrite list_lookup_alter.
    destruct (decide (executions ev0 = executions ev)) as [Heq|Hne].
    + assert (r = r') as <- by eauto.
      destruct (ah !! executions ev0) as [l0|] eqn:Hl0; [|done].
      intros [= <-] [Hin|Hin]%elem_of_app.
      * intros Hx'. rewrite lookup_app_l in Hx' by eauto. eauto.
      * apply list_elem_of_singleton in Hin. subst e.
        rewrite list_lookup_middle by done. by intros [= <-].
    + intros Hl Hin Hx'. rewrite lookup_app_l in Hx' by eauto. eauto.
  - intros e x' Hx'.
    apply lookup_app_Some in Hx' as [?|[_ Hx']]; [eauto|].
    destruct (e - _); simplify_eq/=. done.
Qed.

Lemma elem_of_lookup_total_list (h : list (list ref)) a e :
  e ∈ h !!! a → ∃ l, h !! a = Some l ∧ e ∈ l.
Proof.
  rewrite list_lookup_total_alt. destruct (h !! a) as [l|]; simpl; [eauto|].
  by intros ?%elem_of_nil.
Qed.

(** The array of an event was replaced by a new array holding some of its
    executions. *)
Lemma wf_store_filter evs eh ah xh r kept :
  wf_store evs eh ah xh → kept `sublist_of` ah !!! executions (eh !!! r) →
  wf_store evs (alter (set_executions (length ah)) r eh) (ah ++ [kept]) xh.
Proof.
  intros [H1 H2 H3 H4 H5 H6 H7] Hkept.
  assert (∀ e, e ∈ kept → ∃ l, ah !! executions (eh !!! r) = Some l ∧ e ∈ l)
    as Hin.
  { intros e He. apply elem_of_lookup_total_list.
    by apply (sublist_subseteq _ _ Hkept). }
  assert (∀ r' ev', alter (set_executions (length ah)) r eh !! r' = Some ev' →
    (r' = r ∧ executions ev' = length ah ∧ is_Some (eh !! r)) ∨
    (r' ≠ r ∧ eh !! r' = Some ev')) as Hback.
  { intros r' ev'. rewrite list_lookup_alter.
    destruct (decide (r = r')) as [->|]; [|by eauto].
    destruct (eh !! r') as [ev|]; intros; simplify_eq/=; eauto. }
  split; rewrite ?length_alter, ?length_app; simpl; auto.
  - intros r' ev' [(-> & -> & _)|[_ Hr']]%Hback; [lia|].
    specialize (H2 _ _ Hr'). lia.
  - intros r1 r2 ev1 ev2 B1%Hback B2%Hback Heq.
    destruct B1 as [(-> & E1 & _)|[? Hr1]], B2 as [(-> & E2 & _)|[? Hr2]];
      [done| | |by eauto].
    + specialize (H2 _ _ Hr2). lia.
    + specialize (H2 _ _ Hr1). lia.
  - intros a l e [?|[_ Ha]]%lookup_app_Some; [eauto|].
    destruct (a - _); simplify_eq/=.
    intros (l0 & Hl & He)%Hin. eauto.
  - intros a l [?|[_ Ha]]%lookup_app_Some; [eauto|].
    destruct (a - _); simplify_eq/=.
    eapply sublist_NoDup; [|done].
    rewrite list_lookup_total_alt.
    destruct (ah !! _) eqn:?; simpl; [eauto|apply NoDup_nil_2].
  - intros r' ev' l e x [(-> & E & [ev Hr])|[? Hr']]%Hback.
    + rewrite E, list_lookup_middle by done. intros [= <-].
      intros (l0 & Hl & He)%Hin.
      rewrite (list_lookup_total_correct _ _ _ Hr) in Hl. eauto.
    + rewrite lookup_app_l by eauto. eauto.
Qed.

(** A fresh event with a fresh empty array was registered. *)
Lemma wf_store_new_event evs eh ah xh name id c :
  wf_store evs eh ah xh →
  wf_store (evs ++ [length eh])
    (eh ++ [{| eventName := name; eventId := id; executions := length ah;
               executionCounter := c |}]) (ah ++ [[]]) xh.
Proof.
  intros [H1 H2 H3 H4 H5 H6 H7].
  assert (∀ r' ev', (eh ++ [{| eventName := name; eventId := id;
      executions := length ah; executionCounter := c |}]) !! r' = Some ev' →
    (r' = length eh ∧ executions ev' = length ah) ∨ eh !! r' = Some ev')
    as Hback.
  { intros r' ev' [?|[? Hr']]%lookup_app_Some; [by right|left].
    destruct (r' - _) eqn:?; simplify_eq/=. split; [lia|done]. }
  split; rewrite ?length_app; simpl; auto.
  - intros r [?%H1|Hr]%elem_of_app; [lia|].
    apply list_elem_of_singleton in Hr. lia.
  - intros r' ev' [[-> ->]|Hr']%Hback; [lia|]. specialize (H2 _ _ Hr'). lia.
  - intros r1 r2 ev1 ev2 B1%Hback B2%Hback Heq.
    destruct B1 as [[-> E1]|Hr1], B2 as [[-> E2]|Hr2]; [done| | |by eauto].
    + specialize (H2 _ _ Hr2). lia.
    + specialize (H2 _ _ Hr1). lia.
  - intros a l e [?|[_ Ha]]%lookup_app_Some; [eauto|].
    destruct (a - _); simplify_eq/=. by intros ?%elem_of_nil.
  - intros a l [?|[_ Ha]]%lookup_app_Some; [eauto|].
    destruct (a - _); simplify_eq/=. apply NoDup_nil_2.
  - intros r' ev' l e x [[-> E]|Hr']%Hback.
    + rewrite E, list_lookup_middle by done. by intros [= <-] ?%elem_of_nil.
    + rewrite lookup_app_l by eauto. eauto.
  - intros e x Hx. specialize (H7 _ _ Hx). lia.
Qed.

Lemma pending_in_app ts k id :
  (id ≤ Z.of_nat (length ts))%Z → pending_in (ts ++ k) id = pending_in ts id.
Proof.
  intros Hid. unfold pending_in. destruct (0 <? id)%Z eqn:Hpos; [|done].
  apply Z.ltb_lt in Hpos. simpl.
  rewrite lookup_app_l; [done|]. unfold timer_index. lia.
Qed.

Lemma pending_in_disarm ts t id :
  pending_in ts id = false → pending_in (alter disarm t ts) id = false.
Proof.
  unfold pending_in. destruct (0 <? id)%Z; [|done]. simpl.
  rewrite list_lookup_alter. destruct (decide (t = timer_index id)) as [->|];
    [|done].
  by destruct (ts !! timer_index id).
Qed.

Lemma wf_timers_initial : wf_timers [] [].
Proof. by split. Qed.

Lemma wf_timers_disarm xh ts t :
  wf_timers xh ts → wf_timers xh (alter disarm t ts).
Proof.
  intros [H1 H2 H3 H4]. split; rewrite ?length_alter; auto.
  - intros e x Hx Hrun. apply pending_in_disarm. eauto.
  - intros t' tm. rewrite list_lookup_alter.
    destruct (decide (t = t')) as [->|]; [|by eauto].
    destruct (ts !! t') as [tm0|] eqn:?; intros; simplify_eq/=. eauto.
  - intros t' tm x. rewrite list_lookup_alter.
    destruct (decide (t = t')) as [->|]; [|by eauto].
    destruct (ts !! t') as [tm0|] eqn:?; intros; simplify_eq/=.
Qed.

Lemma wf_timers_update_execution xh ts e f :
  wf_timers xh ts →
  (∀ x, expirationTimeout (state (f x)) = expirationTimeout (state x)) →
  (∀ x, xh !! e = Some x → isExecuting (state (f x)) = true →
        isExecuting (state x) = true ∨
        pending_in ts (expirationTimeout (state x)) = false) →
  wf_timers (alter f e xh) ts.
Proof.
  intros [H1 H2 H3 H4] Hf Hrun.
  assert (∀ e' x', alter f e xh !! e' = Some x' →
    ∃ x, xh !! e' = Some x ∧
      expirationTimeout (state x') = expirationTimeout (state x) ∧
      (isExecuting (state x') = true →
        pending_in ts (expirationTimeout (state x)) = false)) as Hback.
  { intros e' x'. rewrite list_lookup_alter.
    destruct (decide (e = e')) as [->|]; [|by eauto 10].
    destruct (xh !! e') as [x|] eqn:Hx; intros; simplify_eq/=.
    exists x. repeat split; [done|]. intros [|]%Hrun; eauto. }
  split; rewrite ?length_alter; auto.
  - intros e' x' (x & Hx & -> & _)%Hback. eauto.
  - intros e' x' (x & Hx & -> & Hp)%Hback. auto.
  - intros t tm x' Ht Hp (x & Hx & -> & _)%Hback. eauto.
Qed.

Lemma wf_timers_new_execution xh ts x k :
  wf_timers xh ts → isExecuting (state x) = false →
  (k = [] ∧ expirationTimeout (state x) = (-1)%Z ∨
   k = [{| timer_owner := length xh; timer_pending := true |}] ∧
   expirationTimeout (state x) = timer_id (length ts)) →
  wf_timers (xh ++ [x]) (ts ++ k).
Proof.
  intros [H1 H2 H3 H4] Hx Hk.
  assert (∀ e' x', (xh ++ [x]) !! e' = Some x' →
    xh !! e' = Some x' ∨ (e' = length xh ∧ x' = x)) as Hback.
  { intros e' x' [?|[? He']]%lookup_app_Some; [by left|right].
    destruct (e' - _) eqn:?; simplify_eq/=. split; [lia|done]. }
  assert (∀ t tm, (ts ++ k) !! t = Some tm →
    ts !! t = Some tm ∨
    (t = length ts ∧ timer_owner tm = length xh ∧
     expirationTimeout (state x) = timer_id (length ts))) as Htback.
  { intros t tm [?|[? Ht]]%lookup_app_Some; [by left|right].
    destruct Hk as [[-> _]|[-> ?]]; [done|].
    destruct (t - _) eqn:?; simplify_eq/=. repeat split; [lia|done]. }
  split; rewrite ?length_app.
  - intros e' x' [Hx'| [-> ->]]%Hback.
    + specialize (H1 _ _ Hx'). lia.
    + unfold timer_id in *. destruct Hk as [[-> ->]|[-> ->]]; simpl; lia.
  - intros e' x' [Hx'| [-> ->]]%Hback Hrun; [|congruence].
    rewrite pending_in_app; eauto.
  - intros t tm [Ht|(-> & -> & _)]%Htback; [|simpl; lia].
    specialize (H3 _ _ Ht). lia.
  - intros t tm x' [Ht|(-> & Ho & E)]%Htback Hp.
    + rewrite lookup_app_l by eauto. eauto.
    + rewrite Ho, list_lookup_middle by done. by intros [= <-].
Qed.

Lemma wf_trace_initial : wf_trace [] [] [].
Proof. split; intros; auto. Qed.

Lemma disarmed_in_disarm ts t e :
  disarmed_in ts e → disarmed_in (alter disarm t ts) e.
Proof.
  intros H t' tm. rewrite list_lookup_alter.
  destruct (decide (t = t')) as [->|]; [|by eauto].
  destruct (ts !! t') as [tm0|] eqn:?; intros; simplify_eq/=. done.
Qed.

Lemma wf_trace_disarm xh ts tr t :
  wf_trace xh ts tr → wf_trace xh (alter disarm t ts) tr.
Proof.
  intros [H1 H2]. split; [done|]. intros e.
  destruct (H2 e) as [?|[? ?]]; [by left|right].
  split; [done|by apply disarmed_in_disarm].
Qed.

Lemma wf_trace_update_execution xh ts tr e f :
  wf_trace xh ts tr → wf_trace (alter f e xh) ts tr.
Proof. intros [H1 H2]. split; [|done]. by rewrite length_alter. Qed.

Lemma wf_trace_new_execution xh ts tr x k :
  wf_trace xh ts tr →
  (∀ tm, tm ∈ k → timer_owner tm = length xh) →
  wf_trace (xh ++ [x]) (ts ++ k) tr.
Proof.
  intros [H1 H2] Hk. split.
  - intros e. rewrite length_app. intros ?. apply H1. lia.
  - intros e. destruct (H2 e) as [?|[Hlen Hd]]; [by left|right].
    split; [done|]. intros t tm [?|[? Ht]]%lookup_app_Some; [by eauto|].
    intros <-. apply list_elem_of_lookup_2, Hk in Ht.
    assert (length xh ≤ timer_owner tm) as Hge by lia.
    apply H1 in Hge. rewrite Hge in Hlen. done.
Qed.

Lemma expirations_in_snoc tr e o :
  expirations_in (tr ++ [o]) e
  = expirations_in tr e ++ if expired_of e o then [o] else [].
Proof.
  unfold expirations_in. rewrite List.filter_app. simpl.
  by destruct (expired_of e o).
Qed.

Lemma wf_trace_log_Invoked xh ts tr e cb args :
  wf_trace xh ts tr → wf_trace xh ts (tr ++ [Invoked e cb args]).
Proof.
  intros [H1 H2].
  split; intros e'; rewrite expirations_in_snoc; simpl; rewrite app_nil_r;
    auto.
Qed.

Lemma wf_trace_log_Expired xh ts tr e cb :
  wf_trace xh ts tr → e < length xh →
  expirations_in tr e = [] → disarmed_in ts e →
  wf_trace xh ts (tr ++ [Expired e cb]).
Proof.
  intros [H1 H2] He Hnone Hd.
  split; intros e'; rewrite expirations_in_snoc; simpl.
  - intros Hge. destruct (Nat.eqb_spec e' e) as [->|]; [lia|].
    rewrite app_nil_r. auto.
  - destruct (Nat.eqb_spec e' e) as [->|].
    + right. rewrite Hnone. done.
    + rewrite app_nil_r. auto.
Qed.

Lemma wf_retired_update_execution D eh ah xh e f :
  wf_retired D eh ah xh → wf_retired D eh ah (alter f e xh).
Proof. intros [H1 H2]. split; [|done]. by rewrite length_alter. Qed.

Lemma wf_retired_update_event D eh ah xh r f :
  wf_retired D eh ah xh → (∀ ev, executions (f ev) = executions ev) →
  wf_retired D (alter f r eh) ah xh.
Proof.
  intros [H1 H2] Hf. split; [done|]. intros r' ev' l e.
  rewrite list_lookup_alter. destruct (decide (r = r')) as [->|]; [|by eauto].
  destruct (eh !! r') as [ev|] eqn:?; intros; simplify_eq/=.
  rewrite Hf in *. eauto.
Qed.

Lemma wf_retired_push D eh ah xh a x :
  wf_retired D eh ah xh →
  wf_retired D eh (alter (λ l, l ++ [length xh]) a ah) (xh ++ [x]).
Proof.
  intros [H1 H2]. split.
  - intros e He%H1. rewrite length_app. lia.
  - intros r ev l e Hr. rewrite list_lookup_alter.
    destruct (decide (a = executions ev)) as [->|]; [|by eauto].
    destruct (ah !! executions ev) as [l0|] eqn:?; [|done].
    intros [= <-] [?|Hin]%elem_of_app; [by eauto|].
    apply list_elem_of_singleton in Hin. subst e.
    intros He%H1. lia.
Qed.

Lemma wf_retired_filter D evs eh ah xh r kept :
  wf_store evs eh ah xh → wf_retired D eh ah xh →
  kept `sublist_of` ah !!! executions (eh !!! r) →
  wf_retired D (alter (set_executions (length ah)) r eh) (ah ++ [kept]) xh.
Proof.
  intros Hs [H1 H2] Hkept. split; [done|]. intros r' ev' l e.
  rewrite list_lookup_alter. destruct (decide (r = r')) as [->|].
  - destruct (eh !! r') as [ev|] eqn:Hev; [|done]. intros [= <-]. simpl.
    rewrite list_lookup_middle by done. intros [= <-] He.
    apply (sublist_subseteq _ _ Hkept), elem_of_lookup_total_list in He
      as (l & Hl & He).
    rewrite (list_lookup_total_correct _ _ _ Hev) in Hl. eauto.
  - intros Hr'. rewrite lookup_app_l by (by eapply wf_event_array). eauto.
Qed.

Lemma wf_retired_new_event D eh ah xh ev :
  wf_store [] eh ah xh → wf_retired D eh ah xh → executions ev = length ah →
  wf_retired D (eh ++ [ev]) (ah ++ [[]]) xh.
Proof.
  intros Hs [H1 H2] Hev. split; [done|]. intros r' ev' l e.
  intros [Hr'|[_ Hr']]%lookup_app_Some.
  - rewrite lookup_app_l by (by eapply wf_event_array). eauto.
  - destruct (r' - _); simplify_eq/=.
    rewrite Hev, list_lookup_middle by done. by intros [= <-] ?%elem_of_nil.
Qed.

Lemma wf_disarmed_disarm T xh ts t :
  wf_disarmed T xh ts → wf_disarmed T xh (alter disarm t ts).
Proof.
  intros [H1 H2]. split; [done|]. intros e He.
  by apply disarmed_in_disarm, H2.
Qed.

Lemma wf_disarmed_update_execution T xh ts e f :
  wf_disarmed T xh ts → wf_disarmed T (alter f e xh) ts.
Proof. intros [H1 H2]. split; [|done]. by rewrite length_alter. Qed.

Lemma wf_disarmed_new_execution T xh ts x k :
  wf_disarmed T xh ts → (∀ tm, tm ∈ k → timer_owner tm = length xh) →
  wf_disarmed T (xh ++ [x]) (ts ++ k).
Proof.
  intros [H1 H2] Hk. split.
  - intros e He%H1. rewrite length_app. lia.
  - intros e He t tm [?|[_ Ht]]%lookup_app_Some; [by eapply H2|].
    apply list_elem_of_lookup_2, Hk in Ht. apply H1 in He. lia.
Qed.

(** ** The ids of the executions of an event *)

Lemma StronglySorted_ext {A} (R R' : relation A) l :
  (∀ x y, x ∈ l → y ∈ l → R x y → R' x y) →
  StronglySorted R l → StronglySorted R' l.
Proof.
  intros HR Hl. induction Hl as [|x l Hl IH Hx]; constructor.
  - apply IH. intros y z Hy Hz. apply HR; by right.
  - rewrite Forall_forall in *. intros y Hy. apply HR; [by left|by right|].
    by apply Hx.
Qed.

Lemma StronglySorted_sublist {A} (R : relation A) l k :
  k `sublist_of` l → StronglySorted R l → StronglySorted R k.
Proof.
  intros Hk Hl. revert k Hk.
  induction Hl as [|x l Hl IH Hx]; intros k Hk.
  - apply sublist_nil_r in Hk. subst. constructor.
  - apply sublist_cons_r in Hk as [Hk|(k' & -> & Hk)]; [by apply IH|].
    constructor; [by apply IH|].
    rewrite Forall_forall in *. intros y Hy. apply Hx.
    by apply (sublist_subseteq _ _ Hk).
Qed.

Lemma executionId_alter (f : Execution → Execution) e
    (xh : list Execution) e' :
  (∀ x, executionId (f x) = executionId x) →
  executionId (alter f e xh !!! e') = executionId (xh !!! e').
Proof.
  intros Hf. rewrite !list_lookup_total_alt, list_lookup_alter.
  destruct (decide (e = e')) as [->|]; [|done].
  destruct (xh !! e') as [x|]; [exact (Hf x)|reflexivity].
Qed.

Lemma wf_ids_update_execution eh ah xh e f :
  wf_ids eh ah xh → (∀ x, executionId (f x) = executionId x) →
  wf_ids eh ah (alter f e xh).
Proof.
  intros [H1 H2] Hf. split.
  - intros r ev l Hr Hl. eapply StronglySorted_ext; [|by eapply H1].
    intros x y _ _. unfold id_lt. by rewrite !executionId_alter.
  - intros r ev l e' Hr Hl He'. rewrite executionId_alter by done. eauto.
Qed.

Lemma wf_ids_filter evs eh ah xh r kept :
  wf_store evs eh ah xh → wf_ids eh ah xh →
  kept `sublist_of` ah !!! executions (eh !!! r) →
  wf_ids (alter (set_executions (length ah)) r eh) (ah ++ [kept]) xh.
Proof.
  intros Hs [H1 H2] Hkept.
  assert (∀ r' ev' l, alter (set_executions (length ah)) r eh !! r' = Some ev' →
    (ah ++ [kept]) !! executions ev' = Some l →
    ∃ ev l0, eh !! r' = Some ev ∧ ah !! executions ev = Some l0 ∧
      l `sublist_of` l0 ∧ executionCounter ev' = executionCounter ev)
    as Hback.
  { intros r' ev' l. rewrite list_lookup_alter.
    destruct (decide (r = r')) as [->|].
    - destruct (eh !! r') as [ev|] eqn:Hev; [|done]. intros [= <-]. simpl.
      rewrite list_lookup_middle by done. intros [= <-].
      rewrite (list_lookup_total_correct _ _ _ Hev) in Hkept.
      pose proof (wf_event_array _ _ _ _ Hs _ _ Hev) as Ha.
      destruct (lookup_lt_is_Some_2 _ _ Ha) as [l0 Hl0].
      rewrite (list_lookup_total_correct _ _ _ Hl0) in Hkept.
      by exists ev, l0.
    - intros Hr'. rewrite lookup_app_l by (by eapply wf_event_array).
      intros Hl. by exists ev', l. }
  split.
  - intros r' ev' l Hr' Hl.
    destruct (Hback _ _ _ Hr' Hl) as (ev & l0 & Hr & Hl0 & Hsub & _).
    eapply StronglySorted_sublist; [done|]. by eapply H1.
  - intros r' ev' l e Hr' Hl He.
    destruct (Hback _ _ _ Hr' Hl) as (ev & l0 & Hr & Hl0 & Hsub & ->).
    eapply H2; [done..|]. by apply (sublist_subseteq _ _ Hsub).
Qed.

Lemma wf_ids_new_event eh ah xh ev :
  wf_store [] eh ah xh → wf_ids eh ah xh → executions ev = length ah →
  wf_ids (eh ++ [ev]) (ah ++ [[]]) xh.
Proof.
  intros Hs [H1 H2] Hev.
  assert (∀ r' ev' l, (eh ++ [ev]) !! r' = Some ev' →
    (ah ++ [[]]) !! executions ev' = Some l →
    l = [] ∨ (eh !! r' = Some ev' ∧ ah !! executions ev' = Some l)) as Hback.
  { intros r' ev' l [Hr'|[_ Hr']]%lookup_app_Some.
    - rewrite lookup_app_l by (by eapply wf_event_array). by right.
    - destruct (r' - _); simplify_eq/=.
      rewrite Hev, list_lookup_middle by done. intros [= <-]. by left. }
  split.
  - intros r' ev' l Hr' Hl.
    destruct (Hback _ _ _ Hr' Hl) as [->|[? ?]]; [constructor|eauto].
  - intros r' ev' l e Hr' Hl He.
    destruct (Hback _ _ _ Hr' Hl) as [->|[? ?]]; [|eauto].
    by apply elem_of_nil in He.
Qed.

(** A new execution of the allocated event [r] got the counter of [r] as
    its id, was pushed on the array of [r], and the counter was
    incremented. *)
Lemma wf_ids_add evs eh ah xh r x :
  wf_store evs eh ah xh → wf_ids eh ah xh → r < length eh →
  executionId x = executionCounter (eh !!! r) →
  wf_ids
    (alter (λ ev, set_executionCounter (executionCounter ev + 1)%Z ev) r eh)
    (alter (λ l, l ++ [length xh]) (executions (eh !!! r)) ah) (xh ++ [x]).
Proof.
  intros Hs [H1 H2] Hr Hid.
  destruct (lookup_lt_is_Some_2 _ _ Hr) as [ev0 Hev0].
  rewrite (list_lookup_total_correct _ _ _ Hev0) in *.
  assert (∀ e, e < length xh →
    executionId ((xh ++ [x]) !!! e) = executionId (xh !!! e)) as Hold.
  { intros e He. by rewrite lookup_total_app_l. }
  assert (executionId ((xh ++ [x]) !!! length xh) = executionCounter ev0)
    as Hnew by by rewrite lookup_total_snoc.
  assert (∀ r' ev' l,
    alter (λ ev, set_executionCounter (executionCounter ev + 1)%Z ev) r eh
      !! r' = Some ev' →
    alter (λ l, l ++ [length xh]) (executions ev0) ah !! executions ev'
      = Some l →
    ∃ ev l0, eh !! r' = Some ev ∧ ah !! executions ev = Some l0 ∧
      (executionCounter ev ≤ executionCounter ev')%Z ∧
      (l = l0 ∨
       (l = l0 ++ [length xh] ∧ ev = ev0 ∧
        executionCounter ev' = (executionCounter ev0 + 1)%Z))) as Hback.
  { intros r' ev' l. rewrite list_lookup_alter.
    destruct (decide (r = r')) as [<-|Hne].
    - rewrite Hev0. intros [= <-]. simpl. rewrite list_lookup_alter_eq.
      destruct (ah !! executions ev0) as [l0|] eqn:Hl0; [|done].
      intros [= <-]. exists ev0, l0.
      split; [done|]. split; [done|]. split; [simpl; lia|]. by right.
    - intros Hr'. rewrite list_lookup_alter_ne.
      + intros Hl. exists ev', l.
        split; [done|]. split; [done|]. split; [lia|]. by left.
      + intros Heq. apply Hne. by eapply (wf_array_inj _ _ _ _ Hs). }
  assert (∀ r' ev l0 e, eh !! r' = Some ev → ah !! executions ev = Some l0 →
    e ∈ l0 → e < length xh) as Hrange.
  { intros r' ev l0 e _ Hl0 He. by eapply (wf_array_elem _ _ _ _ Hs). }
  split.
  - intros r' ev' l Hr' Hl.
    destruct (Hback _ _ _ Hr' Hl) as (ev & l0 & Hr0 & Hl0 & _ & Hcase).
    assert (StronglySorted (id_lt (xh ++ [x])) l0) as Hsorted.
    { eapply StronglySorted_ext; [|by eapply H1].
      intros y z Hy Hz. unfold id_lt. rewrite !Hold by eauto. done. }
    destruct Hcase as [->|(-> & -> & _)]; [done|].
    apply StronglySorted_app_2; [|done|repeat constructor].
    intros y z Hy ->%list_elem_of_singleton. unfold id_lt.
    rewrite Hnew, Hold by eauto. eauto.
  - intros r' ev' l e Hr' Hl He.
    destruct (Hback _ _ _ Hr' Hl) as (ev & l0 & Hr0 & Hl0 & Hle & Hcase).
    destruct Hcase as [->|(-> & -> & Hc)].
    + rewrite Hold by eauto. specialize (H2 _ _ _ _ Hr0 Hl0 He). lia.
    + apply elem_of_app in He as [He|He].
      * rewrite Hold by eauto. specialize (H2 _ _ _ _ Hr0 Hl0 He). lia.
      * apply list_elem_of_singleton in He. subst e. rewrite Hnew. lia.
Qed.

Lemma wf_initial : wf initial.
Proof.
  split; [apply wf_store_initial|apply wf_timers_initial|
          apply wf_trace_initial|by split..].
Qed.

Lemma wf_at_wf D T s : wf_at D T s → wf s.
Proof.
  intros [H1 H2 H3 H4 H5 H6].
  split; [done|done|done| | |done]; split; try done; tauto.
Qed.

(** ** Every method keeps the state well formed *)

Lemma find_event_Some s name r :
  find_event s name = Some r → r ∈ events s ∧ Event_getEventName s r = name.
Proof.
  unfold find_event. intros [Hin Heq]%List.find_some.
  split; [by apply list_elem_of_In|by apply String.eqb_eq].
Qed.

Lemma filter_subseteq_list {A} (f : A → bool) (l : list A) :
  List.filter f l ⊆ l.
Proof.
  intros x Hx%list_elem_of_In. apply list_elem_of_In.
  by apply List.filter_In in Hx as [? _].
Qed.

(** After [stopAutomaticCancellation] the timer of the execution is not
    pending. *)
Lemma pending_stopAutomaticCancellation e s :
  pending (stopAutomaticCancellation e s)
    (expirationTimeout (state (execution_at s e))) = false.
Proof.
  unfold stopAutomaticCancellation, clearTimeout, pending, pending_in.
  destruct (_ =? _)%Z eqn:Hm.
  - apply Z.eqb_eq in Hm. by rewrite Hm.
  - destruct (0 <? _)%Z; [|done]. simpl.
    rewrite list_lookup_alter_eq. by destruct (timers s !! _).
Qed.

Section Preservation.

Variables D T : ref → Prop.

Lemma wf_set_events f s :
  wf_at D T s → f (events s) ⊆ events s → wf_at D T (set_events f s).
Proof.
  intros [H1 H2 H3 H4 H5 H6] Hf. split; simpl; [|done..].
  by eapply wf_store_events.
Qed.

Lemma wf_set_awaiting f s : wf_at D T s → wf_at D T (set_awaiting f s).
Proof. by intros [H1 H2 H3 H4 H5 H6]. Qed.

Lemma wf_disarm t s : wf_at D T s → wf_at D T (set_timers (alter disarm t) s).
Proof.
  intros [H1 H2 H3 H4 H5 H6]. split; simpl;
    [done|by apply wf_timers_disarm|by apply wf_trace_disarm|done|
     by apply wf_disarmed_disarm|done].
Qed.

Lemma wf_clearTimeout id s : wf_at D T s → wf_at D T (clearTimeout id s).
Proof.
  unfold clearTimeout. destruct (0 <? id)%Z; [apply wf_disarm|done].
Qed.

Lemma wf_stopAutomaticCancellation e s :
  wf_at D T s → wf_at D T (stopAutomaticCancellation e s).
Proof.
  unfold stopAutomaticCancellation.
  destruct (_ =? _)%Z; [done|apply wf_clearTimeout].
Qed.

Lemma wf_Event_removeExecution r id s :
  wf_at D T s → wf_at D T (Event_removeExecution r id s).
Proof.
  intros [H1 H2 H3 H4 H5 H6]. split; simpl; [|done|done| |done|].
  - apply wf_store_filter; [done|]. apply sublist_filter.
  - eapply wf_retired_filter; [done..|]. apply sublist_filter.
  - eapply wf_ids_filter; [done..|]. apply sublist_filter.
Qed.

Lemma wf_Execution_cancel e s : wf_at D T s → wf_at D T (Execution_cancel e s).
Proof.
  intros H. apply wf_Event_removeExecution.
  by apply wf_stopAutomaticCancellation.
Qed.

Lemma wf_Event_addExecution r cb params s :
  wf_at D T s → r < length (event_heap s) →
  wf_at D T (snd (Event_addExecution r cb params s)).
Proof.
  intros [H1 H2 H3 H4 H5 H6] Hr. unfold Event_addExecution.
  destruct (Execution_new_spec r (executionCounter (event_at s r)) cb
              params s)
    as (x & ts & -> & Hxr & Hid & _ & Hrun & _ & _ & _ & Hts).
  assert (∀ tm, tm ∈ ts → timer_owner tm = length (execution_heap s))
    as Hown.
  { destruct (params ≫= _) as [ex|]; destruct Hts as [-> _].
    - by intros tm ->%list_elem_of_singleton.
    - by intros tm ?%elem_of_nil. }
  split; simpl.
  - apply wf_store_update_event; [|done]. by apply wf_store_push.
  - apply wf_timers_new_execution; [done..|].
    destruct (params ≫= _); [right|left]; tauto.
  - by apply wf_trace_new_execution.
  - apply wf_retired_update_event; [|done]. by apply wf_retired_push.
  - by apply wf_disarmed_new_execution.
  - by eapply wf_ids_add.
Qed.

Lemma wf_addEvent name cb params s :
  wf_at D T s → wf_at D T (snd (addEvent name cb params s)).
Proof.
  intros Hwf. unfold addEvent.
  destruct (find_event s name) as [r|] eqn:Hfind.
  - pose proof (wf_Event_addExecution r cb params s Hwf) as H.
    destruct (Event_addExecution _ _ _ _) as [i s1]. apply H.
    apply find_event_Some in Hfind as [Hin _].
    by apply (wf_events _ _ _ _ (wf_wf_store _ _ _ Hwf)).
  - simpl.
    set (s1 := set_events _ _).
    pose proof (wf_Event_addExecution (length (event_heap s)) cb params s1)
      as H.
    destruct (Event_addExecution _ _ _ _) as [i s2]. apply H.
    + destruct Hwf as [H1 H2 H3 H4 H5 H6].
      assert (wf_store [] (event_heap s) (array_heap s) (execution_heap s))
        as H0.
      { eapply wf_store_events; [done|]. by intros ? ?%elem_of_nil. }
      split; simpl; [|done|done| |done|].
      * by apply wf_store_new_event.
      * by apply wf_retired_new_event.
      * by apply wf_ids_new_event.
    + simpl. rewrite length_app. simpl. lia.
Qed.

Lemma wf_removeEvent name s : wf_at D T s → wf_at D T (removeEvent name s).
Proof. intros H. apply wf_set_events; [done|apply filter_subseteq_list]. Qed.

Lemma wf_removeExecution name id s :
  wf_at D T s → wf_at D T (removeExecution name id s).
Proof.
  intros H. unfold removeExecution. destruct (find_event s name); [|done].
  destruct (Nat.eqb _ 0).
  - apply wf_set_events; [|apply filter_subseteq_list].
    by apply wf_Event_removeExecution.
  - by apply wf_Event_removeExecution.
Qed.

Lemma wf_removeAllEvents s : wf_at D T s → wf_at D T (removeAllEvents s).
Proof.
  intros H. apply wf_set_events; [done|]. by intros ? ?%elem_of_nil.
Qed.

Lemma wf_run_call c s : wf_at D T s → wf_at D T (run_call c s).
Proof.
  destruct c; simpl;
    auto using wf_addEvent, wf_removeEvent, wf_removeExecution,
      wf_removeAllEvents.
Qed.

Lemma wf_run_calls cs s : wf_at D T s → wf_at D T (run_calls cs s).
Proof.
  revert s. induction cs as [|c cs IH]; intros s H; simpl; [done|].
  by apply IH, wf_run_call.
Qed.

Lemma wf_update_execution e f s :
  wf_at D T s →
  (∀ x, eventInstance (f x) = eventInstance x) →
  (∀ x, executionId (f x) = executionId x) →
  (∀ x, expirationTimeout (state (f x)) = expirationTimeout (state x)) →
  (∀ x, execution_heap s !! e = Some x → isExecuting (state (f x)) = true →
        isExecuting (state x) = true ∨
        pending s (expirationTimeout (state x)) = false) →
  wf_at D T (update_execution e f s).
Proof.
  intros [H1 H2 H3 H4 H5 H6] He Hid Ht Hrun. split; simpl.
  - by apply wf_store_update_execution.
  - by apply wf_timers_update_execution.
  - by apply wf_trace_update_execution.
  - by apply wf_retired_update_execution.
  - by apply wf_disarmed_update_execution.
  - by apply wf_ids_update_execution.
Qed.

Lemma wf_Execution_afterRun e s :
  wf_at D T s → wf_at D T (Execution_afterRun e s).
Proof.
  intros H. unfold Execution_afterRun.
  set (s2 := update_execution e (set_hasExecuted true) _).
  assert (wf_at D T s2) as H2.
  { apply wf_update_execution; try done; [|by left].
    apply wf_update_execution; try done. }
  destruct (removeAfterExecute _); [by apply wf_Execution_cancel|done].
Qed.

Lemma wf_log_Invoked e cb args s :
  wf_at D T s → wf_at D T (log (Invoked e cb args) s).
Proof.
  intros [H1 H2 H3 H4 H5 H6]. split; simpl; [done|done| |done..].
  by apply wf_trace_log_Invoked.
Qed.

Variable user : callback → list value → State → Behaviour.

Lemma wf_call_user cb args s :
  wf_at D T s → wf_at D T (snd (call_user user cb args s)).
Proof. apply wf_run_calls. Qed.

Lemma wf_Execution_execute e args s :
  wf_at D T s → wf_at D T (snd (Execution_execute user e args s)).
Proof.
  intros H. unfold Execution_execute.
  pose proof (wf_stopAutomaticCancellation e s H) as H1.
  pose proof (pending_stopAutomaticCancellation e s) as Hp.
  set (s1 := stopAutomaticCancellation e s) in *.
  destruct (_ && _); [done|].
  set (s2 := update_execution e (set_isExecuting true) s1).
  assert (wf_at D T s2) as H2.
  { apply wf_update_execution; try done. intros x Hx _. right.
    revert Hp. unfold execution_at.
    rewrite <- (execution_heap_stopAutomaticCancellation e s).
    fold s1. by rewrite (list_lookup_total_correct _ _ _ Hx). }
  set (cb := callbackFunction (execution_at s2 e)).
  pose proof (wf_call_user cb args (log (Invoked e cb args) s2)
                (wf_log_Invoked _ _ _ _ H2)) as H3.
  destruct (call_user _ _ _ _) as [[] s3]; simpl in *.
  - by apply wf_set_awaiting.
  - by apply wf_Execution_afterRun.
Qed.

Lemma wf_forEach f a k n s :
  (∀ x s, wf_at D T s → wf_at D T (snd (f x s))) →
  wf_at D T s → wf_at D T (snd (forEach f a k n s)).
Proof.
  intros Hf. revert k s. induction n as [|n IH]; intros k s H; simpl;
    [done|].
  destruct (array_at s a !! k) as [x|]; [|by apply IH].
  pose proof (Hf x s H) as Hx. destruct (f x s) as [[] s1]; simpl in *;
    [by apply IH|done].
Qed.

Lemma wf_emitEvent name args s :
  wf_at D T s → wf_at D T (snd (emitEvent user name args s)).
Proof.
  intros H. unfold emitEvent. destruct (find_event s name); [|done].
  apply wf_forEach; [|done]. intros. by apply wf_Execution_execute.
Qed.

Lemma wf_expiration_closure e s :
  wf_at D T s → e < length (execution_heap s) →
  expirations_in (trace s) e = [] → disarmed_in (timers s) e →
  wf_at D T (snd (expiration_closure user e s)).
Proof.
  intros [H1 H2 H3 H4 H5 H6] He Hnone Hd. unfold expiration_closure.
  set (cb := exp_callback _).
  assert (wf_at D T (log (Expired e cb) s)) as Hlog.
  { split; simpl; [done|done| |done..]. by apply wf_trace_log_Expired. }
  destruct cb as [f|]; [|by apply wf_Execution_cancel].
  pose proof (wf_call_user f [] _ Hlog) as Hcall.
  destruct (call_user _ _ _ _) as [[] s3]; simpl in *;
    [by apply wf_Execution_cancel|done].
Qed.

(** A pending timer is the only pending timer of its owner. *)
Lemma pending_timer_unique s t tm :
  wf_at D T s → timers s !! t = Some tm → timer_pending tm = true →
  disarmed_in (alter disarm t (timers s)) (timer_owner tm).
Proof.
  intros H Ht Hp t' tm'. rewrite list_lookup_alter.
  pose proof (wf_timer_owner _ _ (wf_wf_timers _ _ _ H) _ _ Ht) as Ho.
  destruct (decide (t = t')) as [<-|Hne].
  - rewrite Ht. by intros [= <-].
  - intros Ht' Hsame. destruct (timer_pending tm') eqn:Hp'; [|done].
    destruct (lookup_lt_is_Some_2 _ _ Ho) as [x Hx].
    pose proof (wf_timer_pending _ _ (wf_wf_timers _ _ _ H) _ _ _ Ht Hp Hx).
    rewrite <- Hsame in Hx.
    pose proof (wf_timer_pending _ _ (wf_wf_timers _ _ _ H) _ _ _ Ht' Hp' Hx).
    unfold timer_id in *. lia.
Qed.

(** The expiration callback of the owner of a pending timer has not been
    called. *)
Lemma pending_timer_not_expired s t tm :
  wf_at D T s → timers s !! t = Some tm → timer_pending tm = true →
  expirations_in (trace s) (timer_owner tm) = [].
Proof.
  intros H Ht Hp.
  destruct (wf_expired_once _ _ _ (wf_wf_trace _ _ _ H) (timer_owner tm))
    as [?|[_ Hd]]; [done|].
  specialize (Hd _ _ Ht eq_refl). congruence.
Qed.

Lemma wf_fire_timer t s : wf_at D T s → wf_at D T (snd (fire_timer user t s)).
Proof.
  intros H. unfold fire_timer.
  destruct (timers s !! t) as [tm|] eqn:Ht; [|done].
  destruct (timer_pending tm) eqn:Hp; [|done].
  apply wf_expiration_closure; simpl.
  - by apply wf_disarm.
  - by apply (wf_timer_owner _ _ (wf_wf_timers _ _ _ H) _ _ Ht).
  - by eapply pending_timer_not_expired.
  - by eapply pending_timer_unique.
Qed.

Lemma wf_resume k s : wf_at D T s → wf_at D T (resume k s).
Proof.
  intros H. unfold resume. destruct (awaiting s !! k); [|done].
  by apply wf_Execution_afterRun, wf_set_awaiting.
Qed.

Lemma wf_step o s : wf_at D T s → wf_at D T (snd (step user o s)).
Proof.
  destruct o; simpl;
    auto using wf_run_call, wf_emitEvent, wf_fire_timer, wf_resume.
Qed.

Lemma wf_run os s : wf_at D T s → wf_at D T (run user os s).
Proof.
  revert s. induction os as [|o os IH]; intros s H; simpl; [done|].
  by apply IH, wf_step.
Qed.

End Preservation.

Section Reachable.

Variable user : callback → list value → State → Behaviour.

(** Every state the emitter can be in is well formed. *)
Lemma reachable_wf s : reachable user s → wf s.
Proof. induction 1; [apply wf_initial|by apply wf_step]. Qed.

Lemma reachable_run os s : reachable user s → reachable user (run user os s).
Proof.
  revert s. induction os as [|o os IH]; intros s H; simpl; [done|].
  by apply IH, reachable_step.
Qed.

End Reachable.

(** ** Fan-out *)

Section FanOut.

Variable user : callback → list value → State → Behaviour.

(** The callbacks called by a sequence of triggers on distinct
    executions: those of the executions whose guard lets the trigger
    through, in the order of the triggers.  [s0] is a state in which the
    executions are as they are in [s]. *)
Lemma trace_fold_execute args l s0 s :
  NoDup l →
  (∀ e, e ∈ l → is_Some (execution_heap s0 !! e) ∧
                execution_heap s !! e = execution_heap s0 !! e) →
  trace (fold_left (λ s e, snd (Execution_execute user e args s)) l s)
  = trace s ++
    map (λ e, Invoked e (callbackFunction (execution_at s0 e)) args)
      (filter (λ e, dropped s0 e = false) l).
Proof.
  revert s. induction l as [|x l IH]; intros s Hnd Hl; simpl.
  { by rewrite app_nil_r. }
  apply NoDup_cons in Hnd as [Hx Hnd].
  assert (execution_at s x = execution_at s0 x) as Hat.
  { unfold execution_at. rewrite !list_lookup_total_alt.
    by destruct (Hl x) as [_ ->]; [left|]. }
  rewrite IH; [|done|].
  - rewrite trace_Execution_execute, filter_cons. unfold dropped at 1.
    rewrite Hat. fold (dropped s0 x).
    destruct (dropped s0 x) eqn:Hd; simpl.
    + by rewrite app_nil_r.
    + by rewrite <- app_assoc.
  - intros e He. destruct (Hl e) as [[y Hy] Heq]; [by right|].
    split; [by eauto|]. rewrite Hy in Heq |- *.
    eapply (ext_frame _ _ _ (extends_Execution_execute user (eq x) x args s
                               eq_refl)); [|done].
    by intros <-.
Qed.

End FanOut.

(** In a well-formed state the list of a registered event is an allocated
    array without repetitions whose elements are allocated executions. *)
Lemma executions_of_registered s r :
  wf s → r ∈ events s →
  ∃ ev, event_heap s !! r = Some ev ∧
    array_heap s !! executions ev = Some (executions_of s r) ∧
    NoDup (executions_of s r) ∧
    ∀ e, e ∈ executions_of s r → is_Some (execution_heap s !! e).
Proof.
  intros [Hs _ _ _ _] Hr%(wf_events _ _ _ _ Hs).
  destruct (lookup_lt_is_Some_2 _ _ Hr) as [ev Hev]. exists ev.
  pose proof (wf_event_array _ _ _ _ Hs _ _ Hev) as Ha.
  destruct (lookup_lt_is_Some_2 _ _ Ha) as [l Hl].
  unfold executions_of, event_at, array_at.
  rewrite (list_lookup_total_correct _ _ _ Hev),
    (list_lookup_total_correct _ _ _ Hl).
  split; [done|]. split; [done|]. split; [by eapply wf_array_nodup|].
  intros e He. apply lookup_lt_is_Some_2. by eapply wf_array_elem.
Qed.

(** ** Retired executions are not called, disarmed ones do not expire *)

Lemma execution_at_set_timers f s e :
  execution_at (set_timers f s) e = execution_at s e.
Proof. done. Qed.

Section Avoids.

Variables D T : ref → Prop.
Variable user : callback → list value → State → Behaviour.

Lemma trace_expiration_closure e s :
  trace (snd (expiration_closure user e s))
  = trace s ++
    [Expired e (exp_callback (expirationCallback
                                (parameters (execution_at s e))))].
Proof.
  unfold expiration_closure. destruct (exp_callback _) as [f|].
  - unfold call_user. destruct (throws _); simpl;
      by rewrite ?trace_stopAutomaticCancellation, trace_run_calls.
  - simpl. by rewrite trace_stopAutomaticCancellation.
Qed.

Lemma avoids_fold args l s :
  wf_at D T s → (∀ e, e ∈ l → ¬ D e) →
  ∃ k, trace (fold_left (λ s e, snd (Execution_execute user e args s)) l s)
       = trace s ++ k ∧ Forall (avoids D T) k.
Proof.
  revert s. induction l as [|x l IH]; intros s Hwf Hl; simpl.
  { exists []. by rewrite app_nil_r. }
  destruct (IH (snd (Execution_execute user x args s))) as (k & -> & Hk).
  { by apply wf_Execution_execute. }
  { intros e He. apply Hl. by right. }
  rewrite trace_Execution_execute, <- app_assoc. eexists; split; [done|].
  apply Forall_app. split; [|done].
  destruct (dropped s x); [done|]. apply Forall_singleton. simpl.
  apply Hl. by left.
Qed.

Lemma avoids_emitEvent name args s :
  wf_at D T s →
  ∃ k, trace (snd (emitEvent user name args s)) = trace s ++ k ∧
       Forall (avoids D T) k.
Proof.
  intros Hwf. unfold emitEvent.
  destruct (find_event s name) as [r|] eqn:Hfind.
  2:{ exists []. by rewrite app_nil_r. }
  rewrite Event_execute_fold. simpl. apply avoids_fold; [done|].
  apply find_event_Some in Hfind as [Hin _].
  destruct (executions_of_registered s r (wf_at_wf _ _ _ Hwf) Hin)
    as (ev & Hev & Ha & _).
  intros e He. by eapply (wf_retired_detached _ _ _ _ (wf_wf_retired _ _ _ Hwf)).
Qed.

Lemma avoids_fire_timer t s :
  wf_at D T s →
  ∃ k, trace (snd (fire_timer user t s)) = trace s ++ k ∧
       Forall (avoids D T) k.
Proof.
  intros Hwf. unfold fire_timer.
  destruct (timers s !! t) as [tm|] eqn:Ht.
  2:{ exists []. by rewrite app_nil_r. }
  destruct (timer_pending tm) eqn:Hp.
  2:{ exists []. by rewrite app_nil_r. }
  rewrite trace_expiration_closure. eexists; split; [done|].
  apply Forall_singleton. simpl. intros HT.
  pose proof (wf_disarmed_timers _ _ _ (wf_wf_disarmed _ _ _ Hwf) _ HT
                _ _ Ht eq_refl). congruence.
Qed.

Lemma trace_resume k s : trace (resume k s) = trace s.
Proof.
  unfold resume. destruct (awaiting s !! k); [|done].
  by rewrite trace_Execution_afterRun.
Qed.

Lemma avoids_step o s :
  wf_at D T s →
  ∃ k, trace (snd (step user o s)) = trace s ++ k ∧ Forall (avoids D T) k.
Proof.
  intros Hwf. destruct o; simpl.
  - exists []. by rewrite trace_run_call, app_nil_r.
  - by apply avoids_emitEvent.
  - by apply avoids_fire_timer.
  - exists []. by rewrite trace_resume, app_nil_r.
Qed.

Lemma avoids_run os s :
  wf_at D T s →
  ∃ k, trace (run user os s) = trace s ++ k ∧ Forall (avoids D T) k.
Proof.
  revert s. induction os as [|o os IH]; intros s Hwf; simpl.
  { exists []. by rewrite app_nil_r. }
  destruct (avoids_step o s Hwf) as (k1 & Hk1 & Hf1).
  destruct (IH (snd (step user o s))) as (k2 & -> & Hf2).
  { by apply wf_step. }
  rewrite Hk1, <- app_assoc. eexists; split; [done|].
  by apply Forall_app.
Qed.

End Avoids.

(** ** What [addEvent] returns and leaves behind *)

Lemma find_event_ext s s' name :
  events s' = events s →
  (∀ r, r ∈ events s → Event_getEventName s' r = Event_getEventName s r) →
  find_event s' name = find_event s name.
Proof.
  unfold find_event. intros ->. induction (events s) as [|r l IH];
    intros Hn; simpl; [done|].
  rewrite Hn by left. destruct (String.eqb _ _); [done|].
  apply IH. intros r' Hr'. apply Hn. by right.
Qed.

Lemma find_snoc {A} (f : A → bool) l x :
  List.find f (l ++ [x])
  = match List.find f l with
    | Some y => Some y
    | None => if f x then Some x else None
    end.
Proof. induction l as [|y l IH]; simpl; [done|]. by destruct (f y). Qed.

(** [addExecution] on an allocated event whose array is allocated. *)
Lemma Event_addExecution_spec r cb params s ev0 :
  event_heap s !! r = Some ev0 → executions ev0 < length (array_heap s) →
  let e := length (execution_heap s) in
  let s1 := snd (Event_addExecution r cb params s) in
  fst (Event_addExecution r cb params s) = executionCounter ev0 ∧
  events s1 = events s ∧
  event_heap s1
  = alter (λ ev, set_executionCounter (executionCounter ev + 1)%Z ev) r
      (event_heap s) ∧
  executions_of s1 r = executions_of s r ++ [e] ∧
  ∃ x, execution_heap s1 = execution_heap s ++ [x] ∧
    eventInstance x = r ∧ executionId x = executionCounter ev0 ∧
    callbackFunction x = cb ∧
    removeAfterExecute (parameters x)
    = default false (params ≫= ExecutionParameters.removeAfterExecute) ∧
    onlyOneExecutionAtATime (parameters x)
    = default false (params ≫= ExecutionParameters.onlyOneInstance).
Proof.
  intros Hev Ha e s1. subst e s1. unfold Event_addExecution.
  assert (event_at s r = ev0) as Hat by by apply list_lookup_total_correct.
  rewrite Hat.
  destruct (Execution_new_spec r (executionCounter ev0) cb params s)
    as (x & ts & -> & Hxr & Hid & Hcb & _ & _ & Hra & Hoo & _).
  assert (event_at (set_timers (λ h, h ++ ts)
            (set_execution_heap (λ h, h ++ [x]) s)) r = ev0) as -> by done.
  simpl. unfold Execution_getID, execution_at, executions_of, array_at,
    event_at. simpl.
  rewrite lookup_total_snoc.
  rewrite (list_lookup_total_alter_eq _ _ r)
    by (by eapply lookup_lt_Some).
  rewrite (list_lookup_total_correct _ _ _ Hev). simpl.
  rewrite list_lookup_total_alter_eq by done.
  repeat split; try done. by exists x.
Qed.

Lemma find_name_ext (g g' : ref → string) name (l : list ref) :
  (∀ r, r ∈ l → g' r = g r) →
  List.find (λ r, String.eqb (g' r) name) l
  = List.find (λ r, String.eqb (g r) name) l.
Proof.
  induction l as [|r l IH]; intros Hn; simpl; [done|].
  rewrite Hn by left. destruct (String.eqb _ _); [done|].
  apply IH. intros r' Hr'. apply Hn. by right.
Qed.

Lemma eventName_alter (f : Event → Event) r (eh : list Event) r' :
  (∀ ev, eventName (f ev) = eventName ev) →
  eventName (alter f r eh !!! r') = eventName (eh !!! r').
Proof.
  intros Hf. rewrite !list_lookup_total_alt, list_lookup_alter.
  destruct (decide (r = r')) as [->|]; [|done].
  destruct (eh !! r') as [x|]; [exact (Hf x)|reflexivity].
Qed.

(** [addEvent] returns a handle for a new execution, which is the last of
    the list of the event registered under the name; the id in the handle
    is the value of the counter of the event it was added to, which is the
    event registered under the name before the call if there was one and a
    new event with counter 0 otherwise. *)
Lemma addEvent_spec name cb params s :
  wf s →
  let e := length (execution_heap s) in
  let h := fst (addEvent name cb params s) in
  let s1 := snd (addEvent name cb params s) in
  ∃ r ev x,
    find_event s1 name = Some r ∧
    (find_event s name = Some r ∧
       la_executionId h = executionCounter (event_at s r) ∨
     find_event s name = None ∧ la_executionId h = 0%Z ∧
       r = length (event_heap s)) ∧
    event_heap s1 !! r = Some ev ∧
    executionCounter ev = (la_executionId h + 1)%Z ∧
    e ∈ executions_of s1 r ∧
    execution_heap s1 = execution_heap s ++ [x] ∧
    eventInstance x = r ∧ executionId x = la_executionId h ∧
    callbackFunction x = cb ∧
    removeAfterExecute (parameters x)
    = default false (params ≫= ExecutionParameters.removeAfterExecute) ∧
    onlyOneExecutionAtATime (parameters x)
    = default false (params ≫= ExecutionParameters.onlyOneInstance) ∧
    la_eventName h = name.
Proof.
  intros Hwf e h s1. subst e h s1. unfold addEvent.
  destruct (find_event s name) as [r|] eqn:Hfind.
  - pose proof Hfind as [Hin Hname]%find_event_Some.
    destruct (executions_of_registered s r Hwf Hin) as (ev0 & Hev0 & Ha & _).
    destruct (Event_addExecution_spec r cb params s ev0 Hev0
                (lookup_lt_Some _ _ _ Ha))
      as (Hid & Hevs & Heh & Hex & x & Hxh & Hx).
    destruct (Event_addExecution r cb params s) as [i s1]. simpl in *.
    assert (∀ r', Event_getEventName s1 r' = Event_getEventName s r') as Hn.
    { intros r'. unfold Event_getEventName, event_at. rewrite Heh.
      by apply eventName_alter. }
    exists r, (set_executionCounter (executionCounter ev0 + 1) ev0), x.
    split. { rewrite <- Hfind. apply find_event_ext; auto. }
    split. { left. split; [done|]. unfold event_at.
             by rewrite (list_lookup_total_correct _ _ _ Hev0). }
    split. { by rewrite Heh, list_lookup_alter_eq, Hev0. }
    split. { simpl. by rewrite Hid. }
    split. { rewrite Hex. apply elem_of_app. right. by left. }
    split; [done|]. rewrite Hid, Hn, Hname. tauto.
  - simpl.
    set (evN := {| eventName := name; eventId := eventIds s;
                   executions := length (array_heap s);
                   executionCounter := 0 |}).
    set (s0 := set_events _ _).
    assert (event_heap s0 !! length (event_heap s) = Some evN) as Hev0.
    { simpl. by apply list_lookup_middle. }
    destruct (Event_addExecution_spec (length (event_heap s)) cb params s0
                evN Hev0)
      as (Hid & Hevs & Heh & Hex & x & Hxh & Hx).
    { simpl. rewrite length_app. simpl. lia. }
    destruct (Event_addExecution _ cb params s0) as [i s1]. simpl in *.
    assert (Event_getEventName s1 (length (event_heap s)) = name) as Hname.
    { unfold Event_getEventName, event_at. rewrite Heh.
      rewrite eventName_alter by done. by rewrite lookup_total_snoc. }
    exists (length (event_heap s)),
      (set_executionCounter (executionCounter evN + 1) evN), x.
    split.
    { unfold find_event. rewrite Hevs, find_snoc, Hname, String.eqb_refl.
      rewrite (find_name_ext (Event_getEventName s)).
      - fold (find_event s name). by rewrite Hfind.
      - intros r Hr. unfold Event_getEventName, event_at. rewrite Heh.
        rewrite eventName_alter by done. f_equal.
        apply lookup_total_app_l.
        by apply (wf_events _ _ _ _ (wf_wf_store _ _ _ Hwf)). }
    split. { right. by rewrite Hid. }
    split. { rewrite Heh, list_lookup_alter_eq.
             by rewrite list_lookup_middle. }
    split. { simpl. by rewrite Hid. }
    split. { rewrite Hex. apply elem_of_app. right. by left. }
    split; [done|]. rewrite Hid, Hname. tauto.
Qed.

(** ** Leaving the event *)

(** When the array of the event of [e] is replaced by the executions with
    another id than [e], the execution [e] is in the array of no event. *)
Lemma wf_retired_retire evs eh ah xh e x :
  wf_store evs eh ah xh → xh !! e = Some x →
  wf_retired (eq e)
    (alter (set_executions (length ah)) (eventInstance x) eh)
    (ah ++ [filter (λ y, executionId (xh !!! y) ≠ executionId x)
              (ah !!! executions (eh !!! eventInstance x))]) xh.
Proof.
  intros Hs Hx. split.
  { intros ? <-. by eapply lookup_lt_Some. }
  intros r ev l e' Hr Hl He' <-.
  rewrite list_lookup_alter in Hr.
  destruct (decide (eventInstance x = r)) as [<-|Hne].
  - destruct (eh !! eventInstance x) as [ev0|] eqn:Hev0; simplify_eq/=.
    rewrite list_lookup_middle in Hl by done. simplify_eq.
    apply list_elem_of_filter in He' as [Hid _].
    by rewrite (list_lookup_total_correct _ _ _ Hx) in Hid.
  - rewrite lookup_app_l in Hl by (by eapply wf_event_array).
    apply Hne. by eapply wf_owner.
Qed.

Lemma Execution_cancel_retires (T : ref → Prop) e s :
  wf_at (λ _, False) T s → e < length (execution_heap s) →
  wf_at (eq e) T (Execution_cancel e s).
Proof.
  intros Hwf He. unfold Execution_cancel.
  pose proof (wf_stopAutomaticCancellation _ _ e s Hwf) as H1.
  set (s1 := stopAutomaticCancellation e s) in *.
  assert (length (execution_heap s1) = length (execution_heap s)) as Hlen.
  { unfold s1. by rewrite execution_heap_stopAutomaticCancellation. }
  destruct (wf_Event_removeExecution _ _ (eventInstance (execution_at s1 e))
              (executionId (execution_at s1 e)) s1 H1) as [G1 G2 G3 _ G5].
  split; try done. simpl.
  apply (wf_retired_retire (events s1)); [by destruct H1|].
  apply list_lookup_lookup_total_lt. lia.
Qed.

Lemma removeAfterExecute_afterRun_updates e s :
  removeAfterExecute
    (parameters
       (execution_at
          (update_execution e (set_hasExecuted true)
             (update_execution e (set_isExecuting false) s)) e))
  = removeAfterExecute (parameters (execution_at s e)).
Proof.
  rewrite (execution_at_update_execution
             (λ x, removeAfterExecute (parameters x))) by done.
  by rewrite (execution_at_update_execution
                (λ x, removeAfterExecute (parameters x))).
Qed.

(** The end of a run of a one-shot execution retires it. *)
Lemma Execution_afterRun_retires e s :
  wf s → e < length (execution_heap s) →
  removeAfterExecute (parameters (execution_at s e)) = true →
  wf_at (eq e) (λ _, False) (Execution_afterRun e s).
Proof.
  intros Hwf He Hra. unfold Execution_afterRun.
  rewrite removeAfterExecute_afterRun_updates, Hra.
  apply Execution_cancel_retires.
  - apply wf_update_execution; try done; [|by left].
    apply wf_update_execution; try done.
  - simpl. by rewrite !length_alter.
Qed.

Lemma wf_at_absent (D T : ref → Prop) s e : wf_at D T s → D e → absent s e.
Proof.
  intros Hwf HD r ev Hr (l & Hl & He)%elem_of_lookup_total_list.
  by eapply (wf_retired_detached _ _ _ _ (wf_wf_retired _ _ _ Hwf)).
Qed.

Section Paths.

Variable user : callback → list value → State → Behaviour.

(** The two ways out of the call of the callback in [execute]. *)
Lemma Execution_execute_unfold e args s :
  dropped s e = false →
  Execution_execute user e args s
  = let cb := callbackFunction (execution_at s e) in
    let b := user cb args (calling e args s) in
    let s' := run_calls (calls b) (calling e args s) in
    if throws b then (Normal, Execution_afterRun e s')
    else (Normal, set_awaiting (λ l, l ++ [e]) s').
Proof.
  unfold dropped, Execution_execute, calling, call_user. intros Hd.
  rewrite !execution_at_stopAutomaticCancellation, Hd.
  rewrite (execution_at_update_execution callbackFunction) by done.
  rewrite execution_at_stopAutomaticCancellation. simpl.
  by destruct (throws _).
Qed.

Lemma wf_calling (D T : ref → Prop) e args s :
  wf_at D T s → wf_at D T (calling e args s).
Proof.
  intros Hwf. unfold calling. apply wf_log_Invoked.
  apply wf_update_execution; try done.
  - by apply wf_stopAutomaticCancellation.
  - intros x Hx _. right.
    pose proof (pending_stopAutomaticCancellation e s) as Hp.
    revert Hp. unfold execution_at.
    rewrite <- (execution_heap_stopAutomaticCancellation e s).
    by rewrite (list_lookup_total_correct _ _ _ Hx).
Qed.

Lemma extends_calling P e args s : P e → extends P s (calling e args s).
Proof.
  intros HP. unfold calling.
  etrans; [apply (extends_stopAutomaticCancellation P e s)|].
  etrans; [|apply extends_log].
  by apply (extends_update_execution P e (set_isExecuting true)).
Qed.

(** A retired execution is never called again. *)
Lemma retired_never_invoked (T : ref → Prop) e s os k :
  wf_at (eq e) T s → trace (run user os s) = trace s ++ k →
  ∀ cb args, Invoked e cb args ∉ k.
Proof.
  intros Hwf Hk cb args Hin.
  destruct (avoids_run (eq e) T user os s Hwf) as (k' & Hk' & Hav).
  rewrite Hk' in Hk. apply app_inv_head in Hk. subst k'.
  rewrite Forall_forall in Hav. by apply (Hav _ Hin).
Qed.

End Paths.

(** The immutable fields of an execution, read in a later state. *)
Lemma extends_execution_at P s s' e x :
  extends P s s' → execution_heap s !! e = Some x →
  e < length (execution_heap s') ∧
  eventInstance (execution_at s' e) = eventInstance x ∧
  executionId (execution_at s' e) = executionId x ∧
  parameters (execution_at s' e) = parameters x ∧
  callbackFunction (execution_at s' e) = callbackFunction x ∧
  expirationTimeout (state (execution_at s' e)) = expirationTimeout (state x).
Proof.
  intros Hext Hx.
  destruct (ext_execution _ _ _ Hext _ _ Hx) as (x' & Hx' & ?).
  split; [by eapply lookup_lt_Some|].
  unfold execution_at. by rewrite (list_lookup_total_correct _ _ _ Hx').
Qed.

(** ** Disarming *)

Lemma alter_disarm_idem t (ts : list Timer) :
  alter disarm t (alter disarm t ts) = alter disarm t ts.
Proof.
  rewrite list_alter_alter_eq. apply list_alter_ext; [|done].
  by intros [] _.
Qed.

Lemma stopAutomaticCancellation_idem e s :
  stopAutomaticCancellation e (stopAutomaticCancellation e s)
  = stopAutomaticCancellation e s.
Proof.
  unfold stopAutomaticCancellation at 1.
  rewrite execution_at_stopAutomaticCancellation.
  unfold stopAutomaticCancellation, clearTimeout.
  destruct (_ =? _)%Z; [done|]. destruct (0 <? _)%Z; [|done].
  unfold set_timers; simpl. by rewrite alter_disarm_idem.
Qed.

(** [execute] starts by disarming; disarming beforehand changes nothing. *)
Lemma Execution_execute_disarmed user e args s :
  Execution_execute user e args (stopAutomaticCancellation e s)
  = Execution_execute user e args s.
Proof. unfold Execution_execute. by rewrite stopAutomaticCancellation_idem. Qed.


(** In a well-formed state [stopAutomaticCancellation] leaves the
    execution without a pending timer. *)
Lemma disarmed_stopAutomaticCancellation (D T : ref → Prop) e s :
  wf_at D T s → e < length (execution_heap s) →
  disarmed_in (timers (stopAutomaticCancellation e s)) e.
Proof.
  intros Hwf He t tm Ht Ho.
  destruct (timer_pending tm) eqn:Hp; [|done]. exfalso.
  destruct (lookup_lt_is_Some_2 _ _ He) as [x Hx].
  pose proof (pending_stopAutomaticCancellation e s) as Hstop.
  unfold execution_at in Hstop.
  rewrite (list_lookup_total_correct _ _ _ Hx) in Hstop.
  assert (timers s !! t = Some tm) as Ht0.
  { revert Ht. unfold stopAutomaticCancellation, clearTimeout.
    destruct (_ =? _)%Z; [done|]. destruct (0 <? _)%Z; [|done]. simpl.
    rewrite list_lookup_alter. destruct (decide (_ = t)) as [Heq|]; [|done].
    rewrite Heq. destruct (timers s !! t) as [tm0|]; [|done]. intros [= <-].
    simpl in Hp. done. }
  rewrite <- Ho in Hx.
  pose proof (wf_timer_pending _ _ (wf_wf_timers _ _ _ Hwf) _ _ _ Ht0 Hp Hx)
    as Hid.
  revert Hstop. unfold pending, pending_in. rewrite Hid.
  unfold timer_id, timer_index.
  replace (Z.to_nat (Z.of_nat t + 1 - 1)) with t by lia.
  rewrite Ht, Hp. destruct (0 <? Z.of_nat t + 1)%Z eqn:Hpos; [done|].
  apply Z.ltb_ge in Hpos. lia.
Qed.

(** A timer that is not pending stays so. *)
Lemma pending_extends P s s' id :
  extends P s s' → (id ≤ Z.of_nat (length (timers s)))%Z →
  pending s id = false → pending s' id = false.
Proof.
  intros Hext Hid. unfold pending, pending_in.
  destruct (0 <? id)%Z eqn:Hpos; [|done]. simpl.
  apply Z.ltb_lt in Hpos.
  destruct (lookup_lt_is_Some_2 (timers s) (timer_index id)) as [tm Htm].
  { unfold timer_index. lia. }
  rewrite Htm. intros Hp.
  destruct (ext_timer _ _ _ Hext _ _ Htm) as (tm' & -> & _ & Hp').
  auto.
Qed.

Lemma wf_at_disarmed (D : ref → Prop) e s :
  wf_at D (λ _, False) s → e < length (execution_heap s) →
  disarmed_in (timers s) e → wf_at D (eq e) s.
Proof.
  intros [H1 H2 H3 H4 H5 H6] He Hd. split; try done.
  split; by intros ? <-.
Qed.

Lemma avoids_expirations (D : ref → Prop) e k :
  Forall (avoids D (eq e)) k → expirations_in k e = [].
Proof.
  induction 1 as [|o k Ho _ IH]; [done|].
  unfold expirations_in in *. simpl. rewrite IH.
  destruct o as [|e' cb]; simpl in *; [done|].
  destruct (Nat.eqb_spec e e'); [done|done].
Qed.

Lemma expirations_in_app tr k e :
  expirations_in (tr ++ k) e = expirations_in tr e ++ expirations_in k e.
Proof. apply List.filter_app. Qed.

Lemma expirations_in_nil_not_elem_of k e cb :
  expirations_in k e = [] → Expired e cb ∉ k.
Proof.
  intros Hnil Hin%list_elem_of_In.
  assert (In (Expired e cb) (expirations_in k e)) as Hin'.
  { apply List.filter_In. split; [done|]. simpl. apply Nat.eqb_refl. }
  by rewrite Hnil in Hin'.
Qed.

Lemma execution_heap_Execution_cancel e s :
  execution_heap (Execution_cancel e s) = execution_heap s.
Proof. apply execution_heap_stopAutomaticCancellation. Qed.

(** The run of [e] is over: [isExecuting] is reset and [hasExecuted] set. *)
Lemma Execution_afterRun_state e s :
  e < length (execution_heap s) →
  isExecuting (state (execution_at (Execution_afterRun e s) e)) = false ∧
  hasExecuted (state (execution_at (Execution_afterRun e s) e)) = true.
Proof.
  intros [x Hx]%lookup_lt_is_Some_2. unfold Execution_afterRun.
  set (s2 := update_execution e (set_hasExecuted true) _).
  assert (execution_at s2 e = set_hasExecuted true (set_isExecuting false x))
    as Hat.
  { unfold execution_at. simpl. apply list_lookup_total_correct.
    by rewrite !list_lookup_alter_eq, Hx. }
  destruct (removeAfterExecute _);
    unfold execution_at in *; rewrite ?execution_heap_Execution_cancel, Hat;
    done.
Qed.

Lemma filter_all {A} (P : A → Prop) `{∀ x, Decision (P x)} (l : list A) :
  (∀ x, x ∈ l → P x) → filter P l = l.
Proof.
  induction l as [|x l IH]; intros Hl; [done|].
  rewrite filter_cons_True by (apply Hl; by left).
  f_equal. apply IH. intros y Hy. apply Hl. by right.
Qed.

Lemma Event_removeExecution_spec r id s ev0 :
  event_heap s !! r = Some ev0 →
  let s1 := Event_removeExecution r id s in
  executions_of s1 r
  = filter (λ x, Execution_getID s x ≠ id) (executions_of s r) ∧
  events s1 = events s ∧
  (∀ r', Event_getEventName s1 r' = Event_getEventName s r') ∧
  (∀ e, Execution_getID s1 e = Execution_getID s e).
Proof.
  intros Hev s1. split; [|split; [done|split; [|done]]].
  - unfold s1, Event_removeExecution, executions_of, array_at, event_at.
    simpl. rewrite list_lookup_total_alter_eq by (by eapply lookup_lt_Some).
    simpl. by rewrite lookup_total_snoc.
  - intros r'. unfold Event_getEventName, event_at. simpl.
    by apply eventName_alter.
Qed.

(** Removing an id that no execution of the event has changes nothing
    that can be observed. *)
Lemma view_Event_removeExecution_absent r id s :
  wf s → r < length (event_heap s) →
  (∀ e, e ∈ executions_of s r → Execution_getID s e ≠ id) →
  view (Event_removeExecution r id s) = view s.
Proof.
  intros Hwf Hr Hid. unfold Event_removeExecution.
  rewrite filter_all by done. unfold view. simpl. do 5 f_equal.
  apply list_eq. intros i. rewrite !list_lookup_fmap, list_lookup_alter.
  destruct (decide (r = i)) as [<-|Hne].
  - destruct (event_heap s !! r) as [ev|] eqn:Hev; [|done]. simpl.
    unfold view_event, array_at. simpl. rewrite lookup_total_snoc.
    unfold executions_of, event_at.
    by rewrite (list_lookup_total_correct _ _ _ Hev).
  - destruct (event_heap s !! i) as [ev|] eqn:Hev; [|done]. simpl.
    unfold view_event, array_at. simpl.
    rewrite lookup_total_app_l; [done|].
    by eapply (wf_event_array _ _ _ _ (wf_wf_store _ _ _ Hwf)).
Qed.

(** The closure [remove] of a handle. *)
Lemma la_remove_addEvent name cb params s :
  la_remove (fst (addEvent name cb params s))
  = removeExecution name (la_executionId (fst (addEvent name cb params s))).
Proof.
  unfold addEvent. destruct (find_event s name) as [r|].
  - by destruct (Event_addExecution _ _ _ _).
  - simpl. by destruct (Event_addExecution _ _ _ _).
Qed.

Lemma find_event_removed name s1 s :
  (∀ r, Event_getEventName s1 r = Event_getEventName s r) →
  find_event
    (set_events
       (List.filter (λ r, negb (String.eqb (Event_getEventName s r) name))) s1)
    name = None.
Proof.
  intros Hn. unfold find_event. simpl.
  induction (events s1) as [|r l IH]; simpl; [done|].
  destruct (String.eqb (Event_getEventName s r) name) eqn:Heq; simpl; [done|].
  unfold Event_getEventName in *. unfold event_at in *. simpl.
  by rewrite Hn, Heq.
Qed.

(** ** Disarmed executions *)

Section Disarmed.

Variable user : callback → list value → State → Behaviour.

(** A disarmed execution never expires. *)
Lemma disarmed_never_expires (D : ref → Prop) e s os :
  wf_at D (eq e) s →
  expirations_in (trace (run user os s)) e = expirations_in (trace s) e.
Proof.
  intros Hwf.
  destruct (avoids_run D (eq e) user os s Hwf) as (k & -> & Hav).
  by rewrite expirations_in_app, (avoids_expirations D e k Hav), app_nil_r.
Qed.

End Disarmed.

Lemma reachable_user_wf user os : wf (run user os initial).
Proof. apply (reachable_wf user), reachable_run, reachable_initial. Qed.

(** * The claims *)

Section Claims.

Variable user : callback → list value → State → Behaviour.

(** C1.  An [emitEvent] on a registered event completes normally and
    equals the sequence of calls [execution.execute(...args)] on the
    executions that were in the event's list when the fan-out started,
    each once, in the order of the list, whatever the callbacks do to the
    lists meanwhile (removing their own or other executions, adding
    executions).  The callbacks called are those of these executions, in
    that order and with the emitted arguments, except where the guard of
    [execute] drops the trigger.  The order of the list is the order of
    registration: [addExecution] puts the new execution at the end,
    [removeExecution] keeps the order of those that stay, and along the
    list the ids, which are handed out in increasing order, increase
    strictly. *)
Theorem emit_triggers_snapshot_in_order name r args s :
  wf s → find_event s name = Some r →
  emitEvent user name args s
  = (Normal,
     fold_left (λ s e, snd (Execution_execute user e args s))
       (executions_of s r) s) ∧
  trace (snd (emitEvent user name args s))
  = trace s ++
    map (λ e, Invoked e (callbackFunction (execution_at s e)) args)
      (filter (λ e, dropped s e = false) (executions_of s r)) ∧
  (∀ cb params,
     executions_of (snd (Event_addExecution r cb params s)) r
     = executions_of s r ++ [length (execution_heap s)]) ∧
  (∀ id,
     executions_of (Event_removeExecution r id s) r
     = filter (λ x, Execution_getID s x ≠ id) (executions_of s r)) ∧
  StronglySorted (id_lt (execution_heap s)) (executions_of s r).
Proof.
  intros Hwf Hfind.
  pose proof Hfind as [Hin _]%find_event_Some.
  destruct (executions_of_registered s r Hwf Hin)
    as (ev & Hev & Ha & Hnd & Hx).
  split; [|split; [|split; [|split]]];
    [| | | |exact (wf_ids_sorted _ _ _ (wf_wf_ids _ _ _ Hwf) _ _ _ Hev Ha)].
  - unfold emitEvent. by rewrite Hfind, Event_execute_fold.
  - unfold emitEvent. rewrite Hfind, Event_execute_fold. cbn [snd].
    apply trace_fold_execute; [done|]. intros e He. split; [auto|done].
  - intros cb params.
    by destruct (Event_addExecution_spec r cb params s ev Hev
                   (lookup_lt_Some _ _ _ Ha)) as (_ & _ & _ & -> & _).
  - intros id.
    by destruct (Event_removeExecution_spec r id s ev Hev) as (-> & _).
Qed.

(** C6.  [emitEvent] completes normally whatever the callbacks do.  In a
    well-formed state every execution in the list of the event whose
    guard lets the trigger through has its callback called during the
    emit, whether or not other callbacks throw.  When the callback of an
    execution throws, [execute] still sets [hasExecuted], resets
    [isExecuting], and, under [removeAfterExecute], takes the execution
    out of the list of its event; the same holds when the activation is
    resumed after the promise returned by the callback has settled,
    fulfilled or rejected. *)
Theorem callback_errors_are_contained name args s :
  fst (emitEvent user name args s) = Normal ∧
  (∀ r e, wf s → find_event s name = Some r →
     e ∈ executions_of s r → dropped s e = false →
     ∃ k, trace (snd (emitEvent user name args s)) = trace s ++ k ∧
          Invoked e (callbackFunction (execution_at s e)) args ∈ k) ∧
  (∀ e, wf s → e < length (execution_heap s) → dropped s e = false →
     throws (user (callbackFunction (execution_at s e)) args
               (calling e args s)) = true →
     let s' := snd (Execution_execute user e args s) in
     fst (Execution_execute user e args s) = Normal ∧
     hasExecuted (state (execution_at s' e)) = true ∧
     isExecuting (state (execution_at s' e)) = false ∧
     (removeAfterExecute (parameters (execution_at s e)) = true →
      absent s' e)) ∧
  (∀ e i, wf s → e < length (execution_heap s) → awaiting s !! i = Some e →
     let s' := resume i s in
     hasExecuted (state (execution_at s' e)) = true ∧
     isExecuting (state (execution_at s' e)) = false ∧
     (removeAfterExecute (parameters (execution_at s e)) = true →
      absent s' e)).
Proof.
  assert (∀ e s1, wf s1 → e < length (execution_heap s1) →
    let s' := Execution_afterRun e s1 in
    hasExecuted (state (execution_at s' e)) = true ∧
    isExecuting (state (execution_at s' e)) = false ∧
    (removeAfterExecute (parameters (execution_at s1 e)) = true →
     absent s' e)) as Hend.
  { intros e s1 Hwf He s'.
    destruct (Execution_afterRun_state e s1 He) as [Hi Hh].
    repeat split; [done..|]. intros Hra.
    eapply (wf_at_absent (eq e)); [|done].
    by apply Execution_afterRun_retires. }
  split; [|split; [|split]].
  - unfold emitEvent. destruct (find_event s name); [|done].
    by rewrite Event_execute_fold.
  - intros r e Hwf Hfind He Hd. unfold emitEvent.
    rewrite Hfind, Event_execute_fold. cbn [snd].
    pose proof Hfind as [Hin _]%find_event_Some.
    destruct (executions_of_registered s r Hwf Hin)
      as (ev & _ & _ & Hnd & Hx).
    rewrite (trace_fold_execute user args _ s s Hnd)
      by (intros; split; [auto|done]).
    eexists. split; [reflexivity|].
    apply (list_elem_of_fmap_2
             (λ e, Invoked e (callbackFunction (execution_at s e)) args)).
    by apply list_elem_of_filter.
  - intros e Hwf He Hd Hthrow s'. subst s'.
    rewrite Execution_execute_unfold by done. cbn zeta. rewrite Hthrow.
    cbn [fst snd]. split; [done|].
    set (s1 := run_calls _ _).
    assert (extends (eq e) s s1) as Hext.
    { etrans; [by apply extends_calling|apply extends_run_calls]. }
    destruct (lookup_lt_is_Some_2 _ _ He) as [x Hx].
    destruct (extends_execution_at _ _ _ _ _ Hext Hx)
      as (He1 & _ & _ & Hpar & _).
    unfold execution_at at 3. rewrite (list_lookup_total_correct _ _ _ Hx).
    rewrite <- Hpar. apply Hend; [|done].
    by apply wf_run_calls, wf_calling.
  - intros e i Hwf He Hi s'. subst s'. unfold resume. rewrite Hi.
    apply (Hend e (set_awaiting (delete i) s)); [|done].
    by apply wf_set_awaiting.
Qed.

(** C9.  Whatever else it does, a call of [execute] on an allocated
    execution leaves the timer named by its [expirationTimeout] not
    pending, and the execution without any pending timer: this holds when
    the guard drops the trigger ([dropped s e] is not assumed to be
    [false]).  From the trigger on, neither [execute] itself nor any
    later job of the event loop calls the expiration callback of the
    execution. *)
Theorem trigger_disarms_expiration e args s :
  wf s → e < length (execution_heap s) →
  let s' := snd (Execution_execute user e args s) in
  pending s' (expirationTimeout (state (execution_at s e))) = false ∧
  disarmed_in (timers s') e ∧
  ∀ os k, trace (run user os s') = trace s ++ k → ∀ cb, Expired e cb ∉ k.
Proof.
  intros Hwf He s'.
  assert (wf_at (λ _, False) (eq e) (stopAutomaticCancellation e s)) as H1.
  { apply wf_at_disarmed.
    - by apply wf_stopAutomaticCancellation.
    - by rewrite execution_heap_stopAutomaticCancellation.
    - by eapply disarmed_stopAutomaticCancellation. }
  assert (wf_at (λ _, False) (eq e) s') as H2.
  { unfold s'. rewrite <- Execution_execute_disarmed.
    by apply wf_Execution_execute. }
  pose proof (wf_disarmed_timers _ _ _ (wf_wf_disarmed _ _ _ H2) e eq_refl)
    as Hd.
  split; [|split; [done|]].
  - eapply (pending_extends (eq e) (stopAutomaticCancellation e s)).
    + unfold s'. rewrite <- Execution_execute_disarmed.
      by apply extends_Execution_execute.
    + destruct (lookup_lt_is_Some_2 _ _ He) as [x Hx].
      unfold execution_at. rewrite (list_lookup_total_correct _ _ _ Hx).
      rewrite <- (execution_heap_stopAutomaticCancellation e s) in Hx.
      by eapply (wf_execution_timer _ _ (wf_wf_timers _ _ _ H1)).
    + apply pending_stopAutomaticCancellation.
  - intros os k Hk cb. apply expirations_in_nil_not_elem_of.
    pose proof (disarmed_never_expires user _ e s' os H2) as Hrun.
    rewrite Hk in Hrun. unfold s' in Hrun.
    rewrite trace_Execution_execute, !expirations_in_app in Hrun.
    assert (expirations_in
              (if dropped s e then []
               else [Invoked e (callbackFunction (execution_at s e)) args]) e
            = []) as Hnil by by destruct (dropped s e).
    rewrite Hnil, app_nil_r in Hrun.
    apply (f_equal length) in Hrun. rewrite length_app in Hrun.
    destruct (expirations_in k e); [done|simpl in Hrun; lia].
Qed.

(** C10.  [remove()] of the handle returned by a subscription is a total
    function of the state: it has no abrupt completion.  In a well-formed
    state, after one call no execution of the event registered under the
    name of the subscription has the handle's id, and a second call
    changes nothing that can be observed of the machine state (only a
    fresh array object with the same elements may have replaced the
    event's array). *)
Theorem remove_twice_is_remove_once name cb params s0 s :
  wf s →
  let h := fst (addEvent name cb params s0) in
  let s1 := la_remove h s in
  let s2 := la_remove h s1 in
  view s2 = view s1 ∧
  ∀ r e, find_event s1 name = Some r →
    e ∈ executions_of s1 r → Execution_getID s1 e ≠ la_executionId h.
Proof.
  intros Hwf h s1 s2. subst s1 s2. unfold h.
  rewrite la_remove_addEvent. clear h.
  generalize (la_executionId (fst (addEvent name cb params s0))).
  intros id.
  destruct (find_event s name) as [r|] eqn:Hfind.
  2:{ assert (removeExecution name id s = s) as ->.
      { unfold removeExecution. by rewrite Hfind. }
      assert (removeExecution name id s = s) as ->.
      { unfold removeExecution. by rewrite Hfind. }
      split; [done|]. intros r e Hr. congruence. }
  pose proof Hfind as [Hin _]%find_event_Some.
  destruct (executions_of_registered s r Hwf Hin) as (ev0 & Hev0 & _).
  destruct (Event_removeExecution_spec r id s ev0 Hev0)
    as (Hex & Hevs & Hn & Hids).
  pose proof (wf_Event_removeExecution _ _ r id s Hwf) as Hwf1.
  set (s1 := Event_removeExecution r id s) in *.
  assert (∀ e, e ∈ executions_of s1 r → Execution_getID s1 e ≠ id) as Hgone.
  { intros e. rewrite Hex, Hids. by intros [? _]%list_elem_of_filter. }
  assert (find_event s1 name = Some r) as Hfind1.
  { rewrite <- Hfind. apply find_event_ext; auto. }
  destruct (Nat.eqb (Event_getTotalExecutions s1 r) 0) eqn:Hzero.
  - assert (removeExecution name id s
            = set_events
                (List.filter
                   (λ r, negb (String.eqb (Event_getEventName s1 r) name)))
                s1) as ->.
    { unfold removeExecution. rewrite Hfind. fold s1. by rewrite Hzero. }
    pose proof (find_event_removed name s1 s1 (λ _, eq_refl)) as Hgone1.
    assert (∀ s', find_event s' name = None → removeExecution name id s' = s')
      as Hid.
    { intros s' Hs'. unfold removeExecution. by rewrite Hs'. }
    rewrite Hid by done. split; [done|]. intros r' e. by rewrite Hgone1.
  - assert (removeExecution name id s = s1) as ->.
    { unfold removeExecution. rewrite Hfind. fold s1. by rewrite Hzero. }
    assert (r < length (event_heap s1)) as Hr1.
    { simpl. rewrite length_alter. by eapply lookup_lt_Some. }
    destruct (lookup_lt_is_Some_2 _ _ Hr1) as [ev1 Hev1].
    destruct (Event_removeExecution_spec r id s1 ev1 Hev1) as (Hex2 & _).
    assert (removeExecution name id s1 = Event_removeExecution r id s1) as ->.
    { unfold removeExecution. rewrite Hfind1.
      unfold Event_getTotalExecutions in *.
      by rewrite Hex2, filter_all, Hzero. }
    split; [by apply view_Event_removeExecution_absent|].
    intros r' e Hr'. rewrite Hfind1 in Hr'. injection Hr' as <-.
    apply Hgone.
Qed.

(** C4, as amended.  The id handed out by [addEvent] is the value of the
    execution counter of the [Event] object the execution is added to.
    As long as the same object stays registered under the name, a later
    subscription gets a strictly larger id, whatever happens in between;
    when no event is registered under the name, because the event was
    dropped with its last execution, the subscription creates a new
    object and gets the id 0 again. *)
Theorem execution_ids_increase_within_one_event name cb1 p1 os cb2 p2 s :
  wf s →
  let h1 := fst (addEvent name cb1 p1 s) in
  let s1 := snd (addEvent name cb1 p1 s) in
  let s2 := run user os s1 in
  let h2 := fst (addEvent name cb2 p2 s2) in
  (find_event s2 name = find_event s1 name →
   (la_executionId h1 < la_executionId h2)%Z) ∧
  (find_event s2 name = None → la_executionId h2 = 0%Z).
Proof.
  intros Hwf h1 s1 s2 h2.
  destruct (addEvent_spec name cb1 p1 s Hwf)
    as (r & ev & x & Hfind1 & _ & Hev & Hctr & _).
  fold s1 in Hfind1, Hev. fold h1 in Hctr.
  assert (wf s2) as Hwf2 by by apply wf_run, wf_addEvent.
  destruct (addEvent_spec name cb2 p2 s2 Hwf2)
    as (r2 & _ & _ & _ & Hold & _).
  fold h2 in Hold. split.
  - intros Hsame. rewrite Hfind1 in Hsame.
    destruct Hold as [[Hfind2 ->]|[Hfind2 _]]; [|congruence].
    assert (r2 = r) as -> by congruence.
    destruct (ext_event _ _ _ (extends_run user os s1) _ _ Hev)
      as (ev2 & Hev2 & _ & _ & Hle).
    unfold event_at. rewrite (list_lookup_total_correct _ _ _ Hev2). lia.
  - intros Hnone. destruct Hold as [[Hfind2 _]|[_ [-> _]]]; congruence.
Qed.

End Claims.

(** C2.  None of the removals of the emitter touches a timer:
    [removeExecution], [removeEvent] and [removeAllEvents] leave every
    timer as it is.  So an execution with an expiration that is removed
    through its handle or with its event keeps its pending timer, and when
    the timer fires its expiration callback is called, although
    [Execution.cancel] (the removal used by the execution itself) does
    disarm the timer. *)
Theorem registry_removal_keeps_timer_pending :
  (∀ name id s, timers (removeExecution name id s) = timers s) ∧
  (∀ name s, timers (removeEvent name s) = timers s) ∧
  (∀ s, timers (removeAllEvents s) = timers s) ∧
  pending ticking 1 = true ∧
  pending (removeExecution "tick" 0 ticking) 1 = true ∧
  events (removeExecution "tick" 0 ticking) = [] ∧
  trace (run user_quiet [OpCall (CallRemoveExecution "tick" 0); OpTimer 0]
           ticking) = [Expired 0 (Some 9)] ∧
  trace (run user_quiet [OpCall (CallRemoveEvent "tick"); OpTimer 0] ticking)
  = [Expired 0 (Some 9)] ∧
  pending (Execution_cancel 0 ticking) 1 = false.
Proof.
  split; [|split; [|split]]; [| | |by vm_compute].
  - intros name id s. unfold removeExecution.
    destruct (find_event s name); [|done]. by destruct (Nat.eqb _ 0).
  - done.
  - done.
Qed.

(** C3.  [Execution.cancel] never changes the emitter's list of events.
    So when the last execution of an event removes itself, after a run
    under [removeAfterExecute] or on expiration, the event stays
    registered with an empty list, in a reachable state; the removal
    through the handle does drop the event. *)
Theorem self_removal_leaves_empty_event :
  (∀ e s, events (Execution_cancel e s) = events s) ∧
  (let s := run user_quiet
              [OpCall (CallAddEvent "a" 1 oneshot); OpEmit "a" []; OpResume 0]
              initial in
   reachable user_quiet s ∧ find_event s "a" = Some 0 ∧
   Event_getTotalExecutions s 0 = 0) ∧
  (let s := run user_quiet [OpCall (CallAddEvent "a" 1 expiring); OpTimer 0]
              initial in
   reachable user_quiet s ∧ find_event s "a" = Some 0 ∧
   Event_getTotalExecutions s 0 = 0) ∧
  events (run user_quiet
            [OpCall (CallAddEvent "a" 1 oneshot);
             OpCall (CallRemoveExecution "a" 0)] initial) = [].
Proof.
  split; [|split; [|split]].
  - intros e s. unfold Execution_cancel, stopAutomaticCancellation, clearTimeout.
    simpl. destruct (_ =? _)%Z; [done|]. by destruct (0 <? _)%Z.
  - split; [|by vm_compute]. apply reachable_run, reachable_initial.
  - split; [|by vm_compute]. apply reachable_run, reachable_initial.
  - by vm_compute.
Qed.

(** ** Instances and counterexamples *)

Lemma emit_triggers_snapshot_in_order_witness :
  wf two_listeners ∧ find_event two_listeners "data" = Some 0 ∧
  executions_of
    (snd (emitEvent user_first_throws "data" [VNum 7] two_listeners)) 0
  = [1] ∧
  trace (snd (emitEvent user_first_throws "data" [VNum 7] two_listeners))
  = [Invoked 0 1 [VNum 7]; Invoked 1 2 [VNum 7]].
Proof.
  assert (wf two_listeners) as Hwf.
  { apply (reachable_wf user_first_throws), reachable_run, reachable_initial. }
  assert (find_event two_listeners "data" = Some 0) as Hfind by reflexivity.
  split; [exact Hwf|]. split; [exact Hfind|]. split; [reflexivity|].
  destruct (emit_triggers_snapshot_in_order user_first_throws "data" 0
              [VNum 7] two_listeners Hwf Hfind) as (_ & Htrace & _).
  rewrite Htrace. reflexivity.
Defined.

(** C4 as stated fails: subscribe, remove, subscribe again to the same
    name, and both handles carry the id 0. *)
Lemma execution_id_reused_after_event_recreated :
  let r1 := addEvent "a" 1 None initial in
  let s2 := la_remove (fst r1) (snd r1) in
  let r2 := addEvent "a" 1 None s2 in
  la_executionId (fst r1) = 0%Z ∧ la_executionId (fst r2) = 0%Z ∧
  events s2 = [].
Proof. by vm_compute. Qed.

Lemma execution_ids_increase_within_one_event_witness :
  wf initial ∧
  let s1 := snd (addEvent "a" 1 None initial) in
  let s2 := run user_quiet [OpCall (CallAddEvent "a" 2 None);
                            OpCall (CallRemoveExecution "a" 0)] s1 in
  find_event s2 "a" = find_event s1 "a" ∧
  (la_executionId (fst (addEvent "a" 1%nat None initial))
   < la_executionId (fst (addEvent "a" 3%nat None s2)))%Z.
Proof.
  split; [exact wf_initial|]. split; [reflexivity|].
  apply (execution_ids_increase_within_one_event user_quiet "a" 1 None
           [OpCall (CallAddEvent "a" 2 None);
            OpCall (CallRemoveExecution "a" 0)]
           3 None initial wf_initial).
  reflexivity.
Defined.

Lemma callback_errors_are_contained_witness :
  wf two_listeners ∧ find_event two_listeners "data" = Some 0 ∧
  1 ∈ executions_of two_listeners 0 ∧ dropped two_listeners 1 = false ∧
  throws (user_first_throws 1 [] (calling 0 [] two_listeners)) = true ∧
  fst (emitEvent user_first_throws "data" [] two_listeners) = Normal ∧
  (∃ k, trace (snd (emitEvent user_first_throws "data" [] two_listeners))
        = trace two_listeners ++ k ∧ Invoked 1 2 [] ∈ k) ∧
  absent (snd (Execution_execute user_first_throws 0 [] two_listeners)) 0.
Proof.
  pose proof (reachable_user_wf user_first_throws
    [OpCall (CallAddEvent "data" 1 oneshot);
     OpCall (CallAddEvent "data" 2 None)]) as Hwf.
  destruct (callback_errors_are_contained user_first_throws "data" []
              two_listeners) as (H1 & H2 & H3 & _).
  assert (1 ∈ executions_of two_listeners 0) as Hin.
  { vm_compute. apply list_elem_of_In. simpl. auto. }
  split; [exact Hwf|]. split; [reflexivity|]. split; [exact Hin|].
  split; [reflexivity|]. split; [reflexivity|]. split; [exact H1|].
  split; [exact (H2 0 1 Hwf eq_refl Hin eq_refl)|].
  destruct (H3 0 Hwf) as (_ & _ & _ & H4); [vm_compute; lia|reflexivity..|].
  exact (H4 eq_refl).
Defined.

(** C8 as stated fails when the expiration callback throws: the error
    leaves the timer callback before [this.cancel()] is reached, and the
    execution stays in the list of its event. *)
Lemma expiration_with_throwing_onExpire_stays_attached :
  let s := run user_onExpire_throws
             [OpCall (CallAddEvent "tick" 1 expiring)] initial in
  timers s !! 0 = Some {| timer_owner := 0; timer_pending := true |} ∧
  fst (fire_timer user_onExpire_throws 0 s) = Throw ∧
  trace (snd (fire_timer user_onExpire_throws 0 s)) = [Expired 0 (Some 9)] ∧
  find_event (snd (fire_timer user_onExpire_throws 0 s)) "tick" = Some 0 ∧
  executions_of (snd (fire_timer user_onExpire_throws 0 s)) 0 = [0].
Proof. by vm_compute. Qed.

Lemma trigger_disarms_expiration_witness :
  wf ticking ∧ (0 < length (execution_heap ticking))%nat ∧
  pending ticking 1 = true ∧
  pending (snd (Execution_execute user_quiet 0 [] ticking)) 1 = false.
Proof.
  assert (wf ticking) as Hwf by exact (wf_addEvent _ _ _ _ _ _ wf_initial).
  assert (0 < length (execution_heap ticking)) as Hlt by (vm_compute; lia).
  split; [exact Hwf|]. split; [exact Hlt|]. split; [reflexivity|].
  exact (proj1 (trigger_disarms_expiration user_quiet 0 [] ticking Hwf Hlt)).
Defined.

Lemma remove_twice_is_remove_once_witness :
  let h := fst (addEvent "a" 1 None initial) in
  wf two_on_a ∧
  view (la_remove h (la_remove h two_on_a)) = view (la_remove h two_on_a) ∧
  executions_of (la_remove h two_on_a) 0 = [1].
Proof.
  pose proof (reachable_user_wf user_quiet
    [OpCall (CallAddEvent "a" 1 None); OpCall (CallAddEvent "a" 2 None)])
    as Hwf.
  split; [exact Hwf|]. split; [|reflexivity].
  exact (proj1 (remove_twice_is_remove_once "a" 1 None initial two_on_a
                  Hwf)).
Defined.

(** * Further properties of the emitter *)

(** ** The registry *)

Lemma registry_event s s' :
  registry s' = registry s →
  events s' = events s ∧ eventIds s' = eventIds s ∧
  length (event_heap s') = length (event_heap s) ∧
  ∀ r, Event_getEventName s' r = Event_getEventName s r ∧
       Event_getID s' r = Event_getID s r.
Proof.
  unfold registry. intros [= Hev Hid Hh].
  split; [done|]. split; [done|]. split.
  { apply (f_equal length) in Hh. by rewrite !length_fmap in Hh. }
  intros r. apply (f_equal (λ l, l !! r)) in Hh.
  rewrite !list_lookup_fmap in Hh.
  unfold Event_getEventName, Event_getID, event_at.
  rewrite !list_lookup_total_alt.
  destruct (event_heap s' !! r), (event_heap s !! r); simplify_eq/=; done.
Qed.

Lemma registry_update_event r f s :
  (∀ ev, eventName (f ev) = eventName ev ∧ eventId (f ev) = eventId ev) →
  registry (update_event r f s) = registry s.
Proof.
  intros Hf. unfold registry. simpl. f_equal.
  rewrite (list_fmap_alter _ f id).
  - by apply list_alter_id.
  - apply Forall_forall. intros ev _. simpl. by destruct (Hf ev) as [-> ->].
Qed.

Lemma registry_Event_removeExecution r id s :
  registry (Event_removeExecution r id s) = registry s.
Proof.
  unfold Event_removeExecution. by rewrite registry_update_event.
Qed.

Lemma registry_stopAutomaticCancellation e s :
  registry (stopAutomaticCancellation e s) = registry s.
Proof.
  unfold stopAutomaticCancellation, clearTimeout.
  destruct (_ =? _)%Z; [done|]. by destruct (0 <? _)%Z.
Qed.

Lemma registry_Execution_cancel e s :
  registry (Execution_cancel e s) = registry s.
Proof.
  unfold Execution_cancel.
  by rewrite registry_Event_removeExecution,
    registry_stopAutomaticCancellation.
Qed.

Lemma registry_Execution_afterRun e s :
  registry (Execution_afterRun e s) = registry s.
Proof.
  unfold Execution_afterRun.
  destruct (removeAfterExecute _); [|done].
  by rewrite registry_Execution_cancel.
Qed.

Lemma registry_Event_addExecution r cb params s :
  registry (snd (Event_addExecution r cb params s)) = registry s.
Proof.
  unfold Event_addExecution.
  destruct (Execution_new_spec r (executionCounter (event_at s r)) cb
              params s) as (x & ts & -> & _).
  cbn [snd]. by rewrite registry_update_event.
Qed.

Lemma sublist_List_filter {A} (f : A → bool) (l : list A) :
  List.filter f l `sublist_of` l.
Proof.
  induction l as [|x l IH]; simpl; [done|].
  destruct (f x); [by apply sublist_skip|by apply sublist_cons].
Qed.

Lemma find_event_None s name :
  find_event s name = None ↔
  ∀ r, r ∈ events s → Event_getEventName s r ≠ name.
Proof.
  unfold find_event. split.
  - intros Hnone r Hr%list_elem_of_In Heq.
    apply (List.find_none _ _ Hnone) in Hr.
    by rewrite Heq, String.eqb_refl in Hr.
  - intros Hall. destruct (List.find _ _) as [r|] eqn:Hfind; [|done].
    apply List.find_some in Hfind as [Hin Heq%String.eqb_eq].
    by apply list_elem_of_In, Hall in Hin.
Qed.

(** What [addEvent] does to the registry: nothing when the name is
    registered; otherwise one [Event] object is created and registered, and
    the counter of event ids is incremented twice. *)
Lemma registry_addEvent name cb params s :
  registry (snd (addEvent name cb params s))
  = match find_event s name with
    | Some _ => registry s
    | None =>
        (events s ++ [length (event_heap s)], (eventIds s + 2)%Z,
         ((λ ev, (eventName ev, eventId ev)) <$> event_heap s)
           ++ [(name, eventIds s)])
    end.
Proof.
  unfold addEvent. destruct (find_event s name) as [r|].
  - pose proof (registry_Event_addExecution r cb params s) as H.
    by destruct (Event_addExecution r cb params s).
  - simpl.
    set (s1 := set_events _ _).
    pose proof (registry_Event_addExecution (length (event_heap s)) cb
                  params s1) as H.
    destruct (Event_addExecution _ _ _ _) as [i s2]. cbn [snd] in *.
    rewrite H. unfold registry, s1. simpl. rewrite fmap_app. simpl.
    do 2 f_equal. lia.
Qed.

(** Seen from the registry, [removeExecution] does nothing or is
    [removeEvent]. *)
Lemma registry_removeExecution name id s :
  registry (removeExecution name id s) = registry s ∨
  registry (removeExecution name id s) = registry (removeEvent name s).
Proof.
  unfold removeExecution. destruct (find_event s name) as [r|]; [|by left].
  destruct (Nat.eqb _ 0); [right|left; apply registry_Event_removeExecution].
  pose proof (registry_event _ _ (registry_Event_removeExecution r id s))
    as (Hev & Hid & _ & Hn).
  unfold registry, removeEvent. simpl.
  change (event_heap (Event_removeExecution r id s))
    with (alter (set_executions (length (array_heap s))) r (event_heap s)).
  f_equal; [f_equal|].
  - change (events (Event_removeExecution r id s)) with (events s).
    apply List.filter_ext. intros r'. by destruct (Hn r') as [-> _].
  - pose proof (registry_Event_removeExecution r id s) as Hreg.
    unfold registry in Hreg. by injection Hreg.
Qed.

(** *** Work on the objects that exist *)

Lemma same_objects_refl s : same_objects s s.
Proof. by split; [|split]. Qed.

Lemma same_objects_trans s1 s2 s3 :
  same_objects s1 s2 → same_objects s2 s3 → same_objects s1 s3.
Proof.
  intros (H1 & H2 & H3) (G1 & G2 & G3). split; [congruence|].
  split; [by etrans|congruence].
Qed.

Lemma same_objects_stopAutomaticCancellation e s :
  same_objects s (stopAutomaticCancellation e s).
Proof.
  split; [apply registry_stopAutomaticCancellation|].
  split; [apply extends_stopAutomaticCancellation|].
  by rewrite execution_heap_stopAutomaticCancellation.
Qed.

Lemma same_objects_Execution_cancel e s :
  same_objects s (Execution_cancel e s).
Proof.
  split; [apply registry_Execution_cancel|].
  split; [apply extends_Execution_cancel|].
  by rewrite execution_heap_Execution_cancel.
Qed.

Lemma same_objects_Execution_afterRun e s :
  same_objects s (Execution_afterRun e s).
Proof.
  split; [apply registry_Execution_afterRun|].
  split; [by apply extends_Execution_afterRun|].
  unfold Execution_afterRun. destruct (removeAfterExecute _).
  - rewrite execution_heap_Execution_cancel. simpl.
    by rewrite !length_alter.
  - simpl. by rewrite !length_alter.
Qed.

Lemma same_objects_calling e args s : same_objects s (calling e args s).
Proof.
  split; [|split].
  - unfold calling. apply registry_stopAutomaticCancellation.
  - by apply extends_calling.
  - unfold calling. simpl.
    by rewrite length_alter, execution_heap_stopAutomaticCancellation.
Qed.

Lemma same_objects_set_awaiting f s : same_objects s (set_awaiting f s).
Proof. split; [done|]. split; [apply extends_set_awaiting|done]. Qed.

Lemma same_objects_expiring t e cb s :
  same_objects s (log (Expired e cb) (set_timers (alter disarm t) s)).
Proof.
  split; [done|]. split; [|done].
  etrans; [|apply extends_log].
  destruct (extends_refl (λ _, True) s) as [? ? ? ? ? _ ?].
  split; try done; simpl. intros t' tm Ht'.
  destruct (decide (t = t')) as [->|Hne].
  - eexists. rewrite list_lookup_alter_eq, Ht'. simpl. done.
  - exists tm. by rewrite list_lookup_alter_ne.
Qed.

Section Invariant.

Variable user : callback → list value → State → Behaviour.

(** A property of machine states that work on the existing objects keeps
    and that the four methods of the emitter called by the program
    keep. *)
Variable J : State → Prop.
Hypothesis J_frame : ∀ s s', same_objects s s' → J s → J s'.
Hypothesis J_run_call : ∀ c s, wf s → J s → J (run_call c s).

Lemma J_run_calls cs s : wf s → J s → J (run_calls cs s).
Proof.
  revert s. induction cs as [|c cs IH]; intros s Hwf HJ; simpl; [done|].
  apply IH; [by apply wf_run_call|by apply J_run_call].
Qed.

Lemma J_call_user cb args s : wf s → J s → J (snd (call_user user cb args s)).
Proof. apply J_run_calls. Qed.

Lemma J_Execution_execute e args s :
  wf s → J s → J (snd (Execution_execute user e args s)).
Proof.
  intros Hwf HJ.
  destruct (dropped s e) eqn:Hd.
  - unfold Execution_execute. unfold dropped in Hd.
    rewrite !execution_at_stopAutomaticCancellation, Hd. cbn [snd].
    eapply J_frame; [|done]. apply same_objects_stopAutomaticCancellation.
  - rewrite Execution_execute_unfold by done. cbn zeta.
    assert (J (run_calls
                 (calls (user (callbackFunction (execution_at s e)) args
                           (calling e args s))) (calling e args s))) as H1.
    { apply J_run_calls; [by apply wf_calling|].
      eapply J_frame; [|done]. apply same_objects_calling. }
    destruct (throws _); cbn [snd].
    + eapply J_frame; [|done]. apply same_objects_Execution_afterRun.
    + eapply J_frame; [|done]. apply same_objects_set_awaiting.
Qed.

Lemma J_forEach f a k n s :
  (∀ x s, wf s → J s → J (snd (f x s))) →
  (∀ x s, wf s → wf (snd (f x s))) →
  wf s → J s → J (snd (forEach f a k n s)).
Proof.
  intros Hf Hwf. revert k s. induction n as [|n IH]; intros k s H HJ; simpl;
    [done|].
  destruct (array_at s a !! k) as [x|]; [|by apply IH].
  pose proof (Hf x s H HJ) as Hx. pose proof (Hwf x s H) as Hx'.
  destruct (f x s) as [[] s1]; simpl in *; [by apply IH|done].
Qed.

Lemma J_emitEvent name args s :
  wf s → J s → J (snd (emitEvent user name args s)).
Proof.
  intros Hwf HJ. unfold emitEvent. destruct (find_event s name); [|done].
  apply J_forEach; [| |done..].
  - intros. by apply J_Execution_execute.
  - intros. by apply wf_Execution_execute.
Qed.

Lemma J_fire_timer t s : wf s → J s → J (snd (fire_timer user t s)).
Proof.
  intros Hwf HJ. unfold fire_timer.
  destruct (timers s !! t) as [tm|] eqn:Ht; [|done].
  destruct (timer_pending tm) eqn:Hp; [|done].
  unfold expiration_closure.
  set (s1 := log _ _).
  assert (wf s1) as Hwf1.
  { pose proof (wf_timer_owner _ _ (wf_wf_timers _ _ _ Hwf) _ _ Ht) as He.
    pose proof (pending_timer_not_expired _ _ s t tm Hwf Ht Hp) as Hn.
    pose proof (pending_timer_unique _ _ s t tm Hwf Ht Hp) as Hu.
    destruct (wf_disarm _ _ t s Hwf) as [H1 H2 H3 H4 H5 H6].
    split; simpl; [done|done| |done..].
    by apply wf_trace_log_Expired. }
  assert (J s1) as HJ1.
  { eapply J_frame; [|exact HJ]. apply same_objects_expiring. }
  destruct (exp_callback _) as [f|].
  - pose proof (J_call_user f [] s1 Hwf1 HJ1) as H.
    destruct (call_user _ _ _ _) as [[] s2]; cbn [snd] in *; [|done].
    eapply J_frame; [|exact H]. apply same_objects_Execution_cancel.
  - cbn [snd]. eapply J_frame; [|exact HJ1].
    apply same_objects_Execution_cancel.
Qed.

Lemma J_resume k s : J s → J (resume k s).
Proof.
  intros HJ. unfold resume. destruct (awaiting s !! k); [|done].
  eapply J_frame; [|exact HJ].
  eapply same_objects_trans; [apply same_objects_set_awaiting|].
  apply same_objects_Execution_afterRun.
Qed.

Lemma J_step o s : wf s → J s → J (snd (step user o s)).
Proof.
  destruct o; simpl;
    auto using J_run_call, J_emitEvent, J_fire_timer, J_resume.
Qed.

Lemma J_run os s : wf s → J s → J (run user os s).
Proof.
  revert s. induction os as [|o os IH]; intros s Hwf HJ; simpl; [done|].
  apply IH; [by apply wf_step|by apply J_step].
Qed.

End Invariant.

(** ** Names and ids of events *)

Lemma addEvent_registry_new name cb params s :
  find_event s name = None →
  let n := length (event_heap s) in
  let s1 := snd (addEvent name cb params s) in
  events s1 = events s ++ [n] ∧ eventIds s1 = (eventIds s + 2)%Z ∧
  length (event_heap s1) = S n ∧
  (∀ r, r < n → Event_getEventName s1 r = Event_getEventName s r ∧
                Event_getID s1 r = Event_getID s r) ∧
  Event_getEventName s1 n = name ∧ Event_getID s1 n = eventIds s.
Proof.
  intros Hfind n s1.
  pose proof (registry_addEvent name cb params s) as Hreg.
  rewrite Hfind in Hreg. fold s1 in Hreg. unfold registry in Hreg.
  injection Hreg as Hev Hid Hh.
  split; [done|]. split; [done|]. split.
  { apply (f_equal length) in Hh.
    rewrite length_app, !length_fmap in Hh. simpl in Hh. unfold n. lia. }
  assert (∀ r, (Event_getEventName s1 r, Event_getID s1 r)
    = default (Event_getEventName s1 r, Event_getID s1 r)
        ((((λ ev, (eventName ev, eventId ev)) <$> event_heap s)
           ++ [(name, eventIds s)]) !! r)) as Hr.
  { intros r. rewrite <- Hh, list_lookup_fmap.
    unfold Event_getEventName, Event_getID, event_at.
    rewrite list_lookup_total_alt. by destruct (event_heap s1 !! r). }
  split.
  - intros r Hlt. specialize (Hr r).
    rewrite lookup_app_l, list_lookup_fmap in Hr
      by (by rewrite length_fmap).
    destruct (lookup_lt_is_Some_2 _ _ Hlt) as [ev Hev'].
    unfold Event_getEventName at 2, Event_getID at 2, event_at.
    rewrite (list_lookup_total_correct _ _ _ Hev').
    rewrite Hev' in Hr. simpl in Hr. by injection Hr as -> ->.
  - specialize (Hr n).
    rewrite lookup_app_r in Hr by (rewrite length_fmap; unfold n; lia).
    rewrite length_fmap in Hr. unfold n in Hr at 3.
    rewrite Nat.sub_diag in Hr. simpl in Hr. by injection Hr as -> ->.
Qed.

Lemma names_unique_registry s s' :
  registry s' = registry s → names_unique s → names_unique s'.
Proof.
  intros (Hev & _ & _ & Hn)%registry_event. unfold names_unique.
  rewrite Hev. intros H. erewrite list_fmap_ext; [exact H|].
  intros i r _. by destruct (Hn r).
Qed.

Lemma names_unique_removeEvent name s :
  names_unique s → names_unique (removeEvent name s).
Proof.
  unfold names_unique, removeEvent. simpl. intros H.
  eapply sublist_NoDup; [exact H|].
  apply fmap_sublist, sublist_List_filter.
Qed.

Lemma names_unique_run_call c s :
  wf s → names_unique s → names_unique (run_call c s).
Proof.
  intros Hwf H. destruct c as [name cb params|name|name id|]; simpl.
  - destruct (find_event s name) as [r|] eqn:Hfind.
    + eapply names_unique_registry; [|exact H].
      by rewrite registry_addEvent, Hfind.
    + destruct (addEvent_registry_new name cb params s Hfind)
        as (Hev & _ & _ & Hold & Hnew & _).
      unfold names_unique. rewrite Hev, fmap_app. simpl. rewrite Hnew.
      assert (Event_getEventName (snd (addEvent name cb params s))
                <$> events s = Event_getEventName s <$> events s) as ->.
      { apply list_fmap_ext. intros i r Hr%list_elem_of_lookup_2.
        apply Hold. by apply (wf_events _ _ _ _ (wf_wf_store _ _ _ Hwf)). }
      apply NoDup_app. split; [exact H|]. split; [|apply NoDup_singleton].
      intros x (r & -> & Hr)%list_elem_of_fmap Heq%list_elem_of_singleton.
      by apply (proj1 (find_event_None s name) Hfind r).
  - by apply names_unique_removeEvent.
  - destruct (registry_removeExecution name id s) as [Hreg|Hreg].
    + by eapply names_unique_registry.
    + eapply names_unique_registry; [exact Hreg|].
      by apply names_unique_removeEvent.
  - apply NoDup_nil_2.
Qed.

Lemma find_unique (f : ref → string) (l : list ref) r :
  NoDup (f <$> l) → r ∈ l →
  List.find (λ x, String.eqb (f x) (f r)) l = Some r.
Proof.
  induction l as [|x l IH]; simpl; [by intros _ ?%elem_of_nil|].
  intros [Hx Hl]%NoDup_cons Hr.
  destruct (String.eqb_spec (f x) (f r)) as [Heq|Hne].
  - apply elem_of_cons in Hr as [->|Hr]; [done|].
    destruct Hx. rewrite Heq. by apply list_elem_of_fmap_2.
  - apply elem_of_cons in Hr as [->|Hr]; [done|]. by apply IH.
Qed.

Lemma ids_by_creation_registry s s' :
  registry s' = registry s → ids_by_creation s → ids_by_creation s'.
Proof.
  intros (_ & Hid & Hlen & Hn)%registry_event [H1 H2].
  split; [by rewrite Hid, Hlen|].
  intros r Hr. destruct (Hn r) as [_ ->]. apply H2. by rewrite <- Hlen.
Qed.

Lemma ids_by_creation_run_call c s :
  ids_by_creation s → ids_by_creation (run_call c s).
Proof.
  intros H. destruct c as [name cb params|name|name id|]; simpl.
  - destruct (find_event s name) as [r|] eqn:Hfind.
    + eapply ids_by_creation_registry; [|exact H].
      by rewrite registry_addEvent, Hfind.
    + destruct (addEvent_registry_new name cb params s Hfind)
        as (_ & Hids & Hlen & Hold & _ & Hnew).
      destruct H as [H1 H2]. split; [rewrite Hids, Hlen, H1; lia|].
      intros r Hr. rewrite Hlen in Hr.
      destruct (decide (r = length (event_heap s))) as [->|Hne].
      * by rewrite Hnew.
      * destruct (Hold r) as [_ ->]; [lia|]. apply H2. lia.
  - done.
  - destruct (registry_removeExecution name id s) as [Hreg|Hreg];
      by eapply ids_by_creation_registry.
  - done.
Qed.

Lemma unregistered_registry r s s' :
  registry s' = registry s → unregistered r s → unregistered r s'.
Proof.
  intros (Hev & _ & Hlen & _)%registry_event. unfold unregistered.
  by rewrite Hev, Hlen.
Qed.

Lemma unregistered_run_call r c s :
  unregistered r s → unregistered r (run_call c s).
Proof.
  intros [Hr Hnot]. destruct c as [name cb params|name|name id|]; simpl.
  - destruct (find_event s name) as [r'|] eqn:Hfind.
    + eapply unregistered_registry; [|by split].
      by rewrite registry_addEvent, Hfind.
    + destruct (addEvent_registry_new name cb params s Hfind)
        as (Hev & _ & Hlen & _).
      split; [lia|]. rewrite Hev.
      intros [?|Heq%list_elem_of_singleton]%elem_of_app; [done|lia].
  - split; [done|]. simpl. intros Hin. apply Hnot.
    by apply (sublist_subseteq _ _ (sublist_List_filter _ _)) in Hin.
  - assert (unregistered r (removeEvent name s)) as Hrem.
    { split; [done|]. simpl. intros Hin. apply Hnot.
      by apply (sublist_subseteq _ _ (sublist_List_filter _ _)) in Hin. }
    destruct (registry_removeExecution name id s) as [Hreg|Hreg].
    + eapply unregistered_registry; [exact Hreg|by split].
    + by eapply unregistered_registry.
  - split; [done|]. simpl. by intros ?%elem_of_nil.
Qed.

Section Registered.
Variable user : callback → list value → State → Behaviour.

(** X1.  Whatever jobs have run on a fresh emitter, no two registered
    events have the same name, and the lookup by name with which
    [addEvent], [emitEvent] and [removeExecution] start finds, given the
    name of a registered event, that very event. *)
Theorem registered_names_are_unique os :
  let s := run user os initial in
  NoDup (Event_getEventName s <$> events s) ∧
  ∀ r, r ∈ events s → find_event s (Event_getEventName s r) = Some r.
Proof.
  intros s.
  assert (names_unique s) as H.
  { apply (J_run user names_unique).
    - intros s0 s' [Hreg _]. by apply names_unique_registry.
    - apply names_unique_run_call.
    - apply wf_initial.
    - apply NoDup_nil_2. }
  split; [exact H|]. intros r Hr. by apply find_unique.
Qed.

(** X2.  [addEvent] increments [eventIds] twice for every [Event] it
    creates.  Whatever jobs have run on a fresh emitter, the counter is
    twice the number of [Event] objects created so far and the [r]-th
    object created has the id [2 * r]; so the ids of the registered events
    are not negative, below the counter and pairwise distinct. *)
Theorem event_ids_count_by_two os :
  let s := run user os initial in
  eventIds s = (2 * Z.of_nat (length (event_heap s)))%Z ∧
  (∀ r, r ∈ events s →
     Event_getID s r = (2 * Z.of_nat r)%Z ∧
     (0 ≤ Event_getID s r < eventIds s)%Z) ∧
  (∀ r1 r2, r1 ∈ events s → r2 ∈ events s →
     Event_getID s r1 = Event_getID s r2 → r1 = r2).
Proof.
  intros s.
  assert (ids_by_creation s) as [H1 H2].
  { apply (J_run user ids_by_creation).
    - intros s0 s' [Hreg _]. by apply ids_by_creation_registry.
    - intros. by apply ids_by_creation_run_call.
    - apply wf_initial.
    - split; [done|]. simpl. lia. }
  assert (∀ r, r ∈ events s → r < length (event_heap s)) as Halloc.
  { apply (wf_events _ _ _ _ (wf_wf_store _ _ _ (reachable_user_wf user os))). }
  split; [exact H1|]. split.
  - intros r Hr%Halloc. rewrite (H2 r Hr). split; [done|]. lia.
  - intros r1 r2 Hr1%Halloc Hr2%Halloc. rewrite (H2 r1 Hr1), (H2 r2 Hr2). lia.
Qed.

End Registered.

(** ** What a job calls *)

Section Jobs.

Variable user : callback → list value → State → Behaviour.

Lemma trace_step o s :
  wf s → trace (snd (step user o s)) = trace s ++ calls_of o s.
Proof.
  intros Hwf. destruct o as [c|name args|t|k]; simpl.
  - by rewrite trace_run_call, app_nil_r.
  - unfold emitEvent. destruct (find_event s name) as [r|] eqn:Hfind.
    + rewrite Event_execute_fold. cbn [snd].
      pose proof Hfind as [Hin _]%find_event_Some.
      destruct (executions_of_registered s r Hwf Hin)
        as (ev & _ & _ & Hnd & Hx).
      apply trace_fold_execute; [done|]. intros e He. split; [auto|done].
    + by rewrite app_nil_r.
  - unfold fire_timer. destruct (timers s !! t) as [tm|]; simpl;
      [|by rewrite app_nil_r].
    destruct (timer_pending tm); [|by rewrite app_nil_r].
    by rewrite (trace_expiration_closure user).
  - by rewrite trace_resume, app_nil_r.
Qed.

Lemma subscribed_extends P s s' ob :
  extends P s s' → subscribed s ob → subscribed s' ob.
Proof.
  intros Hext. destruct ob as [e cb args|e cb]; simpl; intros [He ->];
    destruct (lookup_lt_is_Some_2 _ _ He) as [x Hx];
    destruct (extends_execution_at _ _ _ _ _ Hext Hx)
      as (He' & _ & _ & Hpar & Hcb & _);
    assert (execution_at s e = x) as ->
      by (by apply list_lookup_total_correct);
    split; congruence.
Qed.

Lemma subscribed_calls_of o s : wf s → Forall (subscribed s) (calls_of o s).
Proof.
  intros Hwf. destruct o as [c|name args|t|k]; simpl; [done| | |done].
  - destruct (find_event s name) as [r|] eqn:Hfind; [|done].
    pose proof Hfind as [Hin _]%find_event_Some.
    destruct (executions_of_registered s r Hwf Hin) as (ev & _ & _ & _ & Hx).
    apply Forall_forall.
    intros ob (e & -> & [_ He]%list_elem_of_filter)%list_elem_of_fmap.
    split; [|done]. by apply lookup_lt_is_Some, Hx.
  - destruct (timers s !! t) as [tm|] eqn:Ht; [|done].
    destruct (timer_pending tm); [|done].
    repeat constructor.
    by apply (wf_timer_owner _ _ (wf_wf_timers _ _ _ Hwf) _ _ Ht).
Qed.

Lemma subscribed_run os s :
  wf s → Forall (subscribed s) (trace s) →
  Forall (subscribed (run user os s)) (trace (run user os s)).
Proof.
  revert s. induction os as [|o os IH]; intros s Hwf H; simpl; [done|].
  apply IH; [by apply wf_step|].
  rewrite trace_step by done. apply Forall_app. split.
  - eapply Forall_impl; [exact H|]. intros ob.
    apply (subscribed_extends _ _ _ _ (extends_step user o s)).
  - eapply Forall_impl; [by apply subscribed_calls_of|]. intros ob.
    apply (subscribed_extends _ _ _ _ (extends_step user o s)).
Qed.

(** The callbacks of the executions of an [Event] object that is not
    registered are not called. *)
Lemma unregistered_never_invoked r os s k :
  wf s → unregistered r s → trace (run user os s) = trace s ++ k →
  ∀ e cb args, e < length (execution_heap s) →
    eventInstance (execution_at s e) = r → Invoked e cb args ∉ k.
Proof.
  revert s k. induction os as [|o os IH]; intros s k Hwf Hun Hk e cb args
    He Hr; simpl in Hk.
  { assert (k = []) as ->; [|by intros ?%elem_of_nil].
    apply (f_equal length) in Hk. rewrite length_app in Hk.
    destruct k; [done|simpl in Hk; lia]. }
  pose proof (extends_step user o s) as Hext.
  pose proof (trace_step o s Hwf) as Hstep.
  destruct (ext_trace _ _ _ (extends_run user os (snd (step user o s))))
    as [k1 Hk1].
  rewrite Hk1, Hstep, <- app_assoc in Hk. apply app_inv_head in Hk.
  subst k. intros [Hin|Hin]%elem_of_app.
  - destruct o as [c|name args'|t|i]; simpl in Hin;
      try by apply elem_of_nil in Hin.
    + destruct (find_event s name) as [r'|] eqn:Hfind;
        [|by apply elem_of_nil in Hin].
      apply list_elem_of_fmap in Hin as (e' & [= <- _ _] & Hin).
      apply list_elem_of_filter in Hin as [_ Hin].
      pose proof Hfind as [Hreg _]%find_event_Some.
      destruct (executions_of_registered s r' Hwf Hreg)
        as (ev & Hev & Ha & _).
      destruct (lookup_lt_is_Some_2 _ _ He) as [x Hx].
      pose proof (wf_owner _ _ _ _ (wf_wf_store _ _ _ Hwf) _ _ _ _ _
                    Hev Ha Hin Hx) as Hown.
      unfold execution_at in Hr.
      rewrite (list_lookup_total_correct _ _ _ Hx) in Hr.
      destruct Hun as [_ Hun]. apply Hun. congruence.
    + destruct (timers s !! t) as [tm|]; [|by apply elem_of_nil in Hin].
      destruct (timer_pending tm); [|by apply elem_of_nil in Hin].
      by apply list_elem_of_singleton in Hin.
  - destruct (lookup_lt_is_Some_2 _ _ He) as [x Hx].
    destruct (extends_execution_at _ _ _ _ _ Hext Hx) as (He' & Hr' & _).
    unfold execution_at in Hr.
    rewrite (list_lookup_total_correct _ _ _ Hx) in Hr.
    eapply (IH (snd (step user o s)) k1); [| |done|exact He'| |exact Hin].
    + by apply wf_step.
    + apply (J_step user (unregistered r)); try done.
      * intros s0 s' [Hreg _]. by apply unregistered_registry.
      * intros. by apply unregistered_run_call.
    + congruence.
Qed.

End Jobs.

(** [removeExecution] by name and id retires the execution that has the
    id. *)
Lemma removeExecution_retires name r e s :
  wf s → find_event s name = Some r → e ∈ executions_of s r →
  wf_at (eq e) (λ _, False) (removeExecution name (Execution_getID s e) s).
Proof.
  intros Hwf Hfind He.
  pose proof Hfind as [Hin _]%find_event_Some.
  destruct (executions_of_registered s r Hwf Hin) as (ev & Hev & Ha & _ & Hx).
  destruct (Hx e He) as [x Hxe].
  pose proof (wf_owner _ _ _ _ (wf_wf_store _ _ _ Hwf) _ _ _ _ _
                Hev Ha He Hxe) as Hown.
  assert (wf_at (eq e) (λ _, False)
            (Event_removeExecution r (Execution_getID s e) s)) as H1.
  { destruct (wf_Event_removeExecution _ _ r (Execution_getID s e) s Hwf)
      as [G1 G2 G3 _ G5 G6].
    split; try done. simpl.
    unfold Execution_getID, executions_of, array_at, event_at, execution_at.
    rewrite (list_lookup_total_correct _ _ _ Hxe). subst r.
    apply (wf_retired_retire (events s)); [by destruct Hwf|done]. }
  unfold removeExecution. rewrite Hfind.
  destruct (Nat.eqb _ 0); [|done].
  apply wf_set_events; [done|]. apply filter_subseteq_list.
Qed.

(** ** Suspended activations *)

Lemma awaiting_stopAutomaticCancellation e s :
  awaiting (stopAutomaticCancellation e s) = awaiting s.
Proof.
  unfold stopAutomaticCancellation, clearTimeout.
  destruct (_ =? _)%Z; [done|]. by destruct (0 <? _)%Z.
Qed.

Lemma awaiting_Execution_cancel e s :
  awaiting (Execution_cancel e s) = awaiting s.
Proof.
  unfold Execution_cancel. simpl. apply awaiting_stopAutomaticCancellation.
Qed.

Lemma awaiting_Execution_afterRun e s :
  awaiting (Execution_afterRun e s) = awaiting s.
Proof.
  unfold Execution_afterRun. destruct (removeAfterExecute _); [|done].
  by rewrite awaiting_Execution_cancel.
Qed.

Lemma awaiting_Event_addExecution r cb params s :
  awaiting (snd (Event_addExecution r cb params s)) = awaiting s.
Proof.
  unfold Event_addExecution.
  by destruct (Execution_new_spec r (executionCounter (event_at s r)) cb
                 params s) as (x & ts & -> & _).
Qed.

Lemma awaiting_addEvent name cb params s :
  awaiting (snd (addEvent name cb params s)) = awaiting s.
Proof.
  unfold addEvent. destruct (find_event s name) as [r|].
  - pose proof (awaiting_Event_addExecution r cb params s) as H.
    by destruct (Event_addExecution r cb params s).
  - simpl. set (s1 := set_events _ _).
    pose proof (awaiting_Event_addExecution (length (event_heap s)) cb
                  params s1) as H.
    by destruct (Event_addExecution _ _ _ _).
Qed.

Lemma awaiting_run_call c s : awaiting (run_call c s) = awaiting s.
Proof.
  destruct c as [name cb params|name|name id|]; simpl; [|done| |done].
  - apply awaiting_addEvent.
  - unfold removeExecution. destruct (find_event s name); [|done].
    by destruct (Nat.eqb _ 0).
Qed.

Lemma awaiting_run_calls cs s : awaiting (run_calls cs s) = awaiting s.
Proof.
  revert s. induction cs as [|c cs IH]; intros s; simpl; [done|].
  unfold run_calls in IH. by rewrite IH, awaiting_run_call.
Qed.

Lemma awaiting_fire_timer user t s :
  awaiting (snd (fire_timer user t s)) = awaiting s.
Proof.
  unfold fire_timer. destruct (timers s !! t) as [tm|]; [|done].
  destruct (timer_pending tm); [|done]. unfold expiration_closure.
  destruct (exp_callback _) as [f|]; cbn [snd].
  - unfold call_user. destruct (throws _); cbn [snd];
      by rewrite ?awaiting_Execution_cancel, awaiting_run_calls.
  - by rewrite awaiting_Execution_cancel.
Qed.

(** From [s] to [s'] the suspended activations are the same and only the
    executions in [E] had their state written: the invariant is kept if
    [isExecuting] is still set for those of them that are suspended. *)
Lemma oat_extends (E : ref → Prop) `{!∀ e, Decision (E e)} s s' :
  one_at_a_time s → extends E s s' → awaiting s' = awaiting s →
  (∀ e, E e → e ∈ awaiting s →
     onlyOneExecutionAtATime (parameters (execution_at s e)) = true →
     Execution_isExecuting s' e = true) →
  one_at_a_time s'.
Proof.
  intros [H1 H2 H3] Hext Haw HE.
  assert (∀ e, e ∈ awaiting s →
    onlyOneExecutionAtATime (parameters (execution_at s' e))
    = onlyOneExecutionAtATime (parameters (execution_at s e))) as Hpar.
  { intros e He%H1. destruct (lookup_lt_is_Some_2 _ _ He) as [x Hx].
    destruct (extends_execution_at _ _ _ _ _ Hext Hx) as (_ & _ & _ & -> & _).
    unfold execution_at. by rewrite (list_lookup_total_correct _ _ _ Hx). }
  split; rewrite Haw.
  - intros e He%H1. pose proof (ext_execution_length _ _ _ Hext). lia.
  - intros e i Hi Hone.
    pose proof (list_elem_of_lookup_2 _ _ _ Hi) as Hin.
    rewrite Hpar in Hone by done.
    destruct (decide (E e)) as [He|He].
    + by apply HE.
    + pose proof (H2 e i Hi Hone) as Hrun. apply H1 in Hin.
      destruct (lookup_lt_is_Some_2 _ _ Hin) as [x Hx].
      pose proof (ext_frame _ _ _ Hext e x He Hx) as Hx'.
      unfold Execution_isExecuting, execution_at in *.
      by rewrite (list_lookup_total_correct _ _ _ Hx'),
        <- (list_lookup_total_correct _ _ _ Hx).
  - intros e i j Hi Hj Hone.
    rewrite Hpar in Hone by by eapply list_elem_of_lookup_2.
    by eapply H3.
Qed.

Lemma oat_frame s s' :
  one_at_a_time s → extends (λ _, False) s s' → awaiting s' = awaiting s →
  one_at_a_time s'.
Proof. intros H Hext Haw. by eapply (oat_extends (λ _, False)). Qed.

Lemma not_suspended_while_idle s e :
  one_at_a_time s → dropped s e = false →
  onlyOneExecutionAtATime (parameters (execution_at s e)) = true →
  e ∉ awaiting s.
Proof.
  intros H Hd Hone [i Hi]%list_elem_of_lookup.
  pose proof (oat_running _ H e i Hi Hone) as Hrun.
  unfold dropped, Execution_isExecuting in *. by rewrite Hrun, Hone in Hd.
Qed.

Lemma oat_Execution_afterRun e s :
  one_at_a_time s →
  (onlyOneExecutionAtATime (parameters (execution_at s e)) = true →
   e ∉ awaiting s) →
  one_at_a_time (Execution_afterRun e s).
Proof.
  intros H He. eapply (oat_extends (eq e)); [done| | |].
  - by apply extends_Execution_afterRun.
  - apply awaiting_Execution_afterRun.
  - intros ? <- Hin Hone. by destruct (He Hone).
Qed.

Section InFlight.

Variable user : callback → list value → State → Behaviour.

Lemma isExecuting_calling e args s :
  e < length (execution_heap s) →
  Execution_isExecuting (calling e args s) e = true.
Proof.
  intros He. unfold Execution_isExecuting, calling, execution_at. simpl.
  rewrite list_lookup_total_alter_eq; [done|].
  by rewrite execution_heap_stopAutomaticCancellation.
Qed.

Lemma awaiting_calling e args s : awaiting (calling e args s) = awaiting s.
Proof. unfold calling. simpl. apply awaiting_stopAutomaticCancellation. Qed.

Lemma oat_Execution_execute e args s :
  one_at_a_time s → e < length (execution_heap s) →
  one_at_a_time (snd (Execution_execute user e args s)).
Proof.
  intros H He. destruct (dropped s e) eqn:Hd.
  { unfold Execution_execute. unfold dropped in Hd.
    rewrite !execution_at_stopAutomaticCancellation, Hd. cbn [snd].
    eapply oat_frame; [done|apply extends_stopAutomaticCancellation|].
    apply awaiting_stopAutomaticCancellation. }
  rewrite Execution_execute_unfold by done. cbn zeta.
  set (s1 := calling e args s).
  set (s2 := run_calls _ s1).
  assert (extends (eq e) s s1) as Hext1 by by apply extends_calling.
  assert (extends (λ _, False) s1 s2) as Hext2 by apply extends_run_calls.
  assert (awaiting s2 = awaiting s) as Haw.
  { unfold s2, s1. by rewrite awaiting_run_calls, awaiting_calling. }
  assert (one_at_a_time s1) as H1.
  { eapply (oat_extends (eq e)); [done|done|apply awaiting_calling|].
    intros ? <- _ _. by apply isExecuting_calling. }
  assert (one_at_a_time s2) as H2.
  { eapply oat_frame; [done|done|]. apply awaiting_run_calls. }
  destruct (lookup_lt_is_Some_2 _ _ He) as [x Hx].
  destruct (extends_execution_at _ _ _ _ _ Hext1 Hx)
    as (He1 & _ & _ & Hpar1 & _).
  destruct (lookup_lt_is_Some_2 _ _ He1) as [x1 Hx1].
  pose proof (ext_frame _ _ _ Hext2 e x1 (λ H, H) Hx1) as Hx2.
  assert (onlyOneExecutionAtATime (parameters (execution_at s2 e)) = true →
          e ∉ awaiting s2) as Hidle.
  { intros Hone. rewrite Haw.
    apply not_suspended_while_idle; [done..|].
    unfold execution_at in *.
    rewrite (list_lookup_total_correct _ _ _ Hx2) in Hone.
    rewrite (list_lookup_total_correct _ _ _ Hx1) in Hpar1.
    rewrite (list_lookup_total_correct _ _ _ Hx). congruence. }
  destruct (throws _); cbn [snd]; [by apply oat_Execution_afterRun|].
  assert (Execution_isExecuting s2 e = true) as Hrun.
  { pose proof (isExecuting_calling e args s He) as Hc. fold s1 in Hc.
    unfold Execution_isExecuting, execution_at in *.
    by rewrite (list_lookup_total_correct _ _ _ Hx2),
      <- (list_lookup_total_correct _ _ _ Hx1). }
  destruct H2 as [G1 G2 G3]. split; simpl.
  - intros e' [Hin|Heq%list_elem_of_singleton]%elem_of_app; [by apply G1|].
    subst e'. by eapply lookup_lt_Some.
  - intros e' i [Hi|[_ Hi]]%lookup_app_Some Hone; [by eapply G2|].
    destruct (i - _); simplify_eq/=. done.
  - intros e' i j [Hi|[Hli Hi]]%lookup_app_Some
      [Hj|[Hlj Hj]]%lookup_app_Some Hone.
    + by eapply G3.
    + destruct (j - _); simplify_eq/=.
      destruct (Hidle Hone). by eapply list_elem_of_lookup_2.
    + destruct (i - _); simplify_eq/=.
      destruct (Hidle Hone). by eapply list_elem_of_lookup_2.
    + destruct (i - _) eqn:?, (j - _) eqn:?; simplify_eq/=. lia.
Qed.

Lemma oat_forEach args a k n s :
  wf s → one_at_a_time s →
  one_at_a_time
    (snd (forEach (λ x, Execution_execute user x args) a k n s)).
Proof.
  revert k s. induction n as [|n IH]; intros k s Hwf H; simpl; [done|].
  destruct (array_at s a !! k) as [x|] eqn:Hx; [|by apply IH].
  assert (x < length (execution_heap s)) as Hlt.
  { apply list_elem_of_lookup_2, elem_of_lookup_total_list in Hx
      as (l & Hl & Hin).
    by eapply (wf_array_elem _ _ _ _ (wf_wf_store _ _ _ Hwf)). }
  pose proof (oat_Execution_execute x args s H Hlt) as H1.
  pose proof (wf_Execution_execute _ _ user x args s Hwf) as Hwf1.
  destruct (Execution_execute user x args s) as [[] s1]; simpl in *;
    [by apply IH|done].
Qed.

Lemma lookup_delete_Some {A} (l : list A) k i x :
  delete k l !! i = Some x → ∃ j, j ≠ k ∧ l !! j = Some x ∧
    (i < k ∧ j = i ∨ k ≤ i ∧ j = S i).
Proof.
  destruct (decide (i < k)) as [Hlt|Hge].
  - rewrite list_lookup_delete_lt by done. intros Hi. exists i.
    split; [lia|]. split; [done|]. left. done.
  - rewrite list_lookup_delete_ge by lia. intros Hi. exists (S i).
    split; [lia|]. split; [done|]. right. split; [lia|done].
Qed.

Lemma oat_resume k s : one_at_a_time s → one_at_a_time (resume k s).
Proof.
  intros [H1 H2 H3]. unfold resume.
  destruct (awaiting s !! k) as [e|] eqn:Hk; [|done].
  apply oat_Execution_afterRun.
  - split; simpl.
    + intros e' [i Hi]%list_elem_of_lookup.
      apply lookup_delete_Some in Hi as (j & _ & Hj & _).
      by eapply H1, list_elem_of_lookup_2.
    + intros e' i Hi Hone.
      apply lookup_delete_Some in Hi as (j & _ & Hj & _). by eapply H2.
    + intros e' i j Hi Hj Hone.
      apply lookup_delete_Some in Hi as (i' & _ & Hi' & Hi).
      apply lookup_delete_Some in Hj as (j' & _ & Hj' & Hj).
      pose proof (H3 e' i' j' Hi' Hj' Hone). lia.
  - simpl. intros Hone [i Hi]%list_elem_of_lookup.
    apply lookup_delete_Some in Hi as (j & Hne & Hj & _).
    apply Hne. by eapply H3.
Qed.

Lemma oat_step o s :
  wf s → one_at_a_time s → one_at_a_time (snd (step user o s)).
Proof.
  intros Hwf H. destruct o as [c|name args|t|k]; simpl.
  - eapply oat_frame; [done|apply extends_run_call|apply awaiting_run_call].
  - unfold emitEvent. destruct (find_event s name); [|done].
    by apply oat_forEach.
  - eapply oat_frame; [done|apply extends_fire_timer|].
    apply awaiting_fire_timer.
  - by apply oat_resume.
Qed.

Lemma oat_run os s :
  wf s → one_at_a_time s → one_at_a_time (run user os s).
Proof.
  revert s. induction os as [|o os IH]; intros s Hwf H; simpl; [done|].
  apply IH; [by apply wf_step|by apply oat_step].
Qed.

End InFlight.

(** ** Removal by name and id *)

(** In the list of an event every execution but [e] has another id than
    [e]. *)
Lemma ids_differ s r l1 e l2 :
  wf s → r ∈ events s → executions_of s r = l1 ++ e :: l2 →
  ∀ y, y ∈ l1 ++ l2 → Execution_getID s y ≠ Execution_getID s e.
Proof.
  intros Hwf Hr Hl y Hy.
  destruct (executions_of_registered s r Hwf Hr) as (ev & Hev & Ha & _).
  pose proof (wf_ids_sorted _ _ _ (wf_wf_ids _ _ _ Hwf) _ _ _ Hev Ha) as Hs.
  rewrite Hl in Hs. unfold Execution_getID, execution_at.
  apply elem_of_app in Hy as [Hy|Hy].
  - pose proof (StronglySorted_app_1_elem_of _ _ _ y e Hs Hy) as Hlt.
    unfold id_lt in Hlt. specialize (Hlt ltac:(left)). lia.
  - apply StronglySorted_app_1_r, StronglySorted_cons in Hs as [Hall _].
    rewrite Forall_forall in Hall. specialize (Hall y Hy).
    unfold id_lt in Hall. lia.
Qed.

Lemma executions_of_set_events f s r :
  executions_of (set_events f s) r = executions_of s r.
Proof. done. Qed.

Lemma executions_of_removeExecution name id s r ev :
  find_event s name = Some r → event_heap s !! r = Some ev →
  executions_of (removeExecution name id s) r
  = filter (λ x, Execution_getID s x ≠ id) (executions_of s r).
Proof.
  intros Hfind Hev. unfold removeExecution. rewrite Hfind.
  destruct (Event_removeExecution_spec r id s ev Hev) as (Hex & _).
  by destruct (Nat.eqb _ 0).
Qed.

Lemma removeExecution_exact name r l1 e l2 s :
  wf s → find_event s name = Some r → executions_of s r = l1 ++ e :: l2 →
  executions_of (removeExecution name (Execution_getID s e) s) r = l1 ++ l2.
Proof.
  intros Hwf Hfind Hl.
  pose proof Hfind as [Hin _]%find_event_Some.
  destruct (executions_of_registered s r Hwf Hin) as (ev & Hev & _).
  rewrite (executions_of_removeExecution _ _ _ _ ev) by done.
  pose proof (ids_differ s r l1 e l2 Hwf Hin Hl) as Hne.
  rewrite Hl, filter_app, filter_cons_False by (by intros ?).
  rewrite <- filter_app. apply filter_all. done.
Qed.

(** [removeExecution] keeps the event registered if an execution stays in
    its list, and drops it otherwise. *)
Lemma removeExecution_stays name id r e s :
  wf s → find_event s name = Some r →
  e ∈ executions_of s r → Execution_getID s e ≠ id →
  removeExecution name id s = Event_removeExecution r id s ∧
  events (removeExecution name id s) = events s ∧
  find_event (removeExecution name id s) name = Some r.
Proof.
  intros Hwf Hfind He Hne.
  pose proof Hfind as [Hin _]%find_event_Some.
  destruct (executions_of_registered s r Hwf Hin) as (ev & Hev & _).
  destruct (Event_removeExecution_spec r id s ev Hev)
    as (Hex & Hevs & Hn & _).
  assert (removeExecution name id s = Event_removeExecution r id s) as ->.
  { unfold removeExecution. rewrite Hfind.
    unfold Event_getTotalExecutions. rewrite Hex.
    assert (e ∈ filter (λ x, Execution_getID s x ≠ id) (executions_of s r))
      as Hkept by by apply list_elem_of_filter.
    by destruct (filter _ _); [apply elem_of_nil in Hkept|]. }
  split; [done|]. split; [done|].
  rewrite <- Hfind. apply find_event_ext; auto.
Qed.

Lemma removeExecution_drops name id r s :
  wf s → find_event s name = Some r →
  (∀ e, e ∈ executions_of s r → Execution_getID s e = id) →
  events (removeExecution name id s)
  = List.filter (λ r', negb (String.eqb (Event_getEventName s r') name))
      (events s) ∧
  find_event (removeExecution name id s) name = None.
Proof.
  intros Hwf Hfind Hall.
  pose proof Hfind as [Hin _]%find_event_Some.
  destruct (executions_of_registered s r Hwf Hin) as (ev & Hev & _).
  destruct (Event_removeExecution_spec r id s ev Hev)
    as (Hex & Hevs & Hn & _).
  assert (removeExecution name id s
          = set_events
              (List.filter
                 (λ r', negb (String.eqb
                   (Event_getEventName (Event_removeExecution r id s) r')
                   name)))
              (Event_removeExecution r id s)) as ->.
  { unfold removeExecution. rewrite Hfind.
    unfold Event_getTotalExecutions. rewrite Hex.
    assert (filter (λ x, Execution_getID s x ≠ id) (executions_of s r) = [])
      as ->; [|done].
    destruct (filter _ _) as [|y k] eqn:Hf; [done|].
    assert (y ∈ filter (λ x, Execution_getID s x ≠ id) (executions_of s r))
      as [Hne Hy]%list_elem_of_filter by (rewrite Hf; left).
    by destruct Hne; apply Hall. }
  split.
  - simpl. apply List.filter_ext. intros r'. by rewrite Hn.
  - by apply find_event_removed.
Qed.

(** ** Other names, unknown names *)

Lemma find_filter {A} (p q : A → bool) (l : list A) :
  (∀ x, p x = true → q x = true) →
  List.find p (List.filter q l) = List.find p l.
Proof.
  intros Hpq. induction l as [|x l IH]; simpl; [done|].
  destruct (q x) eqn:Hq; simpl.
  - by rewrite IH.
  - destruct (p x) eqn:Hp; [|done]. apply Hpq in Hp. congruence.
Qed.

Lemma List_filter_all {A} (f : A → bool) (l : list A) :
  (∀ x, x ∈ l → f x = true) → List.filter f l = l.
Proof.
  induction l as [|x l IH]; intros Hf; simpl; [done|].
  rewrite Hf by left. f_equal. apply IH. intros y Hy. apply Hf. by right.
Qed.

Lemma set_events_same f s : f (events s) = events s → set_events f s = s.
Proof. destruct s. unfold set_events. simpl. by intros ->. Qed.

Lemma find_event_registry s s' name :
  registry s' = registry s → find_event s' name = find_event s name.
Proof.
  intros (Hev & _ & _ & Hn)%registry_event.
  apply find_event_ext; [done|]. intros r _. by destruct (Hn r).
Qed.

Lemma find_event_removeEvent_other name name' s :
  name' ≠ name → find_event (removeEvent name s) name' = find_event s name'.
Proof.
  intros Hne. unfold find_event, removeEvent. simpl.
  apply find_filter. intros r Heq%String.eqb_eq.
  apply negb_true_iff, String.eqb_neq. congruence.
Qed.

Lemma find_event_removeExecution_other name name' id s :
  name' ≠ name →
  find_event (removeExecution name id s) name' = find_event s name'.
Proof.
  intros Hne. destruct (registry_removeExecution name id s) as [H|H].
  - by apply find_event_registry.
  - rewrite (find_event_registry _ _ _ H).
    by apply find_event_removeEvent_other.
Qed.

Lemma executions_of_Event_removeExecution_other r r' id s :
  wf s → r' < length (event_heap s) → r ≠ r' →
  executions_of (Event_removeExecution r id s) r' = executions_of s r'.
Proof.
  intros Hwf Hr' Hne. unfold executions_of, array_at, event_at. simpl.
  rewrite list_lookup_total_alter_ne by done.
  destruct (lookup_lt_is_Some_2 _ _ Hr') as [ev Hev].
  rewrite (list_lookup_total_correct _ _ _ Hev).
  apply lookup_total_app_l.
  by eapply (wf_event_array _ _ _ _ (wf_wf_store _ _ _ Hwf)).
Qed.

Lemma executions_of_removeExecution_other name id r' s :
  wf s → r' < length (event_heap s) → find_event s name ≠ Some r' →
  executions_of (removeExecution name id s) r' = executions_of s r'.
Proof.
  intros Hwf Hr' Hne. unfold removeExecution.
  destruct (find_event s name) as [r|]; [|done].
  assert (executions_of (Event_removeExecution r id s) r'
          = executions_of s r') as Hex.
  { apply executions_of_Event_removeExecution_other; [done..|].
    intros ->. by apply Hne. }
  by destruct (Nat.eqb _ 0).
Qed.

(** ** Subscribing *)

Lemma Event_addExecution_idle r cb params s x :
  execution_heap (snd (Event_addExecution r cb params s))
  = execution_heap s ++ [x] →
  isExecuting (state x) = false ∧ hasExecuted (state x) = false.
Proof.
  unfold Event_addExecution.
  destruct (Execution_new_spec r (executionCounter (event_at s r)) cb
              params s) as (x' & ts & -> & _ & _ & _ & Hrun & Hhas & _).
  simpl. by intros [_ [= <-]]%app_inj_tail.
Qed.

(** The state after a subscription: the new execution is the last of the
    list of the event registered under the name, after those that were
    there; it is idle. *)
Lemma addEvent_list name cb params s :
  wf s →
  let e := length (execution_heap s) in
  let s1 := snd (addEvent name cb params s) in
  let old := match find_event s name with
             | Some r => executions_of s r
             | None => []
             end in
  ∃ r x,
    find_event s1 name = Some r ∧
    (find_event s name = None → r = length (event_heap s)) ∧
    (∀ r0, find_event s name = Some r0 → r0 = r ∧ events s1 = events s) ∧
    executions_of s1 r = old ++ [e] ∧
    execution_heap s1 = execution_heap s ++ [x] ∧
    callbackFunction x = cb ∧
    isExecuting (state x) = false ∧ hasExecuted (state x) = false ∧
    Execution_getID s1 e = la_executionId (fst (addEvent name cb params s)) ∧
    la_remove (fst (addEvent name cb params s))
    = removeExecution name (Execution_getID s1 e).
Proof.
  intros Hwf e s1 old.
  destruct (addEvent_spec name cb params s Hwf)
    as (r & ev & x & Hfind1 & Hcase & _ & _ & _ & Hxh & _ & Hid & Hcb & _).
  fold s1 in Hfind1, Hxh.
  exists r, x. split; [done|].
  assert (Execution_getID s1 e
          = la_executionId (fst (addEvent name cb params s))) as Hge.
  { unfold Execution_getID, execution_at. rewrite Hxh.
    unfold e. by rewrite lookup_total_snoc. }
  assert (isExecuting (state x) = false ∧ hasExecuted (state x) = false)
    as Hidle.
  { revert Hxh. unfold s1, addEvent.
    destruct (find_event s name) as [r0|].
    - pose proof (Event_addExecution_idle r0 cb params s x) as H.
      by destruct (Event_addExecution r0 cb params s).
    - simpl. set (s0 := set_events _ _).
      pose proof (Event_addExecution_idle (length (event_heap s)) cb
                    params s0 x) as H.
      by destruct (Event_addExecution _ cb params s0). }
  assert (executions_of s1 r = old ++ [e] ∧
          ∀ r0, find_event s name = Some r0 → r0 = r ∧ events s1 = events s)
    as [Hex Hsame].
  { unfold old, s1, addEvent. clear Hfind1 Hxh Hge.
    destruct Hcase as [[Hfind _]|(Hfind & _ & ->)]; rewrite Hfind.
    - pose proof Hfind as [Hin _]%find_event_Some.
      destruct (executions_of_registered s r Hwf Hin)
        as (ev0 & Hev0 & Ha & _).
      destruct (Event_addExecution_spec r cb params s ev0 Hev0
                  (lookup_lt_Some _ _ _ Ha)) as (_ & Hevs & _ & Hex & _).
      destruct (Event_addExecution r cb params s) as [i s2]. simpl in *.
      split; [done|]. by intros ? [= <-].
    - simpl.
      set (evN := {| eventName := name; eventId := eventIds s;
                     executions := length (array_heap s);
                     executionCounter := 0 |}).
      set (s0 := set_events _ _).
      assert (event_heap s0 !! length (event_heap s) = Some evN) as Hev0.
      { simpl. by apply list_lookup_middle. }
      destruct (Event_addExecution_spec (length (event_heap s)) cb params s0
                  evN Hev0) as (_ & _ & _ & Hex & _).
      { simpl. rewrite length_app. simpl. lia. }
      destruct (Event_addExecution _ cb params s0) as [i s2]. simpl in *.
      split; [|done]. rewrite Hex. f_equal.
      unfold executions_of, array_at, event_at. simpl.
      rewrite lookup_total_snoc. simpl. by rewrite lookup_total_snoc. }
  split.
  { intros Hnone. destruct Hcase as [[? _]|(_ & _ & ->)]; congruence. }
  split; [exact Hsame|]. split; [exact Hex|]. split; [done|].
  split; [done|]. split; [tauto|]. split; [tauto|]. split; [done|].
  rewrite Hge. apply la_remove_addEvent.
Qed.

Lemma filter_ext_elem {A} (P1 P2 : A → Prop)
    `{!∀ x, Decision (P1 x), !∀ x, Decision (P2 x)} (l : list A) :
  (∀ x, x ∈ l → P1 x ↔ P2 x) → filter P1 l = filter P2 l.
Proof.
  induction l as [|x l IH]; intros Hl; [done|].
  rewrite !filter_cons, IH by (intros y Hy; apply Hl; by right).
  destruct (Hl x) as [F1 F2]; [by left|].
  destruct (decide (P1 x)), (decide (P2 x)); try done; tauto.
Qed.

Section Further.

Variable user : callback → list value → State → Behaviour.

(** X3.  Subscribe, then emit.  The emit calls the callbacks of the
    executions that were in the list of the event before the subscription
    and are not dropped by their guard, in the order of the list, and
    after them the new callback, each with the emitted arguments.  When the
    name was not registered the new callback is the only one called. *)
Theorem subscription_is_called_last name cb params args s :
  wf s →
  let e := length (execution_heap s) in
  let s1 := snd (addEvent name cb params s) in
  let old := match find_event s name with
             | Some r => executions_of s r
             | None => []
             end in
  trace (snd (emitEvent user name args s1))
  = trace s
    ++ map (λ e', Invoked e' (callbackFunction (execution_at s e')) args)
         (filter (λ e', dropped s e' = false) old)
    ++ [Invoked e cb args].
Proof.
  intros Hwf e s1 old.
  assert (wf s1) as Hwf1 by by apply wf_addEvent.
  destruct (addEvent_list name cb params s Hwf)
    as (r & x & Hfind1 & _ & _ & Hex & Hxh & Hcb & Hidle & _).
  fold s1 in Hfind1, Hex, Hxh. fold e old in Hex.
  pose proof (trace_step user (OpEmit name args) s1 Hwf1) as Hstep.
  simpl in Hstep. rewrite Hstep, Hfind1, Hex.
  unfold s1 at 1. rewrite trace_addEvent. f_equal.
  assert (∀ e', e' ∈ old → execution_at s1 e' = execution_at s e') as Hold.
  { intros e' He'. unfold execution_at. rewrite Hxh.
    apply lookup_total_app_l. unfold old in He'.
    destruct (find_event s name) as [r0|] eqn:Hfind;
      [|by apply elem_of_nil in He'].
    pose proof Hfind as [Hin _]%find_event_Some.
    destruct (executions_of_registered s r0 Hwf Hin) as (_ & _ & _ & _ & Hx).
    by apply lookup_lt_is_Some, Hx. }
  assert (execution_at s1 e = x) as Hnew.
  { unfold execution_at. rewrite Hxh. apply lookup_total_snoc. }
  rewrite filter_app, map_app. f_equal.
  - assert (filter (λ e', dropped s1 e' = false) old
            = filter (λ e', dropped s e' = false) old) as ->.
    { apply filter_ext_elem. intros e' He'. unfold dropped.
      by rewrite Hold. }
    apply map_ext_in. intros e' He'%list_elem_of_In.
    apply list_elem_of_filter in He' as [_ He']. by rewrite Hold.
  - rewrite filter_cons_True, filter_nil.
    + simpl. by rewrite Hnew, Hcb.
    + unfold dropped. by rewrite Hnew, Hidle.
Qed.

(** X4.  After [removeEvent(name)], and after [removeAllEvents()], an
    [emitEvent] of the name completes normally, calls no user function and
    leaves the machine state as it is; a second [removeEvent(name)] changes
    nothing. *)
Theorem emit_after_removal_calls_nothing name args s :
  emitEvent user name args (removeEvent name s) = (Normal, removeEvent name s) ∧
  emitEvent user name args (removeAllEvents s) = (Normal, removeAllEvents s) ∧
  removeEvent name (removeEvent name s) = removeEvent name s.
Proof.
  assert (find_event (removeEvent name s) name = None) as Hnone
    by exact (find_event_removed name s s (λ _, eq_refl)).
  split; [|split].
  - unfold emitEvent. by rewrite Hnone.
  - done.
  - apply set_events_same. apply List_filter_all.
    intros r Hr. apply negb_true_iff, String.eqb_neq.
    by apply (proj1 (find_event_None _ _) Hnone).
Qed.

(** X5.  A removal concerns the name it is given only: after
    [removeEvent(name)] and after [removeExecution(name, id)], every other
    registered name still leads to the same event, and the list of
    executions of that event is as it was. *)
Theorem removal_leaves_other_names name name' id r' s :
  wf s → name' ≠ name → find_event s name' = Some r' →
  find_event (removeEvent name s) name' = Some r' ∧
  executions_of (removeEvent name s) r' = executions_of s r' ∧
  find_event (removeExecution name id s) name' = Some r' ∧
  executions_of (removeExecution name id s) r' = executions_of s r'.
Proof.
  intros Hwf Hne Hfind.
  pose proof Hfind as [Hin Hname]%find_event_Some.
  split; [by rewrite find_event_removeEvent_other|]. split; [done|].
  split; [by rewrite find_event_removeExecution_other|].
  apply executions_of_removeExecution_other; [done| |].
  - by apply (wf_events _ _ _ _ (wf_wf_store _ _ _ Hwf)).
  - intros [_ Hname']%find_event_Some. congruence.
Qed.

(** X6.  [removeExecution(name, id)] with the id of an execution of the
    event takes exactly this execution out of the list: the executions
    before it and after it stay, in their order.  (No other execution of
    the event has the same id.) *)
Theorem removeExecution_removes_exactly_one name r l1 e l2 s :
  wf s → find_event s name = Some r → executions_of s r = l1 ++ e :: l2 →
  executions_of (removeExecution name (Execution_getID s e) s) r = l1 ++ l2.
Proof. apply removeExecution_exact. Qed.

(** X7.  [removeExecution] unregisters the event exactly when its list is
    empty afterwards.  If every execution in the list has the id given (in
    particular if the list is empty already, whatever the id), no event is
    registered under the name afterwards; if an execution with another id
    is in the list, the event stays registered and the emitter's list of
    events is unchanged. *)
Theorem removeExecution_drops_emptied_event name id r s :
  wf s → find_event s name = Some r →
  let s1 := removeExecution name id s in
  ((∀ e, e ∈ executions_of s r → Execution_getID s e = id) →
   find_event s1 name = None ∧
   events s1
   = List.filter (λ r', negb (String.eqb (Event_getEventName s r') name))
       (events s)) ∧
  (∀ e, e ∈ executions_of s r → Execution_getID s e ≠ id →
   find_event s1 name = Some r ∧ events s1 = events s).
Proof.
  intros Hwf Hfind s1. split.
  - intros Hall.
    by destruct (removeExecution_drops name id r s Hwf Hfind Hall).
  - intros e He Hne.
    by destruct (removeExecution_stays name id r e s Hwf Hfind He Hne)
      as (_ & ? & ?).
Qed.

(** X8.  A name under which no event is registered is ignored:
    [removeEvent], [removeExecution] and [emitEvent] complete normally and
    leave the machine state exactly as it is. *)
Theorem unknown_name_is_ignored name id args s :
  find_event s name = None →
  removeEvent name s = s ∧ removeExecution name id s = s ∧
  emitEvent user name args s = (Normal, s).
Proof.
  intros Hnone. split; [|split].
  - apply set_events_same, List_filter_all.
    intros r Hr. apply negb_true_iff, String.eqb_neq.
    by apply (proj1 (find_event_None _ _) Hnone).
  - unfold removeExecution. by rewrite Hnone.
  - unfold emitEvent. by rewrite Hnone.
Qed.

(** X9.  [removeExecution] with an id that no execution of the event
    has, on an event that has executions, changes nothing that can be
    observed of the machine state: the event stays registered with the same
    list (held by a fresh array object). *)
Theorem unknown_id_changes_nothing name id r e s :
  wf s → find_event s name = Some r → e ∈ executions_of s r →
  (∀ e', e' ∈ executions_of s r → Execution_getID s e' ≠ id) →
  view (removeExecution name id s) = view s.
Proof.
  intros Hwf Hfind He Hall.
  destruct (removeExecution_stays name id r e s Hwf Hfind He (Hall e He))
    as (-> & _).
  apply view_Event_removeExecution_absent; [done| |done].
  apply find_event_Some in Hfind as [Hin _].
  by apply (wf_events _ _ _ _ (wf_wf_store _ _ _ Hwf)).
Qed.

(** X10.  An execution taken out with [removeExecution(name, id)], which
    is what [remove()] of a handle calls, is in the list of no event
    afterwards, and no later job calls its callback, whatever is
    subscribed, removed or emitted. *)
Theorem removed_execution_is_never_called name r e s :
  wf s → find_event s name = Some r → e ∈ executions_of s r →
  let s1 := removeExecution name (Execution_getID s e) s in
  absent s1 e ∧
  ∀ os k, trace (run user os s1) = trace s ++ k →
    ∀ cb args, Invoked e cb args ∉ k.
Proof.
  intros Hwf Hfind He s1.
  pose proof (removeExecution_retires name r e s Hwf Hfind He) as H1.
  fold s1 in H1. split; [by eapply wf_at_absent|].
  intros os k Hk.
  apply (retired_never_invoked user (λ _, False) e s1 os k H1).
  unfold s1 at 2. by rewrite trace_removeExecution.
Qed.

(** X11.  After [removeEvent(name)], and after [removeAllEvents()], the
    callbacks of the executions that were in the list of a removed event
    are not called by any later job, also when the same name is subscribed
    again and emitted: the new subscription creates a new [Event]. *)
Theorem removed_event_is_never_called r e s s1 :
  wf s → r ∈ events s → e ∈ executions_of s r →
  s1 = removeEvent (Event_getEventName s r) s ∨ s1 = removeAllEvents s →
  ∀ os k, trace (run user os s1) = trace s ++ k →
    ∀ cb args, Invoked e cb args ∉ k.
Proof.
  intros Hwf Hr He Hs1 os k Hk cb args.
  destruct (executions_of_registered s r Hwf Hr) as (ev & Hev & Ha & _ & Hx).
  destruct (Hx e He) as [x Hxe].
  pose proof (wf_owner _ _ _ _ (wf_wf_store _ _ _ Hwf) _ _ _ _ _
                Hev Ha He Hxe) as Hown.
  assert (wf s1 ∧ unregistered r s1 ∧ trace s1 = trace s ∧
          execution_heap s1 = execution_heap s) as (Hwf1 & Hun & Htr & Hxh).
  { destruct Hs1 as [->| ->].
    - split; [by apply wf_removeEvent|]. split; [|done]. split.
      + by eapply lookup_lt_Some.
      + simpl. intros [_ Hin]%list_elem_of_In%List.filter_In.
        by rewrite String.eqb_refl in Hin.
    - split; [by apply wf_removeAllEvents|]. split; [|done]. split.
      + by eapply lookup_lt_Some.
      + simpl. by intros ?%elem_of_nil. }
  rewrite <- Htr in Hk.
  apply (unregistered_never_invoked user r os s1 k Hwf1 Hun Hk).
  - rewrite Hxh. by eapply lookup_lt_Some.
  - unfold execution_at. rewrite Hxh.
    by rewrite (list_lookup_total_correct _ _ _ Hxe).
Qed.

(** X12.  Under [onlyOneInstance] at most one run of an execution is in
    flight.  Whatever jobs have run on a fresh emitter, an execution with
    [onlyOneExecutionAtATime] has at most one suspended activation of
    [execute], and while it has one, [isExecuting()] is true. *)
Theorem at_most_one_run_in_flight os e i j :
  let s := run user os initial in
  onlyOneExecutionAtATime (parameters (execution_at s e)) = true →
  awaiting s !! i = Some e → awaiting s !! j = Some e →
  i = j ∧ Execution_isExecuting s e = true.
Proof.
  intros s Hone Hi Hj.
  assert (one_at_a_time s) as [H1 H2 H3].
  { apply oat_run; [apply wf_initial|].
    split; simpl; [by intros ? ?%elem_of_nil|done..]. }
  split; [by eapply H3|by eapply H2].
Qed.

(** X13.  Without [onlyOneInstance] runs overlap.  A trigger calls the
    callback whether or not [isExecuting] is set; and when an execution
    has two suspended activations and one of them is resumed, it resets
    [isExecuting], so [isExecuting()] is false while the other run is
    still in flight. *)
Theorem overlapping_runs_without_guard e s :
  e < length (execution_heap s) →
  (onlyOneExecutionAtATime (parameters (execution_at s e)) = false →
   ∀ args, trace (snd (Execution_execute user e args s))
           = trace s ++ [Invoked e (callbackFunction (execution_at s e)) args]) ∧
  (∀ i j, i ≠ j → awaiting s !! i = Some e → awaiting s !! j = Some e →
     Execution_isExecuting (resume i s) e = false ∧
     e ∈ awaiting (resume i s)).
Proof.
  intros He. split.
  - intros Hone args. rewrite trace_Execution_execute.
    unfold dropped. rewrite Hone. by rewrite andb_false_r.
  - intros i j Hne Hi Hj. unfold resume. rewrite Hi. split.
    + by apply Execution_afterRun_state.
    + rewrite awaiting_Execution_afterRun. simpl.
      apply list_elem_of_lookup.
      destruct (decide (j < i)) as [Hlt|Hge].
      * exists j. by rewrite list_lookup_delete_lt.
      * exists (pred j). rewrite list_lookup_delete_ge by lia.
        by replace (S (pred j)) with j by lia.
Qed.

(** X14.  Whatever jobs have run on a fresh emitter, the expiration
    callback of an execution has been called at most once (also when it
    threw and the execution stayed in its list), and once it has been
    called no timer of the execution is pending. *)
Theorem expiration_callback_called_at_most_once os e :
  let s := run user os initial in
  length (expirations_in (trace s) e) ≤ 1 ∧
  (expirations_in (trace s) e ≠ [] → disarmed_in (timers s) e).
Proof.
  intros s.
  destruct (wf_expired_once _ _ _
              (wf_wf_trace _ _ _ (reachable_user_wf user os)) e)
    as [Hnil|[Hone Hd]]; fold s in Hnil || fold s in Hone, Hd.
  - rewrite Hnil. split; [simpl; lia|done].
  - split; [lia|done].
Qed.

(** X15.  Which user functions a job calls is fixed by the state in which
    the job starts.  [addEvent], [removeEvent], [removeExecution],
    [removeAllEvents] and a resumed activation of [execute] call none.  An
    emit calls the callbacks of the executions that are in the list of the
    event at that moment and are not dropped by their guard, in the order
    of the list, with the emitted arguments.  A pending timer calls the
    expiration callback of its owner, a timer that is not pending calls
    nothing.  What the functions called do to the emitter meanwhile
    changes none of this. *)
Theorem job_calls_are_fixed_at_its_start o s :
  wf s → trace (snd (step user o s)) = trace s ++ calls_of o s.
Proof. apply trace_step. Qed.

(** X16.  The emitter calls only what was given to [addEvent]: whatever
    jobs have run on a fresh emitter, every callback called is the
    [callbackFunction] of the execution it was called for, every expiration
    callback called is the one stored in the parameters of its execution,
    and these executions exist. *)
Theorem only_subscribed_functions_are_called os :
  let s := run user os initial in Forall (subscribed s) (trace s).
Proof. apply subscribed_run; [apply wf_initial|constructor]. Qed.

(** X17.  Subscribe, and call [remove()] of the handle returned at once.
    The list of the event is then as it was before the subscription.  If
    the name was not registered, it is not registered afterwards and the
    emitter's list of events is as before; if its event had executions, the
    event stays registered; if its event was registered with an empty list
    (left behind when its last execution removed itself), the removal
    unregisters it. *)
Theorem subscribe_then_remove_restores_lists name cb params s :
  wf s →
  let h := fst (addEvent name cb params s) in
  let s2 := la_remove h (snd (addEvent name cb params s)) in
  (find_event s name = None →
   events s2 = events s ∧ find_event s2 name = None) ∧
  (∀ r, find_event s name = Some r →
     executions_of s2 r = executions_of s r ∧
     (executions_of s r ≠ [] →
      find_event s2 name = Some r ∧ events s2 = events s) ∧
     (executions_of s r = [] → find_event s2 name = None)).
Proof.
  intros Hwf h s2.
  assert (wf (snd (addEvent name cb params s))) as Hwf1
    by by apply wf_addEvent.
  destruct (addEvent_list name cb params s Hwf)
    as (r & x & Hfind1 & Hnew & Hsame & Hex & Hxh & _ & _ & _ & Hid & Hrem).
  fold h in Hrem. unfold s2. rewrite Hrem. clear s2 Hrem.
  set (s1 := snd (addEvent name cb params s)) in *.
  set (e := length (execution_heap s)) in *.
  pose proof (removeExecution_exact name r _ e [] s1 Hwf1 Hfind1 Hex) as Hex2.
  rewrite app_nil_r in Hex2.
  assert (∀ e', e' ∈ (match find_event s name with
                      | Some r0 => executions_of s r0
                      | None => []
                      end) →
          Execution_getID s1 e' ≠ Execution_getID s1 e) as Hfresh.
  { intros e' He'. pose proof Hfind1 as [Hin _]%find_event_Some.
    eapply (ids_differ s1 r _ e [] Hwf1 Hin Hex). by rewrite app_nil_r. }
  split.
  - intros Hnone. rewrite Hnone in *.
    destruct (removeExecution_drops name (Execution_getID s1 e) r s1 Hwf1
                Hfind1) as [Hev Hgone].
    { intros e'. rewrite Hex. simpl.
      by intros ->%list_elem_of_singleton. }
    split; [|done]. rewrite Hev.
    destruct (addEvent_registry_new name cb params s Hnone)
      as (Hevs & _ & _ & Hold & Hname & _).
    fold s1 in Hevs, Hold, Hname.
    rewrite Hevs, List.filter_app. simpl.
    rewrite Hname, String.eqb_refl. simpl. rewrite app_nil_r.
    apply List_filter_all. intros r0 Hr0.
    apply negb_true_iff, String.eqb_neq.
    destruct (Hold r0) as [-> _].
    + by apply (wf_events _ _ _ _ (wf_wf_store _ _ _ Hwf)).
    + by apply (proj1 (find_event_None _ _) Hnone).
  - intros r0 Hfind. destruct (Hsame r0 Hfind) as [-> Hevs].
    rewrite Hfind in *. split; [done|]. split.
    + intros Hne. destruct (executions_of s r) as [|e' l] eqn:Hl; [done|].
      destruct (removeExecution_stays name (Execution_getID s1 e) r e' s1
                  Hwf1 Hfind1) as (_ & Hev2 & Hfind2).
      * rewrite Hex. by left.
      * apply Hfresh. by left.
      * split; [done|]. by rewrite Hev2.
    + intros Hnil.
      apply (removeExecution_drops name (Execution_getID s1 e) r s1 Hwf1
               Hfind1).
      intros e'. rewrite Hex, Hnil. simpl.
      by intros ->%list_elem_of_singleton.
Qed.

End Further.

(** ** The new execution of a subscription *)

Lemma Event_addExecution_heap r cb params s :
  ∃ x, execution_heap (snd (Event_addExecution r cb params s))
       = execution_heap s ++ [x] ∧
    isExecuting (state x) = false ∧
    (expirationTimeout (state x) = (-1)%Z ∨
     expirationTimeout (state x) = timer_id (length (timers s))).
Proof.
  unfold Event_addExecution.
  destruct (Execution_new_spec r (executionCounter (event_at s r)) cb
              params s)
    as (x & ts & -> & _ & _ & _ & Hrun & _ & _ & _ & Hts).
  exists x. split; [done|]. split; [done|].
  destruct (params ≫= _); [right|left]; tauto.
Qed.

Lemma addEvent_heap name cb params s :
  ∃ x, execution_heap (snd (addEvent name cb params s))
       = execution_heap s ++ [x] ∧
    isExecuting (state x) = false ∧
    (expirationTimeout (state x) = (-1)%Z ∨
     expirationTimeout (state x) = timer_id (length (timers s))).
Proof.
  unfold addEvent. destruct (find_event s name) as [r|].
  - pose proof (Event_addExecution_heap r cb params s) as H.
    by destruct (Event_addExecution r cb params s).
  - simpl. set (s0 := set_events _ _).
    pose proof (Event_addExecution_heap (length (event_heap s)) cb
                  params s0) as H.
    by destruct (Event_addExecution _ cb params s0).
Qed.

Lemma execution_heap_removeExecution name id s :
  execution_heap (removeExecution name id s) = execution_heap s.
Proof.
  unfold removeExecution. destruct (find_event s name); [|done].
  by destruct (Nat.eqb _ 0).
Qed.

(** ** Timers and their owners *)

Lemma timer_ids_unique_frame s s' :
  same_objects s s' → timer_ids_unique s → timer_ids_unique s'.
Proof.
  intros (_ & Hext & Hlen) H e1 e2 x1 x2 H1 H2 Heq Hne.
  assert (∀ e x', execution_heap s' !! e = Some x' →
    ∃ x, execution_heap s !! e = Some x ∧
      expirationTimeout (state x') = expirationTimeout (state x)) as Hback.
  { intros e x' Hx'. pose proof (lookup_lt_Some _ _ _ Hx') as Hlt.
    rewrite Hlen in Hlt. destruct (lookup_lt_is_Some_2 _ _ Hlt) as [x Hx].
    destruct (ext_execution _ _ _ Hext _ _ Hx)
      as (y & Hy & _ & _ & _ & _ & Ht).
    exists x. split; [done|]. congruence. }
  destruct (Hback _ _ H1) as (y1 & G1 & E1).
  destruct (Hback _ _ H2) as (y2 & G2 & E2).
  apply (H e1 e2 y1 y2); congruence.
Qed.

Lemma timer_ids_unique_run_call c s :
  wf s → timer_ids_unique s → timer_ids_unique (run_call c s).
Proof.
  intros Hwf H. destruct c as [name cb params|name|name id|]; simpl;
    [|done| |done].
  - destruct (addEvent_heap name cb params s) as (x & Hxh & _ & Hx).
    intros e1 e2 x1 x2. rewrite Hxh.
    pose proof (wf_execution_timer _ _ (wf_wf_timers _ _ _ Hwf)) as Hle.
    unfold timer_id in Hx.
    intros [H1|[G1 H1]]%lookup_app_Some [H2|[G2 H2]]%lookup_app_Some Heq Hne.
    + by eapply H.
    + destruct (e2 - _); simplify_eq/=. specialize (Hle _ _ H1). lia.
    + destruct (e1 - _); simplify_eq/=. specialize (Hle _ _ H2). lia.
    + destruct (e1 - _) eqn:?, (e2 - _) eqn:?; simplify_eq/=. lia.
  - unfold timer_ids_unique. by rewrite execution_heap_removeExecution.
Qed.

(** ** An execution that is executing is in flight *)

Lemma running_in_flight_weaken (X Y : ref → Prop) s :
  (∀ e, X e → Y e) → running_in_flight X s → running_in_flight Y s.
Proof. intros HXY H e x He. apply H. by intros ?%HXY. Qed.

Lemma running_in_flight_same (X E : ref → Prop) s s' :
  running_in_flight X s → extends E s s' →
  length (execution_heap s') = length (execution_heap s) →
  awaiting s ⊆ awaiting s' → (∀ e, E e → X e) →
  running_in_flight X s'.
Proof.
  intros H Hext Hlen Haw HE e x' He Hx' Hrun.
  pose proof (lookup_lt_Some _ _ _ Hx') as Hlt. rewrite Hlen in Hlt.
  destruct (lookup_lt_is_Some_2 _ _ Hlt) as [x Hx].
  assert (¬ E e) as HnE by (by intros ?%HE).
  pose proof (ext_frame _ _ _ Hext e x HnE Hx) as Hx2.
  apply Haw, (H e x He Hx). congruence.
Qed.

Lemma running_in_flight_close e s s' :
  running_in_flight (eq e) s → extends (eq e) s s' →
  length (execution_heap s') = length (execution_heap s) →
  awaiting s ⊆ awaiting s' →
  (∀ x, execution_heap s' !! e = Some x → isExecuting (state x) = true →
        e ∈ awaiting s') →
  running_in_flight (λ _, False) s'.
Proof.
  intros H Hext Hlen Haw He e' x' _ Hx' Hrun.
  destruct (decide (e = e')) as [<-|Hne]; [by eapply He|].
  by eapply (running_in_flight_same (eq e) (eq e) s s').
Qed.

Lemma running_in_flight_run_call X c s :
  running_in_flight X s → running_in_flight X (run_call c s).
Proof.
  intros H e x He. rewrite awaiting_run_call.
  destruct c as [name cb params|name|name id|]; simpl.
  - destruct (addEvent_heap name cb params s) as (y & -> & Hy & _).
    intros [Hx|[_ Hx]]%lookup_app_Some Hrun; [by eapply H|].
    destruct (e - _); simplify_eq/=. congruence.
  - by apply H.
  - rewrite execution_heap_removeExecution. by apply H.
  - by apply H.
Qed.

Lemma running_in_flight_run_calls X cs s :
  running_in_flight X s → running_in_flight X (run_calls cs s).
Proof.
  revert s. induction cs as [|c cs IH]; intros s H; simpl; [done|].
  by apply IH, running_in_flight_run_call.
Qed.

Section Running.

Variable user : callback → list value → State → Behaviour.

Lemma running_in_flight_Execution_execute e args s :
  running_in_flight (λ _, False) s →
  running_in_flight (λ _, False) (snd (Execution_execute user e args s)).
Proof.
  intros H. destruct (dropped s e) eqn:Hd.
  { unfold Execution_execute. unfold dropped in Hd.
    rewrite !execution_at_stopAutomaticCancellation, Hd. cbn [snd].
    eapply (running_in_flight_same _ (λ _, False)); [done| | | |done].
    - apply extends_stopAutomaticCancellation.
    - by rewrite execution_heap_stopAutomaticCancellation.
    - by rewrite awaiting_stopAutomaticCancellation. }
  rewrite Execution_execute_unfold by done. cbn zeta.
  set (s1 := calling e args s).
  assert (running_in_flight (eq e) s1) as H1.
  { eapply (running_in_flight_same _ (eq e) s); [|by apply extends_calling| |
                                                   |done].
    - eapply running_in_flight_weaken; [|exact H]. done.
    - apply same_objects_calling.
    - unfold s1. by rewrite awaiting_calling. }
  set (s2 := run_calls _ s1).
  assert (running_in_flight (eq e) s2) as H2
    by by apply running_in_flight_run_calls.
  destruct (throws _); cbn [snd].
  - eapply (running_in_flight_close e s2); [done| | | |].
    + by apply extends_Execution_afterRun.
    + apply same_objects_Execution_afterRun.
    + by rewrite awaiting_Execution_afterRun.
    + intros x Hx Hrun.
      destruct (Execution_afterRun_state e s2) as [Hidle _].
      { pose proof (lookup_lt_Some _ _ _ Hx) as Hlt.
        by rewrite (proj2 (proj2 (same_objects_Execution_afterRun e s2)))
          in Hlt. }
      unfold execution_at in Hidle.
      rewrite (list_lookup_total_correct _ _ _ Hx) in Hidle. congruence.
  - eapply (running_in_flight_close e s2); [done| | | |].
    + apply extends_set_awaiting.
    + done.
    + simpl. intros y Hy. apply elem_of_app. by left.
    + intros x _ _. simpl. apply elem_of_app. right. by left.
Qed.

Lemma running_in_flight_forEach args a k n s :
  running_in_flight (λ _, False) s →
  running_in_flight (λ _, False)
    (snd (forEach (λ x, Execution_execute user x args) a k n s)).
Proof.
  revert k s. induction n as [|n IH]; intros k s H; simpl; [done|].
  destruct (array_at s a !! k) as [x|] eqn:Hx; [|by apply IH].
  pose proof (running_in_flight_Execution_execute x args s H) as H1.
  destruct (Execution_execute user x args s) as [[] s1]; simpl in *;
    [by apply IH|done].
Qed.

Lemma running_in_flight_fire_timer t s :
  running_in_flight (λ _, False) s →
  running_in_flight (λ _, False) (snd (fire_timer user t s)).
Proof.
  intros H. unfold fire_timer.
  destruct (timers s !! t) as [tm|]; [|done].
  destruct (timer_pending tm); [|done]. unfold expiration_closure.
  set (s1 := log _ _).
  assert (running_in_flight (λ _, False) s1) as H1 by exact H.
  assert (∀ s2, running_in_flight (λ _, False) s2 →
    running_in_flight (λ _, False) (Execution_cancel (timer_owner tm) s2))
    as Hcancel.
  { intros s2 G.
    eapply (running_in_flight_same _ (λ _, False)); [done| | | |done].
    - apply extends_Execution_cancel.
    - by rewrite execution_heap_Execution_cancel.
    - by rewrite awaiting_Execution_cancel. }
  destruct (exp_callback _) as [f|]; [|by apply Hcancel].
  unfold call_user.
  pose proof (running_in_flight_run_calls _ (calls (user f [] s1)) s1 H1).
  destruct (throws _); cbn [snd]; [done|by apply Hcancel].
Qed.

Lemma running_in_flight_resume k s :
  running_in_flight (λ _, False) s →
  running_in_flight (λ _, False) (resume k s).
Proof.
  intros H. unfold resume. destruct (awaiting s !! k) as [e|] eqn:Hk; [|done].
  set (s1 := set_awaiting (delete k) s).
  intros e' x' _ Hx' Hrun.
  rewrite awaiting_Execution_afterRun. simpl.
  pose proof (lookup_lt_Some _ _ _ Hx') as Hlt.
  rewrite (proj2 (proj2 (same_objects_Execution_afterRun e s1))) in Hlt.
  destruct (decide (e = e')) as [<-|Hne].
  { destruct (Execution_afterRun_state e s1 Hlt) as [Hidle _].
    unfold execution_at in Hidle.
    rewrite (list_lookup_total_correct _ _ _ Hx') in Hidle. congruence. }
  destruct (lookup_lt_is_Some_2 _ _ Hlt) as [x Hx].
  pose proof (ext_frame _ _ _ (extends_Execution_afterRun (eq e) e s1 eq_refl)
                e' x Hne Hx) as Hx2.
  assert (e' ∈ awaiting s) as [j Hj]%list_elem_of_lookup.
  { apply (H e' x); [tauto|done|congruence]. }
  apply list_elem_of_lookup.
  destruct (decide (j < k)) as [Hjk|Hjk].
  - exists j. by rewrite list_lookup_delete_lt.
  - assert (j ≠ k) by (intros ->; congruence).
    exists (pred j). rewrite list_lookup_delete_ge by lia.
    by replace (S (pred j)) with j by lia.
Qed.

Lemma running_in_flight_step o s :
  running_in_flight (λ _, False) s →
  running_in_flight (λ _, False) (snd (step user o s)).
Proof.
  intros H. destruct o as [c|name args|t|k]; simpl.
  - by apply running_in_flight_run_call.
  - unfold emitEvent. destruct (find_event s name); [|done].
    by apply running_in_flight_forEach.
  - by apply running_in_flight_fire_timer.
  - by apply running_in_flight_resume.
Qed.

Lemma running_in_flight_run os s :
  running_in_flight (λ _, False) s →
  running_in_flight (λ _, False) (run user os s).
Proof.
  revert s. induction os as [|o os IH]; intros s H; simpl; [done|].
  by apply IH, running_in_flight_step.
Qed.

(** X18.  [stopAutomaticCancellation] and [cancel] of an execution clear
    no timer but its own: whatever jobs have run on a fresh emitter, they
    leave the timer of every other execution as it is, pending if it was
    pending. *)
Theorem disarming_touches_own_timer_only os e t tm :
  let s := run user os initial in
  timers s !! t = Some tm → timer_owner tm ≠ e →
  timers (stopAutomaticCancellation e s) !! t = Some tm ∧
  timers (Execution_cancel e s) !! t = Some tm.
Proof.
  intros s Ht Hown.
  pose proof (reachable_user_wf user os) as Hwf. fold s in Hwf.
  assert (timer_ids_unique s) as Huniq.
  { apply (J_run user timer_ids_unique).
    - apply timer_ids_unique_frame.
    - apply timer_ids_unique_run_call.
    - apply wf_initial.
    - by intros ? ? ? ? ?. }
  assert (timers (stopAutomaticCancellation e s) !! t = Some tm) as Hstop;
    [|by split].
  unfold stopAutomaticCancellation, clearTimeout.
  destruct (_ =? _)%Z eqn:Hm; [done|]. apply Z.eqb_neq in Hm.
  destruct (0 <? _)%Z eqn:Hpos; [|done]. apply Z.ltb_lt in Hpos. simpl.
  destruct (decide (timer_index (expirationTimeout (state (execution_at s e)))
                    = t)) as [Heq|Hne]; [|by rewrite list_lookup_alter_ne].
  rewrite Heq, list_lookup_alter_eq, Ht. simpl. f_equal.
  destruct tm as [owner [|]]; [|done]. exfalso. simpl in *.
  destruct (execution_heap s !! e) as [x|] eqn:Hx.
  2:{ unfold execution_at in Hm.
      by rewrite list_lookup_total_alt, Hx in Hm. }
  unfold execution_at in *.
  rewrite (list_lookup_total_correct _ _ _ Hx) in *.
  pose proof (wf_timer_owner _ _ (wf_wf_timers _ _ _ Hwf) _ _ Ht) as Hlt.
  destruct (lookup_lt_is_Some_2 _ _ Hlt) as [y Hy].
  pose proof (wf_timer_pending _ _ (wf_wf_timers _ _ _ Hwf) _ _ _ Ht
                eq_refl Hy) as Hid.
  apply Hown. apply (Huniq _ _ y x Hy Hx).
  - rewrite Hid. unfold timer_id, timer_index in *. lia.
  - rewrite Hid. unfold timer_id. lia.
Qed.

(** X19.  The guard of [execute] drops a trigger only while a run is in
    flight: whatever jobs have run on a fresh emitter, an execution whose
    [isExecuting()] is true has a suspended activation of [execute], the
    one that resets the flag when it is resumed. *)
Theorem executing_means_in_flight os e :
  let s := run user os initial in
  (Execution_isExecuting s e = true → e ∈ awaiting s) ∧
  (dropped s e = true → e ∈ awaiting s).
Proof.
  intros s.
  assert (running_in_flight (λ _, False) s) as H.
  { apply running_in_flight_run. by intros ? ? ? ?. }
  assert (Execution_isExecuting s e = true → e ∈ awaiting s) as Hrun.
  { unfold Execution_isExecuting, execution_at.
    rewrite list_lookup_total_alt.
    destruct (execution_heap s !! e) as [x|] eqn:Hx; [|done].
    simpl. intros Hrun. apply (H e x); [tauto|done..]. }
  split; [done|]. unfold dropped. intros [Hr _]%andb_true_iff.
  by apply Hrun.
Qed.

End Running.

Lemma Event_addExecution_new r cb params s :
  ∃ x,
    execution_heap (snd (Event_addExecution r cb params s))
    = execution_heap s ++ [x] ∧
    callbackFunction x = cb ∧
    isExecuting (state x) = false ∧ hasExecuted (state x) = false ∧
    removeAfterExecute (parameters x)
    = default false (params ≫= ExecutionParameters.removeAfterExecute) ∧
    onlyOneExecutionAtATime (parameters x)
    = default false (params ≫= ExecutionParameters.onlyOneInstance) ∧
    match params ≫= ExecutionParameters.expireAfterMs with
    | Some ex =>
        timers (snd (Event_addExecution r cb params s))
        = timers s ++ [{| timer_owner := length (execution_heap s);
                          timer_pending := true |}] ∧
        expirationTimeout (state x) = timer_id (length (timers s)) ∧
        exp_callback (expirationCallback (parameters x))
        = Some (EventExpiration.callback ex)
    | None =>
        timers (snd (Event_addExecution r cb params s)) = timers s ∧
        expirationTimeout (state x) = (-1)%Z
    end.
Proof.
  unfold Event_addExecution.
  destruct (Execution_new_spec r (executionCounter (event_at s r)) cb
              params s)
    as (x & ts & -> & _ & _ & Hcb & Hrun & Hhas & Hra & Hoo & Hts).
  exists x. cbn [snd]. do 6 (split; [done|]).
  destruct (params ≫= ExecutionParameters.expireAfterMs) as [ex|].
  - by destruct Hts as (-> & ? & ?).
  - destruct Hts as (-> & ?). simpl. by rewrite app_nil_r.
Qed.

Lemma pending_new_timer ts tm :
  timer_pending tm = true →
  pending_in (ts ++ [tm]) (timer_id (length ts)) = true.
Proof.
  intros Hp. unfold pending_in, timer_id, timer_index.
  replace (Z.to_nat (Z.of_nat (length ts) + 1 - 1)) with (length ts) by lia.
  rewrite list_lookup_middle by done. rewrite Hp.
  apply andb_true_iff. split; [|done]. apply Z.ltb_lt. lia.
Qed.

(** X20.  What a subscription sets up.  The new execution has the
    callback given, is not executing and has not executed;
    [removeAfterExecute] and [onlyOneExecutionAtATime] are as given, and
    [false] where the parameter object or the field is undefined.  With
    [expireAfterMs], one timer is created by the subscription, owned by the
    new execution; it is pending, and the expiration callback is the one
    given.  Without, no timer is created and [expirationTimeout] is
    [-1]. *)
Theorem subscription_copies_parameters name cb params s :
  let e := length (execution_heap s) in
  let s1 := snd (addEvent name cb params s) in
  let x := execution_at s1 e in
  callbackFunction x = cb ∧
  Execution_isExecuting s1 e = false ∧ hasExecuted (state x) = false ∧
  removeAfterExecute (parameters x)
  = default false (params ≫= ExecutionParameters.removeAfterExecute) ∧
  onlyOneExecutionAtATime (parameters x)
  = default false (params ≫= ExecutionParameters.onlyOneInstance) ∧
  match params ≫= ExecutionParameters.expireAfterMs with
  | Some ex =>
      timers s1 = timers s ++ [{| timer_owner := e; timer_pending := true |}] ∧
      pending s1 (expirationTimeout (state x)) = true ∧
      exp_callback (expirationCallback (parameters x))
      = Some (EventExpiration.callback ex)
  | None => timers s1 = timers s ∧ expirationTimeout (state x) = (-1)%Z
  end.
Proof.
  intros e s1 x.
  assert (∃ y, execution_heap s1 = execution_heap s ++ [y] ∧
    callbackFunction y = cb ∧
    isExecuting (state y) = false ∧ hasExecuted (state y) = false ∧
    removeAfterExecute (parameters y)
    = default false (params ≫= ExecutionParameters.removeAfterExecute) ∧
    onlyOneExecutionAtATime (parameters y)
    = default false (params ≫= ExecutionParameters.onlyOneInstance) ∧
    match params ≫= ExecutionParameters.expireAfterMs with
    | Some ex =>
        timers s1 = timers s ++ [{| timer_owner := e; timer_pending := true |}] ∧
        expirationTimeout (state y) = timer_id (length (timers s)) ∧
        exp_callback (expirationCallback (parameters y))
        = Some (EventExpiration.callback ex)
    | None => timers s1 = timers s ∧ expirationTimeout (state y) = (-1)%Z
    end) as (y & Hxh & Hcb & Hrun & Hhas & Hra & Hoo & Hts).
  { unfold s1, e, addEvent. destruct (find_event s name) as [r|].
    - pose proof (Event_addExecution_new r cb params s) as H.
      by destruct (Event_addExecution r cb params s).
    - simpl. set (s0 := set_events _ _).
      pose proof (Event_addExecution_new (length (event_heap s)) cb
                    params s0) as H.
      by destruct (Event_addExecution _ cb params s0). }
  assert (execution_at s1 e = y) as Hat.
  { unfold execution_at. rewrite Hxh. apply lookup_total_snoc. }
  unfold Execution_isExecuting. subst x. rewrite Hat.
  do 5 (split; [done|]).
  destruct (params ≫= ExecutionParameters.expireAfterMs) as [ex|]; [|done].
  destruct Hts as (Hts & Hid & Hex). split; [done|]. split; [|done].
  unfold pending. rewrite Hts, Hid. by apply pending_new_timer.
Qed.

(** ** Instances *)

Lemma wf_two_on_a : wf two_on_a.
Proof.
  exact (reachable_user_wf user_quiet
    [OpCall (CallAddEvent "a" 1 None); OpCall (CallAddEvent "a" 2 None)]).
Qed.

Lemma wf_three_listeners : wf three_listeners.
Proof.
  exact (reachable_user_wf user_quiet
    [OpCall (CallAddEvent "a" 1 None); OpCall (CallAddEvent "a" 2 None);
     OpCall (CallAddEvent "b" 3 None)]).
Qed.

Lemma subscription_is_called_last_witness :
  wf two_on_a ∧
  trace (snd (emitEvent user_quiet "a" [VNum 5]
                (snd (addEvent "a" 3 None two_on_a))))
  = [Invoked 0 1 [VNum 5]; Invoked 1 2 [VNum 5]; Invoked 2 3 [VNum 5]].
Proof.
  split; [exact wf_two_on_a|].
  etrans; [exact (subscription_is_called_last user_quiet "a" 3 None [VNum 5]
                    two_on_a wf_two_on_a)|].
  reflexivity.
Defined.

Lemma removal_leaves_other_names_witness :
  wf three_listeners ∧ "b" ≠ "a" ∧ find_event three_listeners "b" = Some 1 ∧
  find_event (removeEvent "a" three_listeners) "b" = Some 1 ∧
  executions_of (removeEvent "a" three_listeners) 1 = [2] ∧
  find_event (removeExecution "a" 0 three_listeners) "b" = Some 1 ∧
  executions_of (removeExecution "a" 0 three_listeners) 1 = [2].
Proof.
  assert ("b" ≠ "a") as Hne by discriminate.
  split; [exact wf_three_listeners|]. split; [exact Hne|].
  split; [reflexivity|].
  exact (removal_leaves_other_names "a" "b" 0 1 three_listeners
           wf_three_listeners Hne eq_refl).
Defined.

Lemma removeExecution_removes_exactly_one_witness :
  wf two_on_a ∧ find_event two_on_a "a" = Some 0 ∧
  executions_of two_on_a 0 = [] ++ 0 :: [1] ∧
  executions_of (removeExecution "a" 0 two_on_a) 0 = [1].
Proof.
  split; [exact wf_two_on_a|]. split; [reflexivity|]. split; [reflexivity|].
  exact (removeExecution_removes_exactly_one "a" 0 [] 0 [1] two_on_a
           wf_two_on_a eq_refl eq_refl).
Defined.

Lemma removeExecution_drops_emptied_event_witness :
  wf two_on_a ∧ find_event two_on_a "a" = Some 0 ∧
  1 ∈ executions_of two_on_a 0 ∧ Execution_getID two_on_a 1 ≠ 0%Z ∧
  find_event (removeExecution "a" 0 two_on_a) "a" = Some 0 ∧
  events (removeExecution "a" 0 two_on_a) = [0].
Proof.
  assert (1 ∈ executions_of two_on_a 0) as Hin.
  { vm_compute. apply list_elem_of_In. simpl. auto. }
  assert (Execution_getID two_on_a 1 ≠ 0%Z) as Hne by (vm_compute; lia).
  split; [exact wf_two_on_a|]. split; [reflexivity|]. split; [exact Hin|].
  split; [exact Hne|].
  exact (proj2 (removeExecution_drops_emptied_event "a" 0 0 two_on_a
                  wf_two_on_a eq_refl) 1 Hin Hne).
Defined.

Lemma unknown_name_is_ignored_witness :
  find_event two_on_a "zzz" = None ∧
  removeEvent "zzz" two_on_a = two_on_a ∧
  removeExecution "zzz" 0 two_on_a = two_on_a ∧
  emitEvent user_quiet "zzz" [] two_on_a = (Normal, two_on_a).
Proof.
  split; [reflexivity|].
  exact (unknown_name_is_ignored user_quiet "zzz" 0 [] two_on_a eq_refl).
Defined.

Lemma unknown_id_changes_nothing_witness :
  wf two_on_a ∧ find_event two_on_a "a" = Some 0 ∧
  0 ∈ executions_of two_on_a 0 ∧
  view (removeExecution "a" 7 two_on_a) = view two_on_a.
Proof.
  assert (0 ∈ executions_of two_on_a 0) as Hin.
  { vm_compute. apply list_elem_of_In. simpl. auto. }
  split; [exact wf_two_on_a|]. split; [reflexivity|]. split; [exact Hin|].
  apply (unknown_id_changes_nothing "a" 7 0 0 two_on_a wf_two_on_a eq_refl
           Hin).
  intros e' He'. vm_compute in He'. apply list_elem_of_In in He'.
  destruct He' as [<-|[<-|[]]]; vm_compute; lia.
Defined.

Lemma removed_execution_is_never_called_witness :
  wf two_on_a ∧ find_event two_on_a "a" = Some 0 ∧
  0 ∈ executions_of two_on_a 0 ∧
  absent (removeExecution "a" 0 two_on_a) 0 ∧
  trace (run user_quiet [OpEmit "a" []] (removeExecution "a" 0 two_on_a))
  = trace two_on_a ++ [Invoked 1 2 []] ∧
  Invoked 0 1 [] ∉ [Invoked 1 2 []].
Proof.
  assert (0 ∈ executions_of two_on_a 0) as Hin.
  { vm_compute. apply list_elem_of_In. simpl. auto. }
  destruct (removed_execution_is_never_called user_quiet "a" 0 0 two_on_a
              wf_two_on_a eq_refl Hin) as [H1 H2].
  split; [exact wf_two_on_a|]. split; [reflexivity|]. split; [exact Hin|].
  split; [exact H1|]. split; [reflexivity|].
  exact (H2 [OpEmit "a" []] [Invoked 1 2 []] eq_refl 1 []).
Defined.

Lemma removed_event_is_never_called_witness :
  wf three_listeners ∧ 0 ∈ events three_listeners ∧
  1 ∈ executions_of three_listeners 0 ∧
  Event_getEventName three_listeners 0 = "a" ∧
  trace (run user_quiet [OpCall (CallAddEvent "a" 9 None); OpEmit "a" []]
           (removeEvent "a" three_listeners))
  = trace three_listeners ++ [Invoked 3 9 []] ∧
  Invoked 1 2 [] ∉ [Invoked 3 9 []].
Proof.
  assert (0 ∈ events three_listeners) as Hr.
  { vm_compute. apply list_elem_of_In. simpl. auto. }
  assert (1 ∈ executions_of three_listeners 0) as Hin.
  { vm_compute. apply list_elem_of_In. simpl. auto. }
  split; [exact wf_three_listeners|]. split; [exact Hr|].
  split; [exact Hin|]. split; [reflexivity|]. split; [reflexivity|].
  exact (removed_event_is_never_called user_quiet 0 1 three_listeners
           (removeEvent "a" three_listeners) wf_three_listeners Hr Hin
           (or_introl eq_refl)
           [OpCall (CallAddEvent "a" 9 None); OpEmit "a" []]
           [Invoked 3 9 []] eq_refl 2 []).
Defined.

Lemma at_most_one_run_in_flight_witness :
  onlyOneExecutionAtATime (parameters (execution_at busy_twice 0)) = true ∧
  awaiting busy_twice = [0] ∧
  Execution_isExecuting busy_twice 0 = true.
Proof.
  split; [reflexivity|]. split; [reflexivity|].
  exact (proj2 (at_most_one_run_in_flight user_quiet
                  [OpCall (CallAddEvent "job" 1 only_one); OpEmit "job" [];
                   OpEmit "job" []] 0 0 0 eq_refl eq_refl eq_refl)).
Defined.

Lemma overlapping_runs_without_guard_witness :
  (0 < length (execution_heap overlapping))%nat ∧
  awaiting overlapping = [0; 0] ∧
  trace overlapping = [Invoked 0 1 []; Invoked 0 1 []] ∧
  Execution_isExecuting (resume 0 overlapping) 0 = false ∧
  0 ∈ awaiting (resume 0 overlapping).
Proof.
  assert (0 < length (execution_heap overlapping))%nat as Hlt
    by (vm_compute; lia).
  split; [exact Hlt|]. split; [reflexivity|]. split; [reflexivity|].
  apply (proj2 (overlapping_runs_without_guard user_quiet 0 overlapping Hlt)
           0 1); [lia|reflexivity|reflexivity].
Defined.

Lemma job_calls_are_fixed_at_its_start_witness :
  wf two_on_a ∧
  trace (snd (step user_first_throws (OpEmit "a" [VNum 1]) two_on_a))
  = [Invoked 0 1 [VNum 1]; Invoked 1 2 [VNum 1]].
Proof.
  split; [exact wf_two_on_a|].
  exact (job_calls_are_fixed_at_its_start user_first_throws
           (OpEmit "a" [VNum 1]) two_on_a wf_two_on_a).
Defined.

Lemma subscribe_then_remove_restores_lists_witness :
  wf two_on_a ∧ find_event two_on_a "a" = Some 0 ∧
  let h := fst (addEvent "a" 3 None two_on_a) in
  let s2 := la_remove h (snd (addEvent "a" 3 None two_on_a)) in
  executions_of s2 0 = [0; 1] ∧ find_event s2 "a" = Some 0.
Proof.
  destruct (proj2 (subscribe_then_remove_restores_lists "a" 3 None two_on_a
                     wf_two_on_a) 0 eq_refl) as (H1 & H2 & _).
  split; [exact wf_two_on_a|]. split; [reflexivity|]. split; [exact H1|].
  apply H2. discriminate.
Defined.

Lemma disarming_touches_own_timer_only_witness :
  timers two_timers !! 0 = Some {| timer_owner := 0; timer_pending := true |} ∧
  0 ≠ 1 ∧
  timers (Execution_cancel 1 two_timers)
  = [{| timer_owner := 0; timer_pending := true |};
     {| timer_owner := 1; timer_pending := false |}] ∧
  timers (Execution_cancel 1 two_timers) !! 0
  = Some {| timer_owner := 0; timer_pending := true |}.
Proof.
  assert (0 ≠ 1) as Hne by lia.
  split; [reflexivity|]. split; [exact Hne|]. split; [reflexivity|].
  exact (proj2 (disarming_touches_own_timer_only user_quiet
                  [OpCall (CallAddEvent "tick" 1 expiring);
                   OpCall (CallAddEvent "tock" 2 expiring)]
                  1 0 {| timer_owner := 0; timer_pending := true |}
                  eq_refl Hne)).
Defined.

(** * Runs in flight, one-shot executions and expiration *)




Section Lifecycle.

Variable user : callback → list value → State → Behaviour.




(** C8.  When the host fires a pending timer in a well-formed state, the
    expiration callback of its owner has not been called before; it is
    called in a state in which the lists of all events are as they were
    when the timer fired, so before the execution is detached; and
    whatever the callback does and whatever happens later, the trace
    contains exactly this one call of the expiration callback of the
    execution.  If the callback returns, [cancel] follows and the
    execution is in the list of no event.  If the callback throws, the
    timer callback ends with that error and [cancel] is not reached: the
    timer is spent, and when the callback made no calls of its own the
    events and their lists are as they were when the timer fired, so the
    execution stays in its event. *)
Theorem expiration_detaches_unless_onExpire_throws t tm s :
  wf s → timers s !! t = Some tm → timer_pending tm = true →
  let e := timer_owner tm in
  let cb := exp_callback (expirationCallback (parameters (execution_at s e))) in
  let s0 := log (Expired e cb) (set_timers (alter disarm t) s) in
  let s' := snd (fire_timer user t s) in
  expirations_in (trace s) e = [] ∧
  (∀ r, executions_of s0 r = executions_of s r) ∧
  trace s' = trace s ++ [Expired e cb] ∧
  (∀ os, expirations_in (trace (run user os s')) e = [Expired e cb]) ∧
  ((∀ f, cb = Some f → throws (user f [] s0) = false) →
   fire_timer user t s
   = (Normal,
      Execution_cancel e
        match cb with
        | Some f => run_calls (calls (user f [] s0)) s0
        | None => s0
        end) ∧
   absent s' e) ∧
  (∀ f, cb = Some f → throws (user f [] s0) = true →
   fire_timer user t s = (Throw, run_calls (calls (user f [] s0)) s0) ∧
   disarmed_in (timers s') e ∧
   (calls (user f [] s0) = [] →
    events s' = events s ∧ ∀ r, executions_of s' r = executions_of s r)).
Proof.
  intros Hwf Ht Hp e cb s0 s'.
  pose proof (wf_timer_owner _ _ (wf_wf_timers _ _ _ Hwf) _ _ Ht) as He.
  fold e in He.
  assert (expirations_in (trace s) e = []) as Hnone
    by by eapply pending_timer_not_expired.
  assert (fire_timer user t s
          = match cb with
            | Some f =>
                if throws (user f [] s0)
                then (Throw, run_calls (calls (user f [] s0)) s0)
                else (Normal,
                      Execution_cancel e
                        (run_calls (calls (user f [] s0)) s0))
            | None => (Normal, Execution_cancel e s0)
            end) as Hfire.
  { unfold fire_timer, expiration_closure. rewrite Ht, Hp.
    fold e. rewrite execution_at_set_timers. fold cb. fold s0.
    destruct cb as [f|]; [|done]. unfold call_user.
    by destruct (throws _). }
  assert (wf_at (λ _, False) (eq e) (set_timers (alter disarm t) s)) as H1.
  { apply wf_at_disarmed; [by apply wf_disarm|done|].
    by eapply pending_timer_unique. }
  assert (wf_at (λ _, False) (eq e) s0) as H0.
  { destruct H1 as [G1 G2 G3 G4 G5]. split; try done. simpl.
    apply wf_trace_log_Expired; try done.
    by apply (wf_disarmed_timers _ _ _ G5). }
  assert (wf_at (λ _, False) (eq e) s') as H2.
  { unfold s'. rewrite Hfire. destruct cb as [f|].
    - destruct (throws _); cbn [snd].
      + by apply wf_run_calls.
      + by apply wf_Execution_cancel, wf_run_calls.
    - cbn [snd]. by apply wf_Execution_cancel. }
  assert (trace s' = trace s ++ [Expired e cb]) as Htr.
  { unfold s'. rewrite Hfire. destruct cb as [f|].
    - destruct (throws _); cbn [snd];
        by rewrite ?trace_Execution_cancel, trace_run_calls.
    - cbn [snd]. by rewrite trace_Execution_cancel. }
  split; [done|]. split; [done|]. split; [done|]. split; [|split].
  - intros os. rewrite (disarmed_never_expires user _ e s' os H2).
    rewrite Htr, expirations_in_app, Hnone. simpl.
    unfold expirations_in. simpl. by rewrite Nat.eqb_refl.
  - intros Hreturns.
    assert (fire_timer user t s
            = (Normal,
               Execution_cancel e
                 match cb with
                 | Some f => run_calls (calls (user f [] s0)) s0
                 | None => s0
                 end)) as Hfire'.
    { rewrite Hfire. destruct cb as [f|]; [|done].
      by rewrite (Hreturns f eq_refl). }
    split; [done|]. apply (wf_at_absent (eq e) (λ _, False)); [|done].
    unfold s'. rewrite Hfire'. cbn [snd]. apply Execution_cancel_retires.
    + apply (wf_at_wf (λ _, False) (eq e)).
      destruct cb; [by apply wf_run_calls|done].
    + destruct cb as [f|]; [|done].
      pose proof (ext_execution_length _ _ _
        (extends_run_calls (λ _, True) (calls (user f [] s0)) s0)).
      simpl in *. lia.
  - intros f Hcb Hthrow.
    assert (fire_timer user t s
            = (Throw, run_calls (calls (user f [] s0)) s0)) as Hfire'.
    { rewrite Hfire, Hcb. by rewrite Hthrow. }
    split; [done|]. split.
    + by apply (wf_disarmed_timers _ _ _ (wf_wf_disarmed _ _ _ H2)).
    + intros Hcalls. unfold s'. rewrite Hfire', Hcalls. done.
Qed.

End Lifecycle.





Lemma expiration_detaches_unless_onExpire_throws_witness :
  wf ticking ∧
  timers ticking !! 0 = Some {| timer_owner := 0; timer_pending := true |} ∧
  trace (snd (fire_timer user_quiet 0 ticking)) = [Expired 0 (Some 9)] ∧
  absent (snd (fire_timer user_quiet 0 ticking)) 0 ∧
  fst (fire_timer user_onExpire_throws 0 ticking) = Throw ∧
  executions_of (snd (fire_timer user_onExpire_throws 0 ticking)) 0
  = executions_of ticking 0 ∧
  executions_of ticking 0 = [0].
Proof.
  assert (wf ticking) as Hwf by exact (wf_addEvent _ _ _ _ _ _ wf_initial).
  destruct (expiration_detaches_unless_onExpire_throws user_quiet 0
              {| timer_owner := 0; timer_pending := true |} ticking
              Hwf eq_refl eq_refl)
    as (_ & _ & H3 & _ & H5 & _).
  destruct (expiration_detaches_unless_onExpire_throws user_onExpire_throws
              0 {| timer_owner := 0; timer_pending := true |} ticking
              Hwf eq_refl eq_refl)
    as (_ & _ & _ & _ & _ & H6).
  destruct (H6 9 eq_refl eq_refl) as (H7 & _ & H8).
  split; [exact Hwf|]. split; [reflexivity|]. split; [exact H3|].
  split; [exact (proj2 (H5 (λ _ _, eq_refl)))|].
  split; [exact (f_equal fst H7)|].
  split; [exact (proj2 (H8 eq_refl) 0)|reflexivity].
Defined.
